(** * Box2D: the weld joint, the solver sets and the bookkeeping of a step

    A shallow embedding of [weld_joint.c] and of the declarations of
    [physics_world.h] and [types.h] it rests on, with the properties the
    specification states about them.

    The C type [float] is kept abstract behind the interface [Scalar]:
    every function of the embedding is written once, over any carrier that
    offers the operations the C code uses.  Two carriers are provided:
    IEEE-754 binary32 ([spec_float] at precision 24) and the exact rationals
    [Qc].  Properties that only follow the data flow hold for every
    carrier; properties that rest on identities of real arithmetic are
    stated for carriers satisfying [ExactArith].

    Pointers into [context->states] are indices into a list; the local
    [dummyState] of the solver passes and that list form a small store, so
    that two pointers to the same object behave as in C.  A call returns an
    [Outcome]: a value, a failed assertion, or an access outside an array.

    Parts of the repository that are not in this source tree (the math
    helpers, the step function, the constraint graph) are modelled from the
    specification, each under a comment that says so. *)

From Stdlib Require Import ZArith QArith Qcanon Bool List Lia Ring.
From Stdlib Require Import Floats.SpecFloat.
From stdpp Require Import base option list gmap.

Set Implicit Arguments.
Local Open Scope Z_scope.

(** ** The scalar interface *)

Declare Scope fl_scope.
Delimit Scope fl_scope with fl.

(** The operations [weld_joint.c] applies to values of type [float]:
    the literals [0.0f] and [1.0f], the four arithmetic operators, unary
    minus, the comparisons, and the classification used by
    [b2IsValidFloat]. *)
Class Scalar (F : Type) : Type := {
  f_zero : F;
  f_one : F;
  f_add : F -> F -> F;
  f_sub : F -> F -> F;
  f_mul : F -> F -> F;
  f_div : F -> F -> F;
  f_neg : F -> F;
  f_eqb : F -> F -> bool;
  f_ltb : F -> F -> bool;
  f_leb : F -> F -> bool;
  f_isnan : F -> bool;
  f_isinf : F -> bool
}.

Notation "0" := f_zero : fl_scope.
Notation "1" := f_one : fl_scope.
Infix "+" := f_add : fl_scope.
Infix "-" := f_sub : fl_scope.
Infix "*" := f_mul : fl_scope.
Infix "/" := f_div : fl_scope.
Notation "- a" := (f_neg a) : fl_scope.
Notation "a =? b" := (f_eqb a b) : fl_scope.
Notation "a <? b" := (f_ltb a b) : fl_scope.
Notation "a <=? b" := (f_leb a b) : fl_scope.
Notation "a >? b" := (f_ltb b a) : fl_scope.
Notation "a >=? b" := (f_leb b a) : fl_scope.

(** What the ordering of any sensible carrier gives: [a < b] excludes
    [b <= a].  It holds for IEEE comparisons and for exact arithmetic. *)
Class ScalarOrder (F : Type) `{Scalar F} : Prop := {
  f_ltb_not_leb : forall a b : F, (a <? b)%fl = true -> (b <=? a)%fl = false
}.
Arguments ScalarOrder F {_}.

(** Carriers whose arithmetic is exact: the operations form a commutative
    ring, [1 / a] inverts every non-zero [a], and [<] is irreflexive. *)
Class ExactArith (F : Type) `{Scalar F} : Prop := {
  exact_ring : ring_theory f_zero f_one f_add f_mul f_sub f_neg (@eq F);
  exact_inv : forall a : F, a <> f_zero -> (f_one / a * a)%fl = f_one;
  exact_ltb_irrefl : forall a : F, (a <? a)%fl = false
}.
Arguments ExactArith F {_}.

(** A carrier whose [<] is asymmetric: [a < b] excludes [b < a].  It holds
    for IEEE comparisons, NaN included, and for exact arithmetic. *)
Class ScalarStrict (F : Type) `{Scalar F} : Prop := {
  f_ltb_asym : forall a b : F, (a <? b)%fl = true -> (b <? a)%fl = false
}.
Arguments ScalarStrict F {_}.

(** A carrier on which a NaN is less than nothing and nothing is less
    than a NaN, and on which "not less than" is transitive among the values
    that are not NaN, as it is for a total order.  It holds for IEEE
    comparisons and for exact arithmetic. *)
Class ScalarWeakOrder (F : Type) `{Scalar F} : Prop := {
  f_ltb_numbers : forall a b : F,
    (a <? b)%fl = true -> f_isnan a = false /\ f_isnan b = false;
  f_ltb_negtrans : forall a b c : F,
    f_isnan a = false -> f_isnan b = false -> f_isnan c = false ->
    (a <? b)%fl = false -> (b <? c)%fl = false -> (a <? c)%fl = false
}.
Arguments ScalarWeakOrder F {_}.

(** ** Outcomes of a call

    [Ok] is a normal return.  [AssertFailed] is a call stopped by a
    [B2_ASSERT]; in each function below every assertion comes before the
    first write, so a stopped call has written nothing.  [Undefined] is an
    access outside an array that no assertion caught. *)
Inductive Outcome (A : Type) : Type :=
  | Ok (a : A)
  | AssertFailed
  | Undefined.
Arguments AssertFailed {A}.
Arguments Undefined {A}.

Definition outcome_bind {A B : Type} (m : Outcome A) (k : A -> Outcome B) : Outcome B :=
  match m with
  | Ok a => k a
  | AssertFailed => AssertFailed
  | Undefined => Undefined
  end.

Notation "x <- m ;; k" := (outcome_bind m (fun x => k))
  (at level 100, m at next level, right associativity, only parsing).
Notation "m ;;; k" := (outcome_bind m (fun _ => k))
  (at level 100, right associativity, only parsing).

(** ** Solver set indices ([physics_world.h], enum [b2SetType]) *)

Definition b2_staticSet : Z := 0.
Definition b2_disabledSet : Z := 1.
Definition b2_awakeSet : Z := 2.
Definition b2_firstSleepingSet : Z := 3.

(** The four kinds of solver set of the data model. *)
Inductive SetKind : Type :=
  | StaticSet
  | DisabledSet
  | AwakeSet
  | SleepingSet (island : nat).

(** The index a set of each kind has in [world->solverSets]: the three
    named sets at their enum value, sleeping sets from
    [b2_firstSleepingSet] on. *)
Definition setIndexOf (k : SetKind) : Z :=
  match k with
  | StaticSet => b2_staticSet
  | DisabledSet => b2_disabledSet
  | AwakeSet => b2_awakeSet
  | SleepingSet i => b2_firstSleepingSet + Z.of_nat i
  end.

(** Reading an index back. *)
Definition setKindOf (i : Z) : option SetKind :=
  if i =? b2_staticSet then Some StaticSet
  else if i =? b2_disabledSet then Some DisabledSet
  else if i =? b2_awakeSet then Some AwakeSet
  else if b2_firstSleepingSet <=? i then Some (SleepingSet (Z.to_nat (i - b2_firstSleepingSet)))
  else None.

(** Joint types ([types.h], enum [b2JointType]). *)
Inductive b2JointType : Type :=
  | b2_distanceJoint
  | b2_filterJoint
  | b2_motorJoint
  | b2_mouseJoint
  | b2_prismaticJoint
  | b2_revoluteJoint
  | b2_weldJoint
  | b2_wheelJoint.

Definition b2JointType_eqb (a b : b2JointType) : bool :=
  match a, b with
  | b2_distanceJoint, b2_distanceJoint
  | b2_filterJoint, b2_filterJoint
  | b2_motorJoint, b2_motorJoint
  | b2_mouseJoint, b2_mouseJoint
  | b2_prismaticJoint, b2_prismaticJoint
  | b2_revoluteJoint, b2_revoluteJoint
  | b2_weldJoint, b2_weldJoint
  | b2_wheelJoint, b2_wheelJoint => true
  | _, _ => false
  end.

(** Modelled from the spec: the macro [B2_NULL_INDEX] of [core.h], which is
    not part of this source tree; it is the index that names no slot. *)
Definition B2_NULL_INDEX : Z := -1.

(** ** Vectors, rotations and the records of the solver *)

Section Embedding.

Context {F : Type} `{Scalar F}.
Local Open Scope fl_scope.

(** Modelled from the spec: the struct [b2Vec2] of [math_functions.h], a
    header that is not part of this source tree. *)
Record b2Vec2 : Type := { x : F; y : F }.

(** Modelled from the spec: the struct [b2Rot] of [math_functions.h]: the
    cosine and the sine of a rotation. *)
Record b2Rot : Type := { c : F; s : F }.

(** Modelled from the spec: the struct [b2Transform] of
    [math_functions.h]. *)
Record b2Transform : Type := { p : b2Vec2; q : b2Rot }.

(** Modelled from the spec: the struct [b2Mat22] of [math_functions.h], by
    its two columns. *)
Record b2Mat22 : Type := { cx : b2Vec2; cy : b2Vec2 }.

(** Modelled from the spec: the struct [b2Softness] of [solver.h] (not part
    of this source tree), with the three coefficients section 4.6 names. *)
Record b2Softness : Type := { biasRate : F; massScale : F; impulseScale : F }.

(** Modelled from the spec: the struct [b2BodyState] of [solver.h], the
    velocity state of one awake body, with the fields [weld_joint.c]
    touches. *)
Record b2BodyState : Type := {
  linearVelocity : b2Vec2;
  angularVelocity : F;
  flags : Z;
  deltaPosition : b2Vec2;
  deltaRotation : b2Rot
}.

(** Modelled from the spec: the struct [b2WeldJoint] of [joint.h] (not part
    of this source tree), the weld member of the joint union, with the
    fields [weld_joint.c] reads and writes. *)
Record b2WeldJoint : Type := {
  linearHertz : F;
  linearDampingRatio : F;
  angularHertz : F;
  angularDampingRatio : F;
  linearSpring : b2Softness;
  angularSpring : b2Softness;
  linearImpulse : b2Vec2;
  angularImpulse : F;
  indexA : Z;
  indexB : Z;
  frameA : b2Transform;
  frameB : b2Transform;
  deltaCenter : b2Vec2;
  axialMass : F
}.

(** Modelled from the spec: the struct [b2JointSim] of [joint.h], with the
    fields [weld_joint.c] uses.  The union of joint types is represented by
    its weld member; [type] is the tag the assertions test. *)
Record b2JointSim : Type := {
  type : b2JointType;
  bodyIdA : Z;
  bodyIdB : Z;
  localFrameA : b2Transform;
  localFrameB : b2Transform;
  invMassA : F;
  invMassB : F;
  invIA : F;
  invIB : F;
  constraintSoftness : b2Softness;
  weldJoint : b2WeldJoint
}.

(** Modelled from the spec: the struct [b2Body] of [body.h] (not part of
    this source tree): where a body lives, its solver set and its slot in
    that set. *)
Record b2Body : Type := { setIndex : Z; localIndex : Z }.

(** Modelled from the spec: the struct [b2BodySim] of [body.h], with the
    fields [b2PrepareWeldJoint] reads. *)
Record b2BodySim : Type := {
  transform : b2Transform;
  center : b2Vec2;
  localCenter : b2Vec2;
  invMass : F;
  invInertia : F
}.

(** Modelled from the spec: the struct [b2SolverSet] of [solver_set.h] (not
    part of this source tree), by its array of body simulation records. *)
Record b2SolverSet : Type := { bodySims : list b2BodySim }.

(** The end-touch events of [types.h].  Shape ids and contact ids are
    handles, kept as integers. *)
Record b2SensorEndTouchEvent : Type := { sensorShapeId : Z; visitorShapeId : Z }.

Record b2ContactEndTouchEvent : Type := { shapeIdA : Z; shapeIdB : Z; contactId : Z }.

(** The world ([physics_world.h]), with the members the functions below
    read or write.  The two-element arrays of end events are pairs. *)
Record b2World : Type := {
  bodies : list b2Body;
  solverSets : list b2SolverSet;
  sensorEndEvents : list b2SensorEndTouchEvent * list b2SensorEndTouchEvent;
  contactEndEvents : list b2ContactEndTouchEvent * list b2ContactEndTouchEvent;
  endEventArrayIndex : Z;
  inv_h : F
}.

(** Modelled from the spec: the struct [b2StepContext] of [solver.h], with
    the members [weld_joint.c] reads; [states] is the array of body states
    of the awake set. *)
Record b2StepContext : Type := {
  world : b2World;
  h : F;
  enableWarmStarting : bool;
  states : list b2BodyState
}.

(** *** Field updates *)

Definition set_linearHertz (j : b2WeldJoint) (v : F) : b2WeldJoint :=
  {| linearHertz := v; linearDampingRatio := linearDampingRatio j;
     angularHertz := angularHertz j; angularDampingRatio := angularDampingRatio j;
     linearSpring := linearSpring j; angularSpring := angularSpring j;
     linearImpulse := linearImpulse j; angularImpulse := angularImpulse j;
     indexA := indexA j; indexB := indexB j; frameA := frameA j; frameB := frameB j;
     deltaCenter := deltaCenter j; axialMass := axialMass j |}.

Definition set_linearDampingRatio (j : b2WeldJoint) (v : F) : b2WeldJoint :=
  {| linearHertz := linearHertz j; linearDampingRatio := v;
     angularHertz := angularHertz j; angularDampingRatio := angularDampingRatio j;
     linearSpring := linearSpring j; angularSpring := angularSpring j;
     linearImpulse := linearImpulse j; angularImpulse := angularImpulse j;
     indexA := indexA j; indexB := indexB j; frameA := frameA j; frameB := frameB j;
     deltaCenter := deltaCenter j; axialMass := axialMass j |}.

Definition set_angularHertz (j : b2WeldJoint) (v : F) : b2WeldJoint :=
  {| linearHertz := linearHertz j; linearDampingRatio := linearDampingRatio j;
     angularHertz := v; angularDampingRatio := angularDampingRatio j;
     linearSpring := linearSpring j; angularSpring := angularSpring j;
     linearImpulse := linearImpulse j; angularImpulse := angularImpulse j;
     indexA := indexA j; indexB := indexB j; frameA := frameA j; frameB := frameB j;
     deltaCenter := deltaCenter j; axialMass := axialMass j |}.

Definition set_angularDampingRatio (j : b2WeldJoint) (v : F) : b2WeldJoint :=
  {| linearHertz := linearHertz j; linearDampingRatio := linearDampingRatio j;
     angularHertz := angularHertz j; angularDampingRatio := v;
     linearSpring := linearSpring j; angularSpring := angularSpring j;
     linearImpulse := linearImpulse j; angularImpulse := angularImpulse j;
     indexA := indexA j; indexB := indexB j; frameA := frameA j; frameB := frameB j;
     deltaCenter := deltaCenter j; axialMass := axialMass j |}.

Definition set_impulses (j : b2WeldJoint) (l : b2Vec2) (a : F) : b2WeldJoint :=
  {| linearHertz := linearHertz j; linearDampingRatio := linearDampingRatio j;
     angularHertz := angularHertz j; angularDampingRatio := angularDampingRatio j;
     linearSpring := linearSpring j; angularSpring := angularSpring j;
     linearImpulse := l; angularImpulse := a;
     indexA := indexA j; indexB := indexB j; frameA := frameA j; frameB := frameB j;
     deltaCenter := deltaCenter j; axialMass := axialMass j |}.

Definition set_weldJoint (b : b2JointSim) (j : b2WeldJoint) : b2JointSim :=
  {| type := type b; bodyIdA := bodyIdA b; bodyIdB := bodyIdB b;
     localFrameA := localFrameA b; localFrameB := localFrameB b;
     invMassA := invMassA b; invMassB := invMassB b; invIA := invIA b; invIB := invIB b;
     constraintSoftness := constraintSoftness b; weldJoint := j |}.

Definition set_linearVelocity (st : b2BodyState) (v : b2Vec2) : b2BodyState :=
  {| linearVelocity := v; angularVelocity := angularVelocity st; flags := flags st;
     deltaPosition := deltaPosition st; deltaRotation := deltaRotation st |}.

Definition set_angularVelocity (st : b2BodyState) (w : F) : b2BodyState :=
  {| linearVelocity := linearVelocity st; angularVelocity := w; flags := flags st;
     deltaPosition := deltaPosition st; deltaRotation := deltaRotation st |}.

Definition set_states (ctx : b2StepContext) (l : list b2BodyState) : b2StepContext :=
  {| world := world ctx; h := h ctx; enableWarmStarting := enableWarmStarting ctx;
     states := l |}.

(** *** Helpers of [math_functions.h]

    The inline vector helpers [weld_joint.c] calls are declared in
    [math_functions.h], a header that is not part of this source tree.
    Each is given by the componentwise formula that its name and its use in
    the solver call for. *)

(** Modelled from the spec: the constant [b2Vec2_zero]. *)
Definition b2Vec2_zero : b2Vec2 := {| x := 0; y := 0 |}.

(** Modelled from the spec: the identity rotation, cosine 1 and sine 0. *)
Definition b2Rot_identity : b2Rot := {| c := 1; s := 0 |}.

(** Modelled from the spec: [b2Add], the sum [a + b]. *)
Definition b2Add (a b : b2Vec2) : b2Vec2 := {| x := x a + x b; y := y a + y b |}.

(** Modelled from the spec: [b2Sub], the difference [a - b]. *)
Definition b2Sub (a b : b2Vec2) : b2Vec2 := {| x := x a - x b; y := y a - y b |}.

(** Modelled from the spec: [b2MulSV], the scalar multiple [k * v]. *)
Definition b2MulSV (k : F) (v : b2Vec2) : b2Vec2 := {| x := k * x v; y := k * y v |}.

(** Modelled from the spec: [b2MulAdd], [a + k * b]. *)
Definition b2MulAdd (a : b2Vec2) (k : F) (b : b2Vec2) : b2Vec2 :=
  {| x := x a + k * x b; y := y a + k * y b |}.

(** Modelled from the spec: [b2MulSub], [a - k * b]. *)
Definition b2MulSub (a : b2Vec2) (k : F) (b : b2Vec2) : b2Vec2 :=
  {| x := x a - k * x b; y := y a - k * y b |}.

(** Modelled from the spec: [b2Cross], the scalar cross product of two
    vectors. *)
Definition b2Cross (a b : b2Vec2) : F := x a * y b - y a * x b.

(** Modelled from the spec: [b2CrossSV], the cross product of a scalar
    (an angular velocity) and a vector: [w k % (rx i + ry j) = w * (-ry i +
    rx j)], the identity quoted at the top of [weld_joint.c]. *)
Definition b2CrossSV (k : F) (v : b2Vec2) : b2Vec2 := {| x := - k * y v; y := k * x v |}.

(** Modelled from the spec: [b2RotateVector], the vector [v] rotated by
    [r]. *)
Definition b2RotateVector (r : b2Rot) (v : b2Vec2) : b2Vec2 :=
  {| x := c r * x v - s r * y v; y := s r * x v + c r * y v |}.

(** Modelled from the spec: [b2MulRot], the composition of two rotations. *)
Definition b2MulRot (a b : b2Rot) : b2Rot :=
  {| c := c a * c b - s a * s b; s := s a * c b + c a * s b |}.

(** Modelled from the spec: [b2InvMulRot], the rotation [b] relative to
    [a]. *)
Definition b2InvMulRot (a b : b2Rot) : b2Rot :=
  {| c := c a * c b + s a * s b; s := c a * s b - s a * c b |}.

(** Modelled from the spec: [b2IsValidFloat] of [math_functions.c] (not part
    of this source tree): a float is valid when it is neither NaN nor
    infinite. *)
Definition b2IsValidFloat (a : F) : bool :=
  if f_isnan a then false else if f_isinf a then false else true.

(** Modelled from the spec: the constant [b2_identityBodyState] of
    [solver.h]: zero velocities, zero displacement, identity rotation. *)
Definition b2_identityBodyState : b2BodyState :=
  {| linearVelocity := b2Vec2_zero; angularVelocity := 0; flags := 0%Z;
     deltaPosition := b2Vec2_zero; deltaRotation := b2Rot_identity |}.

(** Functions of headers that are not part of this source tree and on which
    no property below depends: the soft-constraint coefficients
    [b2MakeSoft], the 2-by-2 solve [b2Solve22] and the angle of a rotation
    [b2Rot_GetAngle].  The embedding takes them as parameters. *)
Class SolverMath : Type := {
  b2MakeSoft : F -> F -> F -> b2Softness;
  b2Solve22 : b2Mat22 -> b2Vec2 -> b2Vec2;
  b2Rot_GetAngle : b2Rot -> F
}.

End Embedding.

Arguments b2Vec2 F : clear implicits.
Arguments b2Rot F : clear implicits.
Arguments b2Transform F : clear implicits.
Arguments b2Mat22 F : clear implicits.
Arguments b2Softness F : clear implicits.
Arguments b2BodyState F : clear implicits.
Arguments b2WeldJoint F : clear implicits.
Arguments b2JointSim F : clear implicits.
Arguments b2BodySim F : clear implicits.
Arguments b2SolverSet F : clear implicits.
Arguments b2World F : clear implicits.
Arguments b2StepContext F : clear implicits.
Arguments SolverMath F : clear implicits.

(** ** The weld joint ([weld_joint.c]) *)

Section WeldJoint.

Context {F : Type} `{Scalar F} {SM : SolverMath F}.
Local Open Scope fl_scope.

(** Whether [B2_ASSERT] is compiled in (a debug build) or expands to
    nothing (a release build). *)
Variable asserts : bool.

(** Modelled from the spec: the macro [B2_ASSERT] of [core.h], which is not
    part of this source tree.  "Assertions guard invariants in debug builds
    only": when compiled in, a false condition stops the call; when compiled
    out, the condition is not evaluated and the call goes on. *)
Definition B2_ASSERT (cond : bool) : Outcome unit :=
  if asserts && negb cond then AssertFailed else Ok tt.

(** Modelled from the spec: the accessors [b2BodyArray_Get],
    [b2SolverSetArray_Get] and [b2BodySimArray_Get] that [array.h] (not part
    of this source tree) generates: the index is asserted to be within the
    array, then the element is returned. *)
Definition b2Array_Get {A : Type} (a : list A) (index : Z) : Outcome A :=
  B2_ASSERT ((0 <=? index)%Z && (index <? Z.of_nat (length a))%Z) ;;;
  if (index <? 0)%Z then Undefined
  else match a !! Z.to_nat index with
       | Some v => Ok v
       | None => Undefined
       end.

(** Modelled from the spec: [b2GetJointSimCheckType] of [joint.c] (not part
    of this source tree): the joint simulation record a joint id names, its
    type asserted.  Ids are indices into the joint records here. *)
Definition b2GetJointSimCheckType (joints : list (b2JointSim F)) (jointId : Z)
    (ty : b2JointType) : Outcome (b2JointSim F) :=
  joint <- b2Array_Get joints jointId ;;
  B2_ASSERT (b2JointType_eqb (type joint) ty) ;;;
  Ok joint.

(** The write [joint->weldJoint = w] through the pointer the lookup
    returned. *)
Definition writeWeld (joints : list (b2JointSim F)) (jointId : Z) (joint : b2JointSim F)
    (w : b2WeldJoint F) : list (b2JointSim F) :=
  <[Z.to_nat jointId := set_weldJoint joint w]> joints.

Definition b2WeldJoint_SetLinearHertz (joints : list (b2JointSim F)) (jointId : Z)
    (hertz : F) : Outcome (list (b2JointSim F)) :=
  B2_ASSERT (b2IsValidFloat hertz && (hertz >=? 0)) ;;;
  joint <- b2GetJointSimCheckType joints jointId b2_weldJoint ;;
  Ok (writeWeld joints jointId joint (set_linearHertz (weldJoint joint) hertz)).

Definition b2WeldJoint_GetLinearHertz (joints : list (b2JointSim F)) (jointId : Z)
    : Outcome F :=
  joint <- b2GetJointSimCheckType joints jointId b2_weldJoint ;;
  Ok (linearHertz (weldJoint joint)).

Definition b2WeldJoint_SetLinearDampingRatio (joints : list (b2JointSim F)) (jointId : Z)
    (dampingRatio : F) : Outcome (list (b2JointSim F)) :=
  B2_ASSERT (b2IsValidFloat dampingRatio && (dampingRatio >=? 0)) ;;;
  joint <- b2GetJointSimCheckType joints jointId b2_weldJoint ;;
  Ok (writeWeld joints jointId joint (set_linearDampingRatio (weldJoint joint) dampingRatio)).

Definition b2WeldJoint_GetLinearDampingRatio (joints : list (b2JointSim F)) (jointId : Z)
    : Outcome F :=
  joint <- b2GetJointSimCheckType joints jointId b2_weldJoint ;;
  Ok (linearDampingRatio (weldJoint joint)).

Definition b2WeldJoint_SetAngularHertz (joints : list (b2JointSim F)) (jointId : Z)
    (hertz : F) : Outcome (list (b2JointSim F)) :=
  B2_ASSERT (b2IsValidFloat hertz && (hertz >=? 0)) ;;;
  joint <- b2GetJointSimCheckType joints jointId b2_weldJoint ;;
  Ok (writeWeld joints jointId joint (set_angularHertz (weldJoint joint) hertz)).

Definition b2WeldJoint_GetAngularHertz (joints : list (b2JointSim F)) (jointId : Z)
    : Outcome F :=
  joint <- b2GetJointSimCheckType joints jointId b2_weldJoint ;;
  Ok (angularHertz (weldJoint joint)).

Definition b2WeldJoint_SetAngularDampingRatio (joints : list (b2JointSim F)) (jointId : Z)
    (dampingRatio : F) : Outcome (list (b2JointSim F)) :=
  B2_ASSERT (b2IsValidFloat dampingRatio && (dampingRatio >=? 0)) ;;;
  joint <- b2GetJointSimCheckType joints jointId b2_weldJoint ;;
  Ok (writeWeld joints jointId joint (set_angularDampingRatio (weldJoint joint) dampingRatio)).

Definition b2WeldJoint_GetAngularDampingRatio (joints : list (b2JointSim F)) (jointId : Z)
    : Outcome F :=
  joint <- b2GetJointSimCheckType joints jointId b2_weldJoint ;;
  Ok (angularDampingRatio (weldJoint joint)).

Definition b2GetWeldJointForce (world : b2World F) (base : b2JointSim F) : b2Vec2 F :=
  let force := b2MulSV (inv_h world) (linearImpulse (weldJoint base)) in
  force.

Definition b2GetWeldJointTorque (world : b2World F) (base : b2JointSim F) : F :=
  inv_h world * angularImpulse (weldJoint base).

Definition b2PrepareWeldJoint (base : b2JointSim F) (context : b2StepContext F)
    : Outcome (b2JointSim F) :=
  B2_ASSERT (b2JointType_eqb (type base) b2_weldJoint) ;;;
  (* chase body id to the solver set where the body lives *)
  let idA := bodyIdA base in
  let idB := bodyIdB base in
  let world := world context in
  bodyA <- b2Array_Get (bodies world) idA ;;
  bodyB <- b2Array_Get (bodies world) idB ;;
  B2_ASSERT ((setIndex bodyA =? b2_awakeSet)%Z || (setIndex bodyB =? b2_awakeSet)%Z) ;;;
  setA <- b2Array_Get (solverSets world) (setIndex bodyA) ;;
  setB <- b2Array_Get (solverSets world) (setIndex bodyB) ;;
  let localIndexA := localIndex bodyA in
  let localIndexB := localIndex bodyB in
  bodySimA <- b2Array_Get (bodySims setA) localIndexA ;;
  bodySimB <- b2Array_Get (bodySims setB) localIndexB ;;
  let mA := invMass bodySimA in
  let iA := invInertia bodySimA in
  let mB := invMass bodySimB in
  let iB := invInertia bodySimB in
  let joint := weldJoint base in
  let ka := iA + iB in
  let joint :=
    {| linearHertz := linearHertz joint;
       linearDampingRatio := linearDampingRatio joint;
       angularHertz := angularHertz joint;
       angularDampingRatio := angularDampingRatio joint;
       linearSpring :=
         if linearHertz joint =? 0 then constraintSoftness base
         else b2MakeSoft (linearHertz joint) (linearDampingRatio joint) (h context);
       angularSpring :=
         if angularHertz joint =? 0 then constraintSoftness base
         else b2MakeSoft (angularHertz joint) (angularDampingRatio joint) (h context);
       linearImpulse := linearImpulse joint;
       angularImpulse := angularImpulse joint;
       indexA := if (setIndex bodyA =? b2_awakeSet)%Z then localIndexA else B2_NULL_INDEX;
       indexB := if (setIndex bodyB =? b2_awakeSet)%Z then localIndexB else B2_NULL_INDEX;
       (* joint anchor frames with world space rotation, relative to center of mass *)
       frameA :=
         {| p := b2RotateVector (q (transform bodySimA))
                   (b2Sub (p (localFrameA base)) (localCenter bodySimA));
            q := b2MulRot (q (transform bodySimA)) (q (localFrameA base)) |};
       frameB :=
         {| p := b2RotateVector (q (transform bodySimB))
                   (b2Sub (p (localFrameB base)) (localCenter bodySimB));
            q := b2MulRot (q (transform bodySimB)) (q (localFrameB base)) |};
       (* the initial center delta *)
       deltaCenter := b2Sub (center bodySimB) (center bodySimA);
       axialMass := if ka >? 0 then 1 / ka else 0 |} in
  let joint :=
    if Bool.eqb (enableWarmStarting context) false
    then set_impulses joint b2Vec2_zero 0
    else joint in
  Ok {| type := type base; bodyIdA := bodyIdA base; bodyIdB := bodyIdB base;
        localFrameA := localFrameA base; localFrameB := localFrameB base;
        invMassA := mA; invMassB := mB; invIA := iA; invIB := iB;
        constraintSoftness := constraintSoftness base;
        weldJoint := joint |}.

(** *** The two places a [b2BodyState*] of the solver can point to

    [stateA] and [stateB] point either to the local [dummyState] or into
    [context->states].  Both may point to the same object, so reads and
    writes go through a small store. *)
Inductive StateRef : Type :=
  | DummyState
  | StateSlot (i : nat).

Record SolverFrame : Type := {
  dummyState : b2BodyState F;
  stateArray : list (b2BodyState F)
}.

(** [index == B2_NULL_INDEX ? &dummyState : context->states + index] *)
Definition stateRef (index : Z) : Outcome StateRef :=
  if (index =? B2_NULL_INDEX)%Z then Ok DummyState
  else if (index <? 0)%Z then Undefined
  else Ok (StateSlot (Z.to_nat index)).

Definition load (m : SolverFrame) (r : StateRef) : Outcome (b2BodyState F) :=
  match r with
  | DummyState => Ok (dummyState m)
  | StateSlot i =>
      match stateArray m !! i with
      | Some st => Ok st
      | None => Undefined
      end
  end.

Definition store (m : SolverFrame) (r : StateRef) (st : b2BodyState F) : SolverFrame :=
  match r with
  | DummyState => {| dummyState := st; stateArray := stateArray m |}
  | StateSlot i => {| dummyState := dummyState m; stateArray := <[i := st]> (stateArray m) |}
  end.

(** A read-modify-write of the object behind [r]. *)
Definition update (m : SolverFrame) (r : StateRef) (f : b2BodyState F -> b2BodyState F)
    : Outcome SolverFrame :=
  st <- load m r ;;
  Ok (store m r (f st)).

Definition b2WarmStartWeldJoint (base : b2JointSim F) (context : b2StepContext F)
    : Outcome (b2StepContext F) :=
  let mA := invMassA base in
  let mB := invMassB base in
  let iA := invIA base in
  let iB := invIB base in
  (* dummy state for static bodies *)
  let m := {| dummyState := b2_identityBodyState; stateArray := states context |} in
  let joint := weldJoint base in
  stateA <- stateRef (indexA joint) ;;
  stateB <- stateRef (indexB joint) ;;
  a <- load m stateA ;;
  b <- load m stateB ;;
  let rA := b2RotateVector (deltaRotation a) (p (frameA joint)) in
  let rB := b2RotateVector (deltaRotation b) (p (frameB joint)) in
  m <- update m stateA (fun st =>
         set_linearVelocity st (b2MulSub (linearVelocity st) mA (linearImpulse joint))) ;;
  m <- update m stateA (fun st =>
         set_angularVelocity st
           (angularVelocity st - iA * (b2Cross rA (linearImpulse joint) + angularImpulse joint))) ;;
  m <- update m stateB (fun st =>
         set_linearVelocity st (b2MulAdd (linearVelocity st) mB (linearImpulse joint))) ;;
  m <- update m stateB (fun st =>
         set_angularVelocity st
           (angularVelocity st + iB * (b2Cross rB (linearImpulse joint) + angularImpulse joint))) ;;
  Ok (set_states context (stateArray m)).

(** The impulse of the angular row of [b2SolveWeldJoint]. *)
Definition weldAngularImpulse (joint : b2WeldJoint F) (useBias : bool)
    (a b : b2BodyState F) (wA wB : F) : F :=
  let qA := b2MulRot (deltaRotation a) (q (frameA joint)) in
  let qB := b2MulRot (deltaRotation b) (q (frameB joint)) in
  let relQ := b2InvMulRot qA qB in
  let jointAngle := b2Rot_GetAngle relQ in
  let '(bias, massScale, impulseScale) :=
    if useBias || (angularHertz joint >? 0)
    then (let C := jointAngle in
          (biasRate (angularSpring joint) * C,
           massScale (angularSpring joint),
           impulseScale (angularSpring joint)))
    else (0, 1, 0) in
  let Cdot := wB - wA in
  - massScale * axialMass joint * (Cdot + bias) - impulseScale * angularImpulse joint.

(** The impulse of the linear rows of [b2SolveWeldJoint]. *)
Definition weldLinearImpulse (joint : b2WeldJoint F) (useBias : bool)
    (mA mB iA iB : F) (a b : b2BodyState F) (vA : b2Vec2 F) (wA : F) (vB : b2Vec2 F) (wB : F)
    : b2Vec2 F :=
  let rA := b2RotateVector (deltaRotation a) (p (frameA joint)) in
  let rB := b2RotateVector (deltaRotation b) (p (frameB joint)) in
  let '(bias, massScale, impulseScale) :=
    if useBias || (linearHertz joint >? 0)
    then (let dcA := deltaPosition a in
          let dcB := deltaPosition b in
          let C := b2Add (b2Add (b2Sub dcB dcA) (b2Sub rB rA)) (deltaCenter joint) in
          (b2MulSV (biasRate (linearSpring joint)) C,
           massScale (linearSpring joint),
           impulseScale (linearSpring joint)))
    else (b2Vec2_zero, 1, 0) in
  let Cdot := b2Sub (b2Add vB (b2CrossSV wB rB)) (b2Add vA (b2CrossSV wA rA)) in
  let K :=
    {| cx := {| x := mA + mB + y rA * y rA * iA + y rB * y rB * iB;
                y := - y rA * x rA * iA - y rB * x rB * iB |};
       cy := {| x := - y rA * x rA * iA - y rB * x rB * iB;
                y := mA + mB + x rA * x rA * iA + x rB * x rB * iB |} |} in
  let b := b2Solve22 K (b2Add Cdot bias) in
  {| x := - massScale * x b - impulseScale * x (linearImpulse joint);
     y := - massScale * y b - impulseScale * y (linearImpulse joint) |}.

Definition b2SolveWeldJoint (base : b2JointSim F) (context : b2StepContext F) (useBias : bool)
    : Outcome (b2JointSim F * b2StepContext F) :=
  B2_ASSERT (b2JointType_eqb (type base) b2_weldJoint) ;;;
  let mA := invMassA base in
  let mB := invMassB base in
  let iA := invIA base in
  let iB := invIB base in
  (* dummy state for static bodies *)
  let m := {| dummyState := b2_identityBodyState; stateArray := states context |} in
  let joint := weldJoint base in
  stateA <- stateRef (indexA joint) ;;
  stateB <- stateRef (indexB joint) ;;
  a <- load m stateA ;;
  b <- load m stateB ;;
  let vA := linearVelocity a in
  let wA := angularVelocity a in
  let vB := linearVelocity b in
  let wB := angularVelocity b in
  (* angular constraint *)
  let impulse := weldAngularImpulse joint useBias a b wA wB in
  let joint := set_impulses joint (linearImpulse joint) (angularImpulse joint + impulse) in
  let wA := wA - iA * impulse in
  let wB := wB + iB * impulse in
  (* linear constraint *)
  let rA := b2RotateVector (deltaRotation a) (p (frameA joint)) in
  let rB := b2RotateVector (deltaRotation b) (p (frameB joint)) in
  let impulse := weldLinearImpulse joint useBias mA mB iA iB a b vA wA vB wB in
  let joint := set_impulses joint (b2Add (linearImpulse joint) impulse) (angularImpulse joint) in
  let vA := b2MulSub vA mA impulse in
  let wA := wA - iA * b2Cross rA impulse in
  let vB := b2MulAdd vB mB impulse in
  let wB := wB + iB * b2Cross rB impulse in
  m <- update m stateA (fun st => set_linearVelocity st vA) ;;
  m <- update m stateA (fun st => set_angularVelocity st wA) ;;
  m <- update m stateB (fun st => set_linearVelocity st vB) ;;
  m <- update m stateB (fun st => set_angularVelocity st wB) ;;
  Ok (set_weldJoint base joint, set_states context (stateArray m)).

End WeldJoint.

(** ** End-touch event buffers of the world *)

Section EndEvents.

Context {F : Type}.

(** Element [i] of a two-element array. *)
Definition bufferAt {A : Type} (a : list A * list A) (i : Z) : list A :=
  if (i =? 0)%Z then fst a else snd a.

Definition setBufferAt {A : Type} (a : list A * list A) (i : Z) (l : list A)
    : list A * list A :=
  if (i =? 0)%Z then (l, snd a) else (fst a, l).

Definition set_endEvents (w : b2World F)
    (se : list b2SensorEndTouchEvent * list b2SensorEndTouchEvent)
    (ce : list b2ContactEndTouchEvent * list b2ContactEndTouchEvent)
    (i : Z) : b2World F :=
  {| bodies := bodies w; solverSets := solverSets w;
     sensorEndEvents := se; contactEndEvents := ce;
     endEventArrayIndex := i; inv_h := inv_h w |}.

(** Modelled from the spec: the recording of an end-touch event
    ([physics_world.c] and the code that ends touches are not part of this
    source tree; the header declares the two buffers of each kind and
    [endEventArrayIndex] and says "End events are double buffered so that
    the user doesn't need to flush events").  The event is appended to the
    buffer that is being filled, the one at [endEventArrayIndex]. *)
Definition b2PushSensorEndEvent (w : b2World F) (e : b2SensorEndTouchEvent) : b2World F :=
  let i := endEventArrayIndex w in
  set_endEvents w
    (setBufferAt (sensorEndEvents w) i (bufferAt (sensorEndEvents w) i ++ [e]))
    (contactEndEvents w) i.

(** Modelled from the spec: the same for a contact end-touch event. *)
Definition b2PushContactEndEvent (w : b2World F) (e : b2ContactEndTouchEvent) : b2World F :=
  let i := endEventArrayIndex w in
  set_endEvents w
    (sensorEndEvents w)
    (setBufferAt (contactEndEvents w) i (bufferAt (contactEndEvents w) i ++ [e])) i.

(** Modelled from the spec: the part of a world step that records the
    end-touch events the step generates, in the order it generates them. *)
Definition b2RecordEndEvents (w : b2World F)
    (sensorEnds : list b2SensorEndTouchEvent)
    (contactEnds : list b2ContactEndTouchEvent) : b2World F :=
  let w := fold_left b2PushSensorEndEvent sensorEnds w in
  fold_left b2PushContactEndEvent contactEnds w.

(** Modelled from the spec: the exchange of the two buffers that ends a
    step: the buffer that was being filled becomes the exposed one, and the
    other is emptied to be filled from now on. *)
Definition b2SwapEndEvents (w : b2World F) : b2World F :=
  let i := (1 - endEventArrayIndex w)%Z in
  set_endEvents w
    (setBufferAt (sensorEndEvents w) i [])
    (setBufferAt (contactEndEvents w) i [])
    i.

(** Modelled from the spec: what a world step does to the end-event
    buffers, given the end-touch events the step generates, in order: it
    records them, then exchanges the buffers. *)
Definition b2World_StepEndEvents (w : b2World F)
    (sensorEnds : list b2SensorEndTouchEvent)
    (contactEnds : list b2ContactEndTouchEvent) : b2World F :=
  b2SwapEndEvents (b2RecordEndEvents w sensorEnds contactEnds).

(** Modelled from the spec: a run of world steps, one after the other, each
    given by the end-touch events it generates. *)
Definition b2World_StepsEndEvents (w : b2World F)
    (history : list (list b2SensorEndTouchEvent * list b2ContactEndTouchEvent))
    : b2World F :=
  fold_left (fun w ends => b2World_StepEndEvents w (fst ends) (snd ends)) history w.

(** Modelled from the spec: the arrays exposed to the user: the buffers that
    are not being filled. *)
Definition b2World_GetSensorEndEvents (w : b2World F) : list b2SensorEndTouchEvent :=
  bufferAt (sensorEndEvents w) (1 - endEventArrayIndex w).

(** Modelled from the spec: the same for the contact end events. *)
Definition b2World_GetContactEndEvents (w : b2World F) : list b2ContactEndTouchEvent :=
  bufferAt (contactEndEvents w) (1 - endEventArrayIndex w).

(** The buffers being filled are empty, as they are in a world just created
    and after every step; [endEventArrayIndex] names one of the two. *)
Definition endBuffersFresh (w : b2World F) : Prop :=
  (endEventArrayIndex w = 0 \/ endEventArrayIndex w = 1)%Z
  /\ bufferAt (sensorEndEvents w) (endEventArrayIndex w) = []
  /\ bufferAt (contactEndEvents w) (endEventArrayIndex w) = [].

End EndEvents.

(** ** Constraint graph colouring *)

Section ConstraintGraph.

(** Which bodies are dynamic; static and kinematic bodies are not recorded
    in the colouring. *)
Variable isDynamic : nat -> bool.

(** Modelled from the spec: the number of colours of the graph ("default
    <= 24"; [b2Counters] in [types.h] has [colorCounts[24]]).
    [constraint_graph.h] is not part of this source tree. *)
Definition B2_GRAPH_COLOR_COUNT : nat := 24.

(** Modelled from the spec: a constraint of the awake set, a contact or a
    joint, by its id and the two bodies it connects. *)
Record b2Constraint : Type := { constraintId : Z; bodyA : nat; bodyB : nat }.

(** Modelled from the spec: the constraint graph of section 4.5: the
    constraints of each colour, the overflow colour, and for every body the
    bitmask of the colours in which it is represented. *)
Record b2ConstraintGraph : Type := {
  colors : list (list b2Constraint);
  overflow : list b2Constraint;
  bodyColors : gmap nat Z
}.

(** Modelled from the spec: the graph before any constraint is active. *)
Definition b2CreateGraph : b2ConstraintGraph :=
  {| colors := replicate B2_GRAPH_COLOR_COUNT []; overflow := []; bodyColors := ∅ |}.

(** The colour bitmask of a body; a body never recorded has mask 0. *)
Definition bodyMask (g : b2ConstraintGraph) (body : nat) : Z :=
  default 0%Z (bodyColors g !! body).

(** Body [body] does not block colour [i]: it is not dynamic, or its mask
    has bit [i] clear. *)
Definition colorFree (g : b2ConstraintGraph) (body : nat) (i : nat) : bool :=
  negb (isDynamic body) || negb (Z.testbit (bodyMask g body) (Z.of_nat i)).

(** The lowest colour index from [i] on, among the next [n], where neither
    body is represented. *)
Fixpoint findColor (g : b2ConstraintGraph) (a b : nat) (i n : nat) : option nat :=
  match n with
  | O => None
  | S n' =>
      if colorFree g a i && colorFree g b i then Some i
      else findColor g a b (S i) n'
  end.

(** Recording a body in colour [i]: only dynamic bodies are recorded. *)
Definition markBody (m : gmap nat Z) (body : nat) (i : nat) : gmap nat Z :=
  if isDynamic body
  then <[body := Z.lor (default 0%Z (m !! body)) (Z.shiftl 1 (Z.of_nat i))]> m
  else m.

(** Modelled from the spec: greedy assignment.  "When a constraint becomes
    active, scan its two bodies' per-body color-bitmasks and pick the lowest
    color index where neither body is yet represented; if no color has
    space, place the constraint in an overflow color." *)
Definition b2AddConstraintToGraph (g : b2ConstraintGraph) (k : b2Constraint)
    : b2ConstraintGraph :=
  match findColor g (bodyA k) (bodyB k) 0 B2_GRAPH_COLOR_COUNT with
  | Some i =>
      {| colors := alter (cons k) i (colors g);
         overflow := overflow g;
         bodyColors := markBody (markBody (bodyColors g) (bodyA k) i) (bodyB k) i |}
  | None =>
      {| colors := colors g; overflow := k :: overflow g; bodyColors := bodyColors g |}
  end.

(** Two constraints share a dynamic body. *)
Definition shareDynamicBody (k1 k2 : b2Constraint) : bool :=
  (isDynamic (bodyA k1) && (Nat.eqb (bodyA k1) (bodyA k2) || Nat.eqb (bodyA k1) (bodyB k2)))
  || (isDynamic (bodyB k1) && (Nat.eqb (bodyB k1) (bodyA k2) || Nat.eqb (bodyB k1) (bodyB k2))).

(** Within every colour, no two constraints share a dynamic body. *)
Definition colorsIndependent (g : b2ConstraintGraph) : Prop :=
  forall (i : nat) (col : list b2Constraint) (j1 j2 : nat) (k1 k2 : b2Constraint),
    colors g !! i = Some col -> col !! j1 = Some k1 -> col !! j2 = Some k2 ->
    j1 <> j2 -> shareDynamicBody k1 k2 = false.

(** The per-body bitmasks cover the colours: a dynamic body of a
    constraint of colour [i] has bit [i] of its mask set. *)
Definition masksCoverColors (g : b2ConstraintGraph) : Prop :=
  forall (i : nat) (col : list b2Constraint) (k : b2Constraint),
    colors g !! i = Some col -> k ∈ col ->
    (isDynamic (bodyA k) = true -> Z.testbit (bodyMask g (bodyA k)) (Z.of_nat i) = true)
    /\ (isDynamic (bodyB k) = true -> Z.testbit (bodyMask g (bodyB k)) (Z.of_nat i) = true).

End ConstraintGraph.

(** ** The query callbacks of the collision sample ([sample_collision.cpp]) *)

Module CollisionSample.

(** [struct ShapeUserData]: "This shows how to filter a specific shape
    using using data." *)
Record ShapeUserData : Type := { index : Z; ignore : bool }.

(** An array of three elements, [T a[3]], as the members of
    [CastContext] are. *)
Record Array3 (A : Type) : Type := { at0 : A; at1 : A; at2 : A }.

(** [a[i]]; an index outside the array is undefined behaviour. *)
Definition array3_get {A : Type} (a : Array3 A) (i : Z) : Outcome A :=
  if (i =? 0)%Z then Ok (at0 a)
  else if (i =? 1)%Z then Ok (at1 a)
  else if (i =? 2)%Z then Ok (at2 a)
  else Undefined.

(** [a[i] = v] *)
Definition array3_set {A : Type} (a : Array3 A) (i : Z) (v : A) : Outcome (Array3 A) :=
  if (i =? 0)%Z then Ok {| at0 := v; at1 := at1 a; at2 := at2 a |}
  else if (i =? 1)%Z then Ok {| at0 := at0 a; at1 := v; at2 := at2 a |}
  else if (i =? 2)%Z then Ok {| at0 := at0 a; at1 := at1 a; at2 := v |}
  else Undefined.

(** [a[i] = v] on an array of any size. *)
Definition array_set {A : Type} (a : list A) (i : Z) (v : A) : Outcome (list A) :=
  if ((0 <=? i)%Z && (i <? Z.of_nat (length a))%Z) then Ok (<[Z.to_nat i := v]> a)
  else Undefined.

Section Callbacks.

Context {F : Type} `{Scalar F}.
Local Open Scope fl_scope.

(** [struct CastContext]: "Context for ray cast callbacks. Do what you
    want with this." *)
Record CastContext : Type := {
  points : Array3 (b2Vec2 F);
  normals : Array3 (b2Vec2 F);
  fractions : Array3 F;
  count : Z
}.

(** Whether [assert] is compiled in, or compiled out by [NDEBUG]. *)
Variable asserts : bool.

(** The macro [assert] of the C library: when compiled in, a false
    condition stops the call; when compiled out, the call goes on. *)
Definition c_assert (cond : bool) : Outcome unit :=
  if asserts && negb cond then AssertFailed else Ok tt.

(** The user data of the shapes: what [shapeDef.userData] pointed to when
    a shape was created.  A shape created without user data is not in the
    map. *)
Variable shapeUserData : gmap Z ShapeUserData.

(** Modelled from the spec: [b2Shape_GetUserData] of [shape.c] (not part of
    this source tree): the user data pointer of the shape, null when it has
    none. *)
Definition b2Shape_GetUserData (shapeId : Z) : option ShapeUserData :=
  shapeUserData !! shapeId.

(** [RayCastClosestCallback]: "This callback finds the closest hit."  The
    result is the value returned and the context as the call leaves it. *)
Definition RayCastClosestCallback (shapeId : Z) (point normal : b2Vec2 F) (fraction : F)
    (rayContext : CastContext) : Outcome (F * CastContext) :=
  let userData := b2Shape_GetUserData shapeId in
  (* Ignore a specific shape. Also ignore initial overlap. *)
  if match userData with Some u => ignore u | None => false end || (fraction =? 0)
  then Ok (f_neg 1, rayContext)
  else
    ps <- array3_set (points rayContext) 0 point ;;
    ns <- array3_set (normals rayContext) 0 normal ;;
    fs <- array3_set (fractions rayContext) 0 fraction ;;
    Ok (fraction, {| points := ps; normals := ns; fractions := fs; count := 1 |}).

(** [RayCastAnyCallback]: "This callback finds any hit." *)
Definition RayCastAnyCallback (shapeId : Z) (point normal : b2Vec2 F) (fraction : F)
    (rayContext : CastContext) : Outcome (F * CastContext) :=
  let userData := b2Shape_GetUserData shapeId in
  if match userData with Some u => ignore u | None => false end || (fraction =? 0)
  then Ok (f_neg 1, rayContext)
  else
    ps <- array3_set (points rayContext) 0 point ;;
    ns <- array3_set (normals rayContext) 0 normal ;;
    fs <- array3_set (fractions rayContext) 0 fraction ;;
    Ok (0, {| points := ps; normals := ns; fractions := fs; count := 1 |}).

(** [RayCastMultipleCallback]: "This ray cast collects multiple hits along
    the ray."  The local [count] of the source is [count0] here. *)
Definition RayCastMultipleCallback (shapeId : Z) (point normal : b2Vec2 F) (fraction : F)
    (rayContext : CastContext) : Outcome (F * CastContext) :=
  let userData := b2Shape_GetUserData shapeId in
  if match userData with Some u => ignore u | None => false end || (fraction =? 0)
  then Ok (f_neg 1, rayContext)
  else
    let count0 := count rayContext in
    c_assert (count0 <? 3)%Z ;;;
    ps <- array3_set (points rayContext) count0 point ;;
    ns <- array3_set (normals rayContext) count0 normal ;;
    fs <- array3_set (fractions rayContext) count0 fraction ;;
    let rayContext :=
      {| points := ps; normals := ns; fractions := fs; count := (count0 + 1)%Z |} in
    if (count rayContext =? 3)%Z
    then Ok (0, rayContext)   (* the buffer is full: terminate the ray cast *)
    else Ok (1, rayContext).  (* continue without clipping the ray *)

(** The loop [while ( fraction < rayContext->fractions[index - 1] )] of
    [RayCastSortedCallback], entered with [index]: the value of [index]
    when the loop is left. *)
Fixpoint sortedIndex (fraction : F) (fr : Array3 F) (index : nat) : Outcome Z :=
  match index with
  | O => Undefined
  | S i =>
      f <- array3_get fr (Z.of_nat i) ;;
      if fraction <? f
      then match i with
           | O => Ok 0%Z  (* index == 0: break *)
           | S _ => sortedIndex fraction fr i
           end
      else Ok (Z.of_nat (S i))
  end.

(** The loop [for ( int j = 2; j > index; --j )] of
    [RayCastSortedCallback], entered with [j]. *)
Fixpoint sortedShift (rayContext : CastContext) (index : Z) (j : nat) : Outcome CastContext :=
  match j with
  | O => if (index <? 0)%Z then Undefined else Ok rayContext
  | S j' =>
      if (index <? Z.of_nat j)%Z
      then
        pt <- array3_get (points rayContext) (Z.of_nat j') ;;
        ps <- array3_set (points rayContext) (Z.of_nat j) pt ;;
        n <- array3_get (normals rayContext) (Z.of_nat j') ;;
        ns <- array3_set (normals rayContext) (Z.of_nat j) n ;;
        f <- array3_get (fractions rayContext) (Z.of_nat j') ;;
        fs <- array3_set (fractions rayContext) (Z.of_nat j) f ;;
        sortedShift {| points := ps; normals := ns; fractions := fs;
                       count := count rayContext |} index j'
      else Ok rayContext
  end.

(** [RayCastSortedCallback]: "This ray cast collects multiple hits along
    the ray and sorts them." *)
Definition RayCastSortedCallback (shapeId : Z) (point normal : b2Vec2 F) (fraction : F)
    (rayContext : CastContext) : Outcome (F * CastContext) :=
  let userData := b2Shape_GetUserData shapeId in
  if match userData with Some u => ignore u | None => false end || (fraction =? 0)
  then Ok (f_neg 1, rayContext)
  else
    let count0 := count rayContext in
    c_assert (count0 <=? 3)%Z ;;;
    index <- sortedIndex fraction (fractions rayContext) 3 ;;
    if (index =? 3)%Z
    then
      (* not closer: the caller is told not to consider fractions further
         than the largest fraction acquired *)
      c_assert (count rayContext =? 3)%Z ;;;
      f2 <- array3_get (fractions rayContext) 2 ;;
      c_assert (f2 <=? 1) ;;;
      Ok (f2, rayContext)
    else
      rayContext <- sortedShift rayContext index 2 ;;
      ps <- array3_set (points rayContext) index point ;;
      ns <- array3_set (normals rayContext) index normal ;;
      fs <- array3_set (fractions rayContext) index fraction ;;
      let rayContext :=
        {| points := ps; normals := ns; fractions := fs;
           count := if (count0 <? 3)%Z then (count0 + 1)%Z else 3%Z |} in
      if (count rayContext =? 3)%Z
      then f2 <- array3_get (fractions rayContext) 2 ;; Ok (f2, rayContext)
      else Ok (1, rayContext).

(** The context [CastWorld::Step] hands to the cast: [CastContext context
    = {}], then "Must initialize fractions for sorting" with [FLT_MAX] in
    the three fractions. *)
Definition initialCastContext (FLT_MAX : F) : CastContext :=
  {| points := {| at0 := b2Vec2_zero; at1 := b2Vec2_zero; at2 := b2Vec2_zero |};
     normals := {| at0 := b2Vec2_zero; at1 := b2Vec2_zero; at2 := b2Vec2_zero |};
     fractions := {| at0 := FLT_MAX; at1 := FLT_MAX; at2 := FLT_MAX |};
     count := 0 |}.

(** The size of [m_doomIds] in [OverlapWorld]. *)
Definition e_maxDoomed : Z := 16.

(** The members of [OverlapWorld] its overlap callback uses:
    [b2ShapeId m_doomIds[e_maxDoomed]] and [int m_doomCount]. *)
Record OverlapWorld : Type := { m_doomIds : list Z; m_doomCount : Z }.

(** [OverlapWorld::OverlapResultFcn]: the result is the value returned and
    the sample as the call leaves it. *)
Definition OverlapResultFcn (shapeId : Z) (sample : OverlapWorld)
    : Outcome (bool * OverlapWorld) :=
  let userData := b2Shape_GetUserData shapeId in
  if match userData with Some u => ignore u | None => false end
  then Ok (true, sample)  (* continue the query *)
  else
    sample <-
      (if (m_doomCount sample <? e_maxDoomed)%Z
       then
         let index := m_doomCount sample in
         ids <- array_set (m_doomIds sample) index shapeId ;;
         Ok {| m_doomIds := ids; m_doomCount := (m_doomCount sample + 1)%Z |}
       else Ok sample) ;;
    Ok (true, sample).  (* continue the query *)

End Callbacks.

Arguments CastContext F : clear implicits.

End CollisionSample.

(** ** The two carriers *)

(** IEEE-754 binary32, the C type [float]: precision 24, maximal exponent
    128, round to nearest even. *)
Definition binary32 : Type := spec_float.

#[export] Instance binary32_Scalar : Scalar binary32 := {|
  f_zero := S754_zero false;
  f_one := SFone 24 128;
  f_add := SFadd 24 128;
  f_sub := SFsub 24 128;
  f_mul := SFmul 24 128;
  f_div := SFdiv 24 128;
  f_neg := SFopp;
  f_eqb := SFeqb;
  f_ltb := SFltb;
  f_leb := SFleb;
  f_isnan := fun a => match a with S754_nan => true | _ => false end;
  f_isinf := fun a => match a with S754_infinity _ => true | _ => false end
|}.

(** Exact rational arithmetic: no NaN, no infinity, no rounding. *)
#[export] Instance Qc_Scalar : Scalar Qc := {|
  f_zero := 0%Qc;
  f_one := 1%Qc;
  f_add := Qcplus;
  f_sub := Qcminus;
  f_mul := Qcmult;
  f_div := Qcdiv;
  f_neg := Qcopp;
  f_eqb := fun a b => Qeq_bool a b;
  f_ltb := fun a b => negb (Qle_bool b a);
  f_leb := fun a b => Qle_bool a b;
  f_isnan := fun _ => false;
  f_isinf := fun _ => false
|}.

(** A [SolverMath] for running examples on either carrier: rigid softness,
    Cramer's rule, and the small-angle value [s] for the angle. *)
Definition exampleMath {F : Type} `{Scalar F} : SolverMath F := {|
  b2MakeSoft := fun _ _ _ => {| biasRate := 0; massScale := 1; impulseScale := 0 |}%fl;
  b2Solve22 := fun A b =>
    (let det := x (cx A) * y (cy A) - x (cy A) * y (cx A) in
     let det := if det =? 0 then det else 1 / det in
     {| x := det * (y (cy A) * x b - x (cy A) * y b);
        y := det * (x (cx A) * y b - y (cx A) * x b) |})%fl;
  b2Rot_GetAngle := fun r => s r
|}.

(** ** A small world to run the embedding on

    Two awake bodies of mass 1 and 2 and one static body; a weld joint
    between two of them with stored impulses.  The data is built from
    [0], [1] and the arithmetic of the carrier, so it exists on both. *)

Section Examples.

Context {F : Type} `{Scalar F}.
Local Open Scope fl_scope.

Definition two : F := 1 + 1.
Definition half : F := 1 / two.

Definition exampleVec (a b : F) : b2Vec2 F := {| x := a; y := b |}.

Definition exampleSoftness : b2Softness F :=
  {| biasRate := 0; massScale := 1; impulseScale := 0 |}.

Definition exampleFrame (a b : F) : b2Transform F :=
  {| p := exampleVec a b; q := b2Rot_identity |}.

Definition exampleBodySim (im : F) (cx : F) : b2BodySim F :=
  {| transform := exampleFrame cx 0; center := exampleVec cx 0;
     localCenter := b2Vec2_zero; invMass := im; invInertia := im |}.

Definition exampleState (vx vy w : F) : b2BodyState F :=
  {| linearVelocity := exampleVec vx vy; angularVelocity := w; flags := 0%Z;
     deltaPosition := b2Vec2_zero; deltaRotation := b2Rot_identity |}.

(** Body 0 and body 1 are awake (slots 0 and 1 of the awake set), body 2
    is static. *)
Definition exampleWorld : b2World F :=
  {| bodies := [ {| setIndex := 2; localIndex := 0 |};
                 {| setIndex := 2; localIndex := 1 |};
                 {| setIndex := 0; localIndex := 0 |} ];
     solverSets := [ {| bodySims := [exampleBodySim 0 (two + two)] |};
                     {| bodySims := [] |};
                     {| bodySims := [exampleBodySim 1 0; exampleBodySim half two] |} ];
     sensorEndEvents := ([], []);
     contactEndEvents := ([], []);
     endEventArrayIndex := 0%Z;
     inv_h := two * two |}.

Definition exampleContext (warm : bool) : b2StepContext F :=
  {| world := exampleWorld; h := 1 / (two * two); enableWarmStarting := warm;
     states := [exampleState 1 two (two + 1); exampleState (f_neg 1) 0 1] |}.

Definition exampleWeld (iA iB : Z) : b2WeldJoint F :=
  {| linearHertz := 0; linearDampingRatio := 0;
     angularHertz := 0; angularDampingRatio := 0;
     linearSpring := exampleSoftness; angularSpring := exampleSoftness;
     linearImpulse := exampleVec 1 1; angularImpulse := two;
     indexA := iA; indexB := iB;
     frameA := exampleFrame 1 0; frameB := exampleFrame (f_neg 1) 0;
     deltaCenter := exampleVec two 0; axialMass := 1 |}.

(** A weld joint between bodies [idA] and [idB], with cached solver
    indices [iA] and [iB]. *)
Definition exampleJoint (idA idB iA iB : Z) : b2JointSim F :=
  {| type := b2_weldJoint; bodyIdA := idA; bodyIdB := idB;
     localFrameA := exampleFrame 1 0; localFrameB := exampleFrame (f_neg 1) 0;
     invMassA := 1; invMassB := half; invIA := 1; invIB := half;
     constraintSoftness := exampleSoftness;
     weldJoint := exampleWeld iA iB |}.





End Examples.

(** ** Vocabulary of the statements *)

Section Vocabulary.

Context {F : Type} `{Scalar F}.
Local Open Scope fl_scope.

(** A cached solver index is usable with a state array: it is
    [B2_NULL_INDEX] or names one of its slots. *)
Definition validIndex (l : list (b2BodyState F)) (index : Z) : Prop :=
  index = B2_NULL_INDEX \/ (0 <= index < Z.of_nat (length l))%Z.


(** What applying the stored impulses of [base] does to the state of
    body A, and to the state of body B. *)
Definition warmStartedA (base : b2JointSim F) (a : b2BodyState F) : b2BodyState F :=
  let joint := weldJoint base in
  let rA := b2RotateVector (deltaRotation a) (p (frameA joint)) in
  {| linearVelocity := b2MulSub (linearVelocity a) (invMassA base) (linearImpulse joint);
     angularVelocity :=
       angularVelocity a
       - invIA base * (b2Cross rA (linearImpulse joint) + angularImpulse joint);
     flags := flags a;
     deltaPosition := deltaPosition a;
     deltaRotation := deltaRotation a |}.

Definition warmStartedB (base : b2JointSim F) (b : b2BodyState F) : b2BodyState F :=
  let joint := weldJoint base in
  let rB := b2RotateVector (deltaRotation b) (p (frameB joint)) in
  {| linearVelocity := b2MulAdd (linearVelocity b) (invMassB base) (linearImpulse joint);
     angularVelocity :=
       angularVelocity b
       + invIB base * (b2Cross rB (linearImpulse joint) + angularImpulse joint);
     flags := flags b;
     deltaPosition := deltaPosition b;
     deltaRotation := deltaRotation b |}.


(** The impulses one call of [b2SolveWeldJoint] computes when the state of
    body A is [a] and the state of body B is [b]: first the angular row,
    then the linear rows with the angular velocities already corrected. *)
Definition solveAngularImpulse {SM : SolverMath F} (base : b2JointSim F) (useBias : bool)
    (a b : b2BodyState F) : F :=
  weldAngularImpulse (weldJoint base) useBias a b (angularVelocity a) (angularVelocity b).

Definition solveLinearImpulse {SM : SolverMath F} (base : b2JointSim F) (useBias : bool)
    (a b : b2BodyState F) : b2Vec2 F :=
  let joint := weldJoint base in
  let impulse := solveAngularImpulse base useBias a b in
  weldLinearImpulse
    (set_impulses joint (linearImpulse joint) (angularImpulse joint + impulse))
    useBias (invMassA base) (invMassB base) (invIA base) (invIB base) a b
    (linearVelocity a) (angularVelocity a - invIA base * impulse)
    (linearVelocity b) (angularVelocity b + invIB base * impulse).

(** The arguments the setters are not meant to receive: NaN, an infinity,
    or a negative number. *)
Definition invalidParameter (a : F) : Prop :=
  f_isnan a = true \/ f_isinf a = true \/ (a <? 0) = true.

(** The solver frame a pass starts from. *)
Definition frameOf (context : b2StepContext F) : SolverFrame :=
  {| dummyState := b2_identityBodyState; stateArray := states context |}.

(** The pass only wrote slots [indexA] and [indexB] of the state array. *)
Definition onlyJointSlotsWritten (joint : b2WeldJoint F)
    (before after : b2StepContext F) : Prop :=
  after = set_states before (states after)
  /\ length (states after) = length (states before)
  /\ forall k : nat,
       Z.of_nat k <> indexA joint -> Z.of_nat k <> indexB joint ->
       states after !! k = states before !! k.

End Vocabulary.

(** *** Values of binary32 *)

(** Zero of either sign; zero or a finite number. *)
Definition b32_zero (a : binary32) : bool :=
  match a with S754_zero _ => true | _ => false end.



(** The same number: the same datum, or two zeros whatever their signs
    (the C comparison [==] does not tell [-0.0f] from [0.0f]). *)
Definition sameValue (a b : binary32) : Prop :=
  a = b \/ (b32_zero a = true /\ b32_zero b = true).


(** Two body states with the same velocities, and otherwise equal. *)
Definition sameVelocities (st st' : b2BodyState binary32) : Prop :=
  sameValue (x (linearVelocity st)) (x (linearVelocity st'))
  /\ sameValue (y (linearVelocity st)) (y (linearVelocity st'))
  /\ sameValue (angularVelocity st) (angularVelocity st')
  /\ flags st = flags st'
  /\ deltaPosition st = deltaPosition st'
  /\ deltaRotation st = deltaRotation st'.

(** ** Vocabulary for the weld joint and its passes *)

Section WeldVocabulary.

Context {F : Type} `{Scalar F}.
Local Open Scope fl_scope.

(** The four spring parameters of the weld joint [jointId], as the getters
    report them. *)
Definition weldParametersAre (asserts : bool) (joints : list (b2JointSim F)) (jointId : Z)
    (lh ld ah ad : F) : Prop :=
  b2WeldJoint_GetLinearHertz asserts joints jointId = Ok lh
  /\ b2WeldJoint_GetLinearDampingRatio asserts joints jointId = Ok ld
  /\ b2WeldJoint_GetAngularHertz asserts joints jointId = Ok ah
  /\ b2WeldJoint_GetAngularDampingRatio asserts joints jointId = Ok ad.

(** Two arrays of joints that differ at most in the joint [jointId]. *)
Definition onlyJointWritten (joints joints' : list (b2JointSim F)) (jointId : Z) : Prop :=
  length joints' = length joints
  /\ forall k : nat, Z.of_nat k <> jointId -> joints' !! k = joints !! k.

(** Two joints that differ at most in the four spring parameters: what
    identifies the joint and what the solver caches and accumulates is the
    same. *)
Definition sameSolverData (j j' : b2JointSim F) : Prop :=
  type j' = type j /\ bodyIdA j' = bodyIdA j /\ bodyIdB j' = bodyIdB j
  /\ localFrameA j' = localFrameA j /\ localFrameB j' = localFrameB j
  /\ invMassA j' = invMassA j /\ invMassB j' = invMassB j
  /\ invIA j' = invIA j /\ invIB j' = invIB j
  /\ constraintSoftness j' = constraintSoftness j
  /\ linearSpring (weldJoint j') = linearSpring (weldJoint j)
  /\ angularSpring (weldJoint j') = angularSpring (weldJoint j)
  /\ linearImpulse (weldJoint j') = linearImpulse (weldJoint j)
  /\ angularImpulse (weldJoint j') = angularImpulse (weldJoint j)
  /\ indexA (weldJoint j') = indexA (weldJoint j)
  /\ indexB (weldJoint j') = indexB (weldJoint j)
  /\ frameA (weldJoint j') = frameA (weldJoint j)
  /\ frameB (weldJoint j') = frameB (weldJoint j)
  /\ deltaCenter (weldJoint j') = deltaCenter (weldJoint j)
  /\ axialMass (weldJoint j') = axialMass (weldJoint j).

(** A body state of which at most the velocities have changed. *)
Definition samePose (st st' : b2BodyState F) : Prop :=
  flags st' = flags st
  /\ deltaPosition st' = deltaPosition st
  /\ deltaRotation st' = deltaRotation st.

(** The joint [base] with [l] and [a] as its accumulated impulses. *)
Definition withImpulses (base : b2JointSim F) (l : b2Vec2 F) (a : F) : b2JointSim F :=
  set_weldJoint base (set_impulses (weldJoint base) l a).

(** The product of a matrix and a vector. *)
Definition b2MulMV (A : b2Mat22 F) (v : b2Vec2 F) : b2Vec2 F :=
  {| x := x (cx A) * x v + x (cy A) * y v;
     y := y (cx A) * x v + y (cy A) * y v |}.

(** The matrix [K] of the linear rows of [b2SolveWeldJoint], for the
    anchors [rA] and [rB]. *)
Definition weldLinearK (base : b2JointSim F) (rA rB : b2Vec2 F) : b2Mat22 F :=
  let mA := invMassA base in
  let mB := invMassB base in
  let iA := invIA base in
  let iB := invIB base in
  {| cx := {| x := mA + mB + y rA * y rA * iA + y rB * y rB * iB;
              y := - y rA * x rA * iA - y rB * x rB * iB |};
     cy := {| x := - y rA * x rA * iA - y rB * x rB * iB;
              y := mA + mB + x rA * x rA * iA + x rB * x rB * iB |} |}.

(** The velocity of the anchor of body B relative to the anchor of body A,
    the [Cdot = v2 + cross(w2, r2) - v1 - cross(w1, r1)] of the
    point-to-point constraint. *)
Definition anchorVelocity (joint : b2WeldJoint F) (a b : b2BodyState F) : b2Vec2 F :=
  let rA := b2RotateVector (deltaRotation a) (p (frameA joint)) in
  let rB := b2RotateVector (deltaRotation b) (p (frameB joint)) in
  b2Sub (b2Add (linearVelocity b) (b2CrossSV (angularVelocity b) rB))
        (b2Add (linearVelocity a) (b2CrossSV (angularVelocity a) rA)).

(** The sum of the spin angular momenta of the two bodies of a joint, the
    rotational inertia of a body being the inverse of its inverse
    inertia. *)
Definition spinMomentum (base : b2JointSim F) (a b : b2BodyState F) : F :=
  1 / invIA base * angularVelocity a + 1 / invIB base * angularVelocity b.

End WeldVocabulary.

(** ** Vocabulary for the query callbacks *)

Section CallbackVocabulary.

Import CollisionSample.

Context {F : Type} `{Scalar F}.
Local Open Scope fl_scope.

(** What a cast reports to its callback for one shape. *)
Record Hit : Type := {
  hitShape : Z;
  hitPoint : b2Vec2 F;
  hitNormal : b2Vec2 F;
  hitFraction : F
}.

(** The test every cast callback begins with: "Ignore a specific shape.
    Also ignore initial overlap." *)
Definition skipsHit (shapeUserData : gmap Z ShapeUserData) (h : Hit) : bool :=
  match shapeUserData !! hitShape h with Some u => ignore u | None => false end
  || (hitFraction h =? 0).

(** The hits the callbacks do not skip: the shape is not marked [ignore]
    and the fraction is not zero. *)
Definition acceptedHit (shapeUserData : gmap Z ShapeUserData) (h : Hit) : Prop :=
  skipsHit shapeUserData h = false.

(** A callback called once for each hit of a list, in order, always with
    the same context object: the values it returned, and the context after
    the last call. *)
Fixpoint callForEach
    (callback : Z -> b2Vec2 F -> b2Vec2 F -> F -> CastContext F -> Outcome (F * CastContext F))
    (hits : list Hit) (rayContext : CastContext F) : Outcome (list F * CastContext F) :=
  match hits with
  | [] => Ok ([], rayContext)
  | h :: rest =>
      r <- callback (hitShape h) (hitPoint h) (hitNormal h) (hitFraction h) rayContext ;;
      rs <- callForEach callback rest (snd r) ;;
      Ok (fst r :: fst rs, snd rs)
  end.

(** The three slots of a context, each with its point, normal and
    fraction. *)
Definition slots (rayContext : CastContext F) : list (b2Vec2 F * b2Vec2 F * F) :=
  [ (at0 (points rayContext), at0 (normals rayContext), at0 (fractions rayContext));
    (at1 (points rayContext), at1 (normals rayContext), at1 (fractions rayContext));
    (at2 (points rayContext), at2 (normals rayContext), at2 (fractions rayContext)) ].

(** A hit as a slot holds it. *)
Definition slotOf (h : Hit) : b2Vec2 F * b2Vec2 F * F :=
  (hitPoint h, hitNormal h, hitFraction h).

(** No fraction is less than the one before it. *)
Definition ascending (fr : Array3 F) : Prop :=
  (at1 fr <? at0 fr) = false /\ (at2 fr <? at1 fr) = false.

(** A slot no hit was stored in: as [initialCastContext] leaves it. *)
Definition emptySlot (FLT_MAX : F) : b2Vec2 F * b2Vec2 F * F :=
  (b2Vec2_zero, b2Vec2_zero, FLT_MAX).

(** What the sorted callback maintains, when [acc] are the hits it has
    accepted so far: the context counts them up to three; its fractions
    ascend; the slots from the count on are empty and those below it hold
    fractions of at most 1; and the three slots together with some
    [dropped] hits, none of them closer than the last slot, are the hits
    accepted and the three empty slots the context began with. *)
Definition keepsClosest (FLT_MAX : F) (acc : list Hit) (rayContext : CastContext F)
    : Prop :=
  let fr := fractions rayContext in
  let n := count rayContext in
  n = Z.min 3 (Z.of_nat (length acc))
  /\ ascending fr
  /\ ((n <= 0)%Z -> slots rayContext !! 0%nat = Some (emptySlot FLT_MAX))
  /\ ((n <= 1)%Z -> slots rayContext !! 1%nat = Some (emptySlot FLT_MAX))
  /\ ((n <= 2)%Z -> slots rayContext !! 2%nat = Some (emptySlot FLT_MAX))
  /\ ((1 <= n)%Z -> (at0 fr <=? 1) = true)
  /\ ((2 <= n)%Z -> (at1 fr <=? 1) = true)
  /\ ((3 <= n)%Z -> (at2 fr <=? 1) = true)
  /\ exists dropped : list (b2Vec2 F * b2Vec2 F * F),
       slots rayContext ++ dropped ≡ₚ map slotOf acc ++ replicate 3 (emptySlot FLT_MAX)
       /\ Forall (fun d => (snd d <? at2 fr) = false) dropped.

End CallbackVocabulary.

Arguments Hit F : clear implicits.

Section OverlapVocabulary.

Import CollisionSample.

(** The shapes the overlap callback does not skip. *)
Definition notIgnored (shapeUserData : gmap Z ShapeUserData) (shapeId : Z) : bool :=
  negb match shapeUserData !! shapeId with Some u => ignore u | None => false end.

(** The overlap callback called once for each shape of a list, in order,
    on the same sample object: the values it returned, and the sample
    after the last call. *)
Fixpoint overlapForEach (shapeUserData : gmap Z ShapeUserData) (shapes : list Z)
    (sample : OverlapWorld) : Outcome (list bool * OverlapWorld) :=
  match shapes with
  | [] => Ok ([], sample)
  | shapeId :: rest =>
      r <- OverlapResultFcn shapeUserData shapeId sample ;;
      rs <- overlapForEach shapeUserData rest (snd r) ;;
      Ok (fst r :: fst rs, snd rs)
  end.

(** The shape ids the sample holds: the first [m_doomCount] entries of
    [m_doomIds]. *)
Definition doomed (sample : OverlapWorld) : list Z :=
  take (Z.to_nat (m_doomCount sample)) (m_doomIds sample).

End OverlapVocabulary.

(** ** Data to run the callbacks on *)

Section CallbackExamples.

Import CollisionSample.

Context {F : Type} `{Scalar F}.
Local Open Scope fl_scope.

(** Shape 7 is marked to be ignored, as [m_ignoreIndex = 7] does in the
    sample; shape 8 has user data and is not ignored; no other shape has
    user data. *)
Definition exampleUserData : gmap Z ShapeUserData :=
  {[ 7%Z := {| index := 7; ignore := true |}; 8%Z := {| index := 8; ignore := false |} ]}.

(** A hit of shape [shape] at fraction [fr] of a ray along the x axis. *)
Definition exampleHit (shape : Z) (fr : F) : Hit F :=
  {| hitShape := shape; hitPoint := exampleVec fr 0; hitNormal := exampleVec (f_neg 1) 0;
     hitFraction := fr |}.

(** The fractions 1/4, 1/2, 3/4 and 1. *)
Definition quarter : F := half * half.
Definition threeQuarters : F := half + quarter.

(** A context holding one hit at fraction 1/2; the other slots are as
    [initialCastContext] left them. *)
Definition exampleCastContext (FLT_MAX : F) : CastContext F :=
  {| points := {| at0 := exampleVec half 0; at1 := b2Vec2_zero; at2 := b2Vec2_zero |};
     normals := {| at0 := exampleVec (f_neg 1) 0; at1 := b2Vec2_zero; at2 := b2Vec2_zero |};
     fractions := {| at0 := half; at1 := FLT_MAX; at2 := FLT_MAX |};
     count := 1 |}.

(** A sample whose sixteen doomed slots are unused. *)
Definition exampleOverlapWorld : OverlapWorld :=
  {| m_doomIds := replicate 16 0%Z; m_doomCount := 0 |}.

End CallbackExamples.

(** [FLT_MAX] of binary32, [(2^24 - 1) * 2^104]. *)
Definition b32_FLT_MAX : binary32 := S754_finite false 16777215 104.

(** The place of a number among the values of [spec_float], as [SFcompare]
    orders them: the sign class first, then exponent and mantissa. *)
Definition sf_rank (a : spec_float) : Z * Z * Z :=
  match a with
  | S754_nan => (0, 0, 0)
  | S754_zero _ => (0, 0, 0)
  | S754_infinity true => (-2, 0, 0)
  | S754_infinity false => (2, 0, 0)
  | S754_finite true m e => (-1, - e, - Z.pos m)
  | S754_finite false m e => (1, e, Z.pos m)
  end%Z.

(** The lexicographic order of ranks. *)
Definition rank_lt (r1 r2 : Z * Z * Z) : Prop :=
  let '(x1, y1, z1) := r1 in
  let '(x2, y2, z2) := r2 in
  (x1 < x2 \/ (x1 = x2 /\ y1 < y2) \/ (x1 = x2 /\ y1 = y2 /\ z1 < z2))%Z.

(** The values of [spec_float] other than NaN. *)
Definition sf_number (a : spec_float) : Prop :=
  match a with S754_nan => False | _ => True end.
(** * Properties *)

(** ** Laws of the two carriers *)

#[export] Instance Qc_ScalarOrder : ScalarOrder Qc.
Proof.
  constructor. intros a b. simpl. intros Hlt.
  apply negb_true_iff in Hlt. exact Hlt.
Qed.

#[export] Instance Qc_ExactArith : ExactArith Qc.
Proof.
  constructor.
  - exact Qcrt.
  - intros a Ha. simpl. unfold Qcdiv.
    rewrite Qcmult_1_l. apply Qcmult_inv_l. exact Ha.
  - intros a. simpl. apply negb_false_iff.
    apply Qle_bool_iff. apply Qle_refl.
Qed.

Lemma SFcompare_Lt_Gt (a b : spec_float) :
  SFcompare a b = Some Lt -> SFcompare b a = Some Gt.
Proof.
  destruct a as [sa|sa| |sa ma ea], b as [sb|sb| |sb mb eb];
    simpl; try discriminate;
    try (destruct sa; simpl; congruence);
    try (destruct sb; simpl; congruence);
    try (destruct sa, sb; simpl; congruence).
  destruct sa, sb; simpl; try congruence;
    rewrite (Z.compare_antisym ea eb);
    destruct (ea ?= eb)%Z eqn:He; simpl; try congruence;
    change (Pos.compare_cont Eq mb ma) with (Pos.compare_cont (CompOpp Eq) mb ma);
    rewrite <- (Pos.compare_cont_antisym ma mb Eq);
    destruct (Pos.compare_cont Eq ma mb); simpl; congruence.
Qed.

#[export] Instance binary32_ScalarOrder : ScalarOrder binary32.
Proof.
  constructor. intros a b. simpl. unfold SFltb, SFleb. intros Hlt.
  destruct (SFcompare a b) as [[| |]|] eqn:Hc; try discriminate.
  rewrite (SFcompare_Lt_Gt _ _ Hc). reflexivity.
Qed.

(** ** The outcome monad and the arrays *)

Lemma outcome_bind_Ok {A B : Type} (m : Outcome A) (k : A -> Outcome B) (r : B) :
  outcome_bind m k = Ok r -> exists a, m = Ok a /\ k a = Ok r.
Proof.
  destruct m as [a| |]; simpl; intros Hk; try discriminate.
  exists a. split; [reflexivity | exact Hk].
Qed.

Lemma B2_ASSERT_holds (asserts cond : bool) :
  cond = true -> B2_ASSERT asserts cond = Ok tt.
Proof.
  intros ->. unfold B2_ASSERT. rewrite andb_false_r. reflexivity.
Qed.

Lemma B2_ASSERT_off (cond : bool) : B2_ASSERT false cond = Ok tt.
Proof. reflexivity. Qed.

Lemma B2_ASSERT_stops (cond : bool) :
  cond = false -> B2_ASSERT true cond = @AssertFailed unit.
Proof. intros ->. reflexivity. Qed.

Lemma b2Array_Get_Ok {A : Type} (asserts : bool) (a : list A) (i : Z) (v : A) :
  b2Array_Get asserts a i = Ok v ->
  (0 <= i < Z.of_nat (length a))%Z /\ a !! Z.to_nat i = Some v.
Proof.
  unfold b2Array_Get. intros Hg.
  apply outcome_bind_Ok in Hg as (_ & _ & Hg).
  destruct (i <? 0)%Z eqn:Hneg; [discriminate|].
  apply Z.ltb_ge in Hneg.
  destruct (a !! Z.to_nat i) as [v'|] eqn:Hl; [|discriminate].
  inversion Hg; subst v'. apply lookup_lt_Some in Hl.
  split; [lia | reflexivity].
Qed.

Lemma b2Array_Get_lookup {A : Type} (asserts : bool) (a : list A) (i : nat) (v : A) :
  a !! i = Some v -> b2Array_Get asserts a (Z.of_nat i) = Ok v.
Proof.
  intros Hl. unfold b2Array_Get.
  pose proof (lookup_lt_Some _ _ _ Hl) as Hlt.
  rewrite B2_ASSERT_holds.
  - simpl. destruct (Z.of_nat i <? 0)%Z eqn:Hneg.
    + apply Z.ltb_lt in Hneg. lia.
    + rewrite Nat2Z.id, Hl. reflexivity.
  - apply andb_true_iff. split; [apply Z.leb_le | apply Z.ltb_lt]; lia.
Qed.

(** ** The solver frame: loads, stores and updates *)

Section FrameFacts.

Context {F : Type} `{Scalar F}.

Implicit Types (m : @SolverFrame F) (r : StateRef) (st : b2BodyState F).

Lemma stateRef_null : stateRef B2_NULL_INDEX = Ok DummyState.
Proof. reflexivity. Qed.

Lemma stateRef_slot (i : nat) : stateRef (Z.of_nat i) = Ok (StateSlot i).
Proof.
  unfold stateRef, B2_NULL_INDEX.
  destruct (Z.of_nat i =? -1)%Z eqn:He; [apply Z.eqb_eq in He; lia|].
  destruct (Z.of_nat i <? 0)%Z eqn:Hn; [apply Z.ltb_lt in Hn; lia|].
  rewrite Nat2Z.id. reflexivity.
Qed.

(** A reference obtained from an index names the slot of that index, or
    the dummy when the index is null. *)
Lemma stateRef_Ok (index : Z) r :
  stateRef index = Ok r ->
  (index = B2_NULL_INDEX /\ r = DummyState)
  \/ (0 <= index /\ r = StateSlot (Z.to_nat index))%Z.
Proof.
  unfold stateRef. destruct (index =? B2_NULL_INDEX)%Z eqn:He.
  - apply Z.eqb_eq in He. intros Hr. inversion Hr. left. split; [exact He | reflexivity].
  - destruct (index <? 0)%Z eqn:Hn; [discriminate|].
    apply Z.ltb_ge in Hn. intros Hr. inversion Hr. right. split; [exact Hn | reflexivity].
Qed.

Lemma stateRef_valid (l : list (b2BodyState F)) (index : Z) :
  validIndex l index ->
  exists r, stateRef index = Ok r
    /\ forall d, exists st, load {| dummyState := d; stateArray := l |} r = Ok st.
Proof.
  intros [Hnull | Hrange].
  - subst index. exists DummyState. split; [reflexivity|].
    intros d. exists d. reflexivity.
  - exists (StateSlot (Z.to_nat index)). split.
    + rewrite <- (Z2Nat.id index) at 1 by lia. apply stateRef_slot.
    + intros d. simpl.
      destruct (lookup_lt_is_Some_2 l (Z.to_nat index)) as [st Hst]; [lia|].
      exists st. rewrite Hst. reflexivity.
Qed.

Lemma load_slot_Some m (i : nat) st :
  load m (StateSlot i) = Ok st <-> stateArray m !! i = Some st.
Proof.
  simpl. destruct (stateArray m !! i) as [st'|]; split; intros Hl;
    inversion Hl; reflexivity.
Qed.

Lemma store_length m r st :
  length (stateArray (store m r st)) = length (stateArray m).
Proof.
  destruct r as [|i]; simpl; [reflexivity | apply length_insert].
Qed.

Lemma store_other_slot m r st (k : nat) :
  r <> StateSlot k -> stateArray (store m r st) !! k = stateArray m !! k.
Proof.
  destruct r as [|i]; simpl; intros Hne; [reflexivity|].
  apply list_lookup_insert_ne. congruence.
Qed.

Lemma load_store_eq m r st0 st :
  load m r = Ok st0 -> load (store m r st) r = Ok st.
Proof.
  destruct r as [|i]; simpl; [reflexivity|].
  destruct (stateArray m !! i) as [s'|] eqn:Hl; [|discriminate].
  intros _. rewrite list_lookup_insert_eq; [reflexivity|].
  apply lookup_lt_Some in Hl. exact Hl.
Qed.

Lemma load_store_ne m r r' st :
  r <> r' -> load (store m r st) r' = load m r'.
Proof.
  destruct r as [|i], r' as [|j]; simpl; intros Hne; try reflexivity; try congruence.
  rewrite list_lookup_insert_ne; [reflexivity | congruence].
Qed.

Lemma store_same m r st :
  load m r = Ok st -> store m r st = m.
Proof.
  destruct m as [d l], r as [|i]; simpl.
  - intros Hl. inversion Hl. reflexivity.
  - destruct (l !! i) as [s'|] eqn:Hl; [|discriminate].
    intros Hs. inversion Hs; subst s'. rewrite list_insert_id; [reflexivity | exact Hl].
Qed.

Lemma update_Ok m r (f : b2BodyState F -> b2BodyState F) m' :
  update m r f = Ok m' -> exists st, load m r = Ok st /\ m' = store m r (f st).
Proof.
  unfold update. intros Hu. apply outcome_bind_Ok in Hu as (st & Hl & Hs).
  exists st. split; [exact Hl | inversion Hs; reflexivity].
Qed.

Lemma update_load m r (f : b2BodyState F -> b2BodyState F) st :
  load m r = Ok st -> update m r f = Ok (store m r (f st)).
Proof. unfold update. intros ->. reflexivity. Qed.

(** An update that maps every state to itself leaves the frame as it is. *)
Lemma update_id m r (f : b2BodyState F -> b2BodyState F) st :
  load m r = Ok st -> (forall st', f st' = st') -> update m r f = Ok m.
Proof.
  intros Hl Hf. rewrite (update_load _ _ _ Hl), Hf, (store_same _ _ Hl). reflexivity.
Qed.

(** An update keeps the length of the array, keeps every other slot, and
    keeps every reference loadable. *)
Lemma update_frame m r (f : b2BodyState F -> b2BodyState F) m' :
  update m r f = Ok m' ->
  length (stateArray m') = length (stateArray m)
  /\ (forall k : nat, r <> StateSlot k -> stateArray m' !! k = stateArray m !! k).
Proof.
  intros Hu. apply update_Ok in Hu as (st & _ & ->).
  split; [apply store_length | intros k Hk; apply store_other_slot; exact Hk].
Qed.

Lemma load_after_store m r r' st st' :
  load m r = Ok st -> exists st'', load (store m r' st') r = Ok st''.
Proof.
  intros Hl. destruct r as [|i], r' as [|j]; simpl in *; eauto.
  destruct (stateArray m !! i) as [s0|] eqn:Hi; [|discriminate].
  destruct (decide (j = i)) as [->|Hne].
  - rewrite list_lookup_insert_eq; [eauto | apply lookup_lt_Some in Hi; exact Hi].
  - rewrite list_lookup_insert_ne by exact Hne. rewrite Hi. eauto.
Qed.

Lemma update_total m r r' (f : b2BodyState F -> b2BodyState F) st st' :
  load m r = Ok st -> load m r' = Ok st' ->
  exists m', update m r f = Ok m'
    /\ (exists s1, load m' r = Ok s1) /\ (exists s2, load m' r' = Ok s2).
Proof.
  intros Hl Hl'. exists (store m r (f st)). split; [apply update_load; exact Hl|].
  split; eapply load_after_store; eassumption.
Qed.

End FrameFacts.

(** ** The two solver passes write through [stateA] and [stateB] only *)

Section PassFacts.

Context {F : Type} `{Scalar F} {SM : SolverMath F}.

Implicit Types (m : @SolverFrame F) (r : StateRef).

(** The four writes that end both passes: they succeed once both
    references load, and touch no slot other than the two referenced. *)
Lemma updates_run {B : Type} m rA rB
    (f1 f2 f3 f4 : b2BodyState F -> b2BodyState F)
    (k : SolverFrame -> Outcome B) (a b : b2BodyState F) :
  load m rA = Ok a -> load m rB = Ok b ->
  exists m4,
    (m1 <- update m rA f1 ;;
     m2 <- update m1 rA f2 ;;
     m3 <- update m2 rB f3 ;;
     m4 <- update m3 rB f4 ;;
     k m4) = k m4
    /\ length (stateArray m4) = length (stateArray m)
    /\ (forall j : nat, rA <> StateSlot j -> rB <> StateSlot j ->
          stateArray m4 !! j = stateArray m !! j).
Proof.
  intros Ha Hb.
  destruct (update_total m rA rB f1 Ha Hb) as (m1 & H1 & [a1 Ha1] & [b1 Hb1]).
  destruct (update_total m1 rA rB f2 Ha1 Hb1) as (m2 & H2 & [a2 Ha2] & [b2 Hb2]).
  destruct (update_total m2 rB rB f3 Hb2 Hb2) as (m3 & H3 & [b3 Hb3] & _).
  destruct (update_total m3 rB rB f4 Hb3 Hb3) as (m4 & H4 & _).
  exists m4. rewrite H1; simpl. rewrite H2; simpl. rewrite H3; simpl. rewrite H4; simpl.
  apply update_frame in H1 as [L1 K1]. apply update_frame in H2 as [L2 K2].
  apply update_frame in H3 as [L3 K3]. apply update_frame in H4 as [L4 K4].
  split; [reflexivity|]. split; [congruence|].
  intros j HA HB. rewrite K4, K3, K2, K1 by assumption. reflexivity.
Qed.

(** The same in the form used on the passes: whatever holds of every frame
    that differs from [m] in the two referenced slots only, holds of the
    frame the four writes produce. *)
Lemma updates_run_with {B : Type} m rA rB
    (f1 f2 f3 f4 : b2BodyState F -> b2BodyState F)
    (k : SolverFrame -> Outcome B) (a b : b2BodyState F) (P : Outcome B -> Prop) :
  load m rA = Ok a -> load m rB = Ok b ->
  (forall m4,
      length (stateArray m4) = length (stateArray m) ->
      (forall j : nat, rA <> StateSlot j -> rB <> StateSlot j ->
         stateArray m4 !! j = stateArray m !! j) ->
      P (k m4)) ->
  P (m1 <- update m rA f1 ;;
     m2 <- update m1 rA f2 ;;
     m3 <- update m2 rB f3 ;;
     m4 <- update m3 rB f4 ;;
     k m4).
Proof.
  intros Ha Hb HP.
  destruct (updates_run m rA rB f1 f2 f3 f4 k Ha Hb) as (m4 & -> & Hlen & Hkeep).
  apply HP; assumption.
Qed.

Lemma stateRef_not_slot (index : Z) r (j : nat) :
  stateRef index = Ok r -> Z.of_nat j <> index -> r <> StateSlot j.
Proof.
  intros Hr Hj. apply stateRef_Ok in Hr as [[_ ->] | [Hpos ->]]; [discriminate|].
  intros Heq. inversion Heq. lia.
Qed.

Lemma warmStart_frame (base : b2JointSim F) (context : b2StepContext F) :
  validIndex (states context) (indexA (weldJoint base)) ->
  validIndex (states context) (indexB (weldJoint base)) ->
  exists context',
    b2WarmStartWeldJoint base context = Ok context'
    /\ onlyJointSlotsWritten (weldJoint base) context context'.
Proof.
  intros HvA HvB.
  destruct (stateRef_valid HvA) as (rA & HrA & HlA).
  destruct (stateRef_valid HvB) as (rB & HrB & HlB).
  destruct (HlA b2_identityBodyState) as [a Ha].
  destruct (HlB b2_identityBodyState) as [b Hb].
  unfold b2WarmStartWeldJoint. rewrite HrA; simpl. rewrite HrB; simpl.
  rewrite Ha; simpl. rewrite Hb; simpl.
  apply updates_run_with with (a := a) (b := b)
    (P := fun o => exists context', o = Ok context'
            /\ onlyJointSlotsWritten (weldJoint base) context context');
    [exact Ha | exact Hb |].
  intros m4 Hlen Hkeep.
  exists (set_states context (stateArray m4)). split; [reflexivity|].
  split; [reflexivity|]. split; [exact Hlen|].
  intros j HjA HjB. simpl. apply Hkeep; eapply stateRef_not_slot; eassumption.
Qed.

Lemma solve_frame (asserts : bool) (base : b2JointSim F) (context : b2StepContext F)
    (useBias : bool) :
  type base = b2_weldJoint ->
  validIndex (states context) (indexA (weldJoint base)) ->
  validIndex (states context) (indexB (weldJoint base)) ->
  exists base' context',
    b2SolveWeldJoint asserts base context useBias = Ok (base', context')
    /\ onlyJointSlotsWritten (weldJoint base) context context'.
Proof.
  intros Hty HvA HvB.
  destruct (stateRef_valid HvA) as (rA & HrA & HlA).
  destruct (stateRef_valid HvB) as (rB & HrB & HlB).
  destruct (HlA b2_identityBodyState) as [a Ha].
  destruct (HlB b2_identityBodyState) as [b Hb].
  unfold b2SolveWeldJoint. rewrite B2_ASSERT_holds by (rewrite Hty; reflexivity).
  simpl. rewrite HrA; simpl. rewrite HrB; simpl.
  rewrite Ha; simpl. rewrite Hb; simpl.
  apply updates_run_with with (a := a) (b := b)
    (P := fun o => exists base' context', o = Ok (base', context')
            /\ onlyJointSlotsWritten (weldJoint base) context context');
    [exact Ha | exact Hb |].
  intros m4 Hlen Hkeep.
  eexists; exists (set_states context (stateArray m4)). split; [reflexivity|].
  split; [reflexivity|]. split; [exact Hlen|].
  intros j HjA HjB. simpl. apply Hkeep; eapply stateRef_not_slot; eassumption.
Qed.

(** What a successful [b2PrepareWeldJoint] has looked up and cached. *)
Lemma prepare_Ok (asserts : bool) (base base' : b2JointSim F) (context : b2StepContext F) :
  b2PrepareWeldJoint asserts base context = Ok base' ->
  exists (bA bB : b2Body) (setA setB : b2SolverSet F) (simA simB : b2BodySim F),
    bodies (world context) !! Z.to_nat (bodyIdA base) = Some bA
    /\ bodies (world context) !! Z.to_nat (bodyIdB base) = Some bB
    /\ solverSets (world context) !! Z.to_nat (setIndex bA) = Some setA
    /\ solverSets (world context) !! Z.to_nat (setIndex bB) = Some setB
    /\ (0 <= localIndex bA)%Z /\ bodySims setA !! Z.to_nat (localIndex bA) = Some simA
    /\ (0 <= localIndex bB)%Z /\ bodySims setB !! Z.to_nat (localIndex bB) = Some simB
    /\ indexA (weldJoint base')
        = (if (setIndex bA =? b2_awakeSet)%Z then localIndex bA else B2_NULL_INDEX)
    /\ indexB (weldJoint base')
        = (if (setIndex bB =? b2_awakeSet)%Z then localIndex bB else B2_NULL_INDEX)
    /\ invMassA base' = invMass simA /\ invMassB base' = invMass simB
    /\ invIA base' = invInertia simA /\ invIB base' = invInertia simB
    /\ linearImpulse (weldJoint base')
        = (if enableWarmStarting context then linearImpulse (weldJoint base) else b2Vec2_zero)
    /\ angularImpulse (weldJoint base')
        = (if enableWarmStarting context then angularImpulse (weldJoint base) else f_zero).
Proof.
  unfold b2PrepareWeldJoint. intros Hp.
  apply outcome_bind_Ok in Hp as (_ & _ & Hp).
  apply outcome_bind_Ok in Hp as (bA & HbA & Hp).
  apply outcome_bind_Ok in Hp as (bB & HbB & Hp).
  apply outcome_bind_Ok in Hp as (_ & _ & Hp).
  apply outcome_bind_Ok in Hp as (setA & HsA & Hp).
  apply outcome_bind_Ok in Hp as (setB & HsB & Hp).
  apply outcome_bind_Ok in Hp as (simA & HmA & Hp).
  apply outcome_bind_Ok in Hp as (simB & HmB & Hp).
  apply b2Array_Get_Ok in HbA as [_ HbA]. apply b2Array_Get_Ok in HbB as [_ HbB].
  apply b2Array_Get_Ok in HsA as [_ HsA]. apply b2Array_Get_Ok in HsB as [_ HsB].
  apply b2Array_Get_Ok in HmA as [[HpA _] HmA]. apply b2Array_Get_Ok in HmB as [[HpB _] HmB].
  exists bA, bB, setA, setB, simA, simB.
  inversion Hp; subst base'; clear Hp.
  destruct (enableWarmStarting context); simpl; repeat (split; [assumption || reflexivity|]);
    reflexivity.
Qed.


Lemma store_store m r (s1 s2 : b2BodyState F) :
  store (store m r s1) r s2 = store m r s2.
Proof.
  destruct r as [|i]; simpl; [reflexivity|].
  rewrite list_insert_insert_eq. reflexivity.
Qed.

(** The four writes through two different references: each object
    receives its two updates. *)
Lemma updates_distinct {B : Type} m rA rB
    (f1 f2 f3 f4 : b2BodyState F -> b2BodyState F)
    (k : SolverFrame -> Outcome B) (a b : b2BodyState F) :
  rA <> rB -> load m rA = Ok a -> load m rB = Ok b ->
  (m1 <- update m rA f1 ;;
   m2 <- update m1 rA f2 ;;
   m3 <- update m2 rB f3 ;;
   m4 <- update m3 rB f4 ;;
   k m4) = k (store (store m rA (f2 (f1 a))) rB (f4 (f3 b))).
Proof.
  intros Hne Ha Hb.
  rewrite (update_load _ _ f1 Ha); simpl.
  rewrite (update_load _ _ f2 (load_store_eq _ _ (f1 a) Ha)); simpl.
  rewrite store_store.
  assert (Hb2 : load (store m rA (f2 (f1 a))) rB = Ok b)
    by (rewrite load_store_ne by exact Hne; exact Hb).
  rewrite (update_load _ _ f3 Hb2); simpl.
  rewrite (update_load _ _ f4 (load_store_eq _ _ (f3 b) Hb2)); simpl.
  rewrite store_store. reflexivity.
Qed.

(** The four writes when every one of them stores back what it read. *)
Lemma updates_id {B : Type} m rA rB
    (f1 f2 f3 f4 : b2BodyState F -> b2BodyState F)
    (k : SolverFrame -> Outcome B) (a b : b2BodyState F) :
  load m rA = Ok a -> load m rB = Ok b ->
  (forall st, f1 st = st) -> (forall st, f2 st = st) ->
  (forall st, f3 st = st) -> (forall st, f4 st = st) ->
  (m1 <- update m rA f1 ;;
   m2 <- update m1 rA f2 ;;
   m3 <- update m2 rB f3 ;;
   m4 <- update m3 rB f4 ;;
   k m4) = k m.
Proof.
  intros Ha Hb H1 H2 H3 H4.
  rewrite (update_id _ _ _ Ha H1); simpl.
  rewrite (update_id _ _ _ Ha H2); simpl.
  rewrite (update_id _ _ _ Hb H3); simpl.
  rewrite (update_id _ _ _ Hb H4); simpl.
  reflexivity.
Qed.

Lemma slots_distinct_refs (iA iB : Z) rA rB :
  stateRef iA = Ok rA -> stateRef iB = Ok rB -> iA <> iB -> rA <> rB.
Proof.
  intros HA HB Hne.
  apply stateRef_Ok in HA as [[-> ->] | [HpA ->]];
    apply stateRef_Ok in HB as [[-> ->] | [HpB ->]];
    try discriminate; try congruence.
  intros Heq. inversion Heq. lia.
Qed.



End PassFacts.

(** ** Zero impulses and the exchange of momentum, in exact arithmetic *)

Section ExactFacts.

Context {F : Type} `{Scalar F} {EA : ExactArith F} {SM : SolverMath F}.
Local Open Scope fl_scope.

Add Ring scalar_ring : exact_ring.

Lemma set_states_same (context : b2StepContext F) :
  set_states context (states context) = context.
Proof. destruct context; reflexivity. Qed.

Lemma positive_nonzero (a : F) : (0 <? a) = true -> a <> 0.
Proof.
  intros Hpos Hz. subst a. rewrite exact_ltb_irrefl in Hpos. discriminate.
Qed.

(** Applying a zero linear impulse and a zero angular impulse changes
    neither velocity, whatever the inverse masses and the anchor. *)
Lemma zero_impulse_linear_sub (k : F) (st : b2BodyState F) :
  set_linearVelocity st (b2MulSub (linearVelocity st) k b2Vec2_zero) = st.
Proof.
  destruct st as [[vx vy] w fl dp dr]. unfold set_linearVelocity, b2MulSub; simpl.
  f_equal. f_equal; ring.
Qed.

Lemma zero_impulse_linear_add (k : F) (st : b2BodyState F) :
  set_linearVelocity st (b2MulAdd (linearVelocity st) k b2Vec2_zero) = st.
Proof.
  destruct st as [[vx vy] w fl dp dr]. unfold set_linearVelocity, b2MulAdd; simpl.
  f_equal. f_equal; ring.
Qed.

Lemma zero_impulse_angular_sub (k : F) (r : b2Vec2 F) (st : b2BodyState F) :
  set_angularVelocity st (angularVelocity st - k * (b2Cross r b2Vec2_zero + 0)) = st.
Proof.
  destruct st as [v w fl dp dr]. unfold set_angularVelocity, b2Cross; simpl.
  f_equal. ring.
Qed.

Lemma zero_impulse_angular_add (k : F) (r : b2Vec2 F) (st : b2BodyState F) :
  set_angularVelocity st (angularVelocity st + k * (b2Cross r b2Vec2_zero + 0)) = st.
Proof.
  destruct st as [v w fl dp dr]. unfold set_angularVelocity, b2Cross; simpl.
  f_equal. ring.
Qed.

(** A warm start with zero stored impulses returns the context it got. *)
Lemma warmStart_zero (base : b2JointSim F) (context : b2StepContext F) :
  validIndex (states context) (indexA (weldJoint base)) ->
  validIndex (states context) (indexB (weldJoint base)) ->
  linearImpulse (weldJoint base) = b2Vec2_zero ->
  angularImpulse (weldJoint base) = 0 ->
  b2WarmStartWeldJoint base context = Ok context.
Proof.
  intros HvA HvB Hlin Hang.
  destruct (stateRef_valid HvA) as (rA & HrA & HlA).
  destruct (stateRef_valid HvB) as (rB & HrB & HlB).
  destruct (HlA b2_identityBodyState) as [a Ha].
  destruct (HlB b2_identityBodyState) as [b Hb].
  unfold b2WarmStartWeldJoint. rewrite HrA; simpl. rewrite HrB; simpl.
  rewrite Ha; simpl. rewrite Hb; simpl. rewrite Hlin, Hang.
  erewrite (updates_id _ _ _ _ _ _ _ _ Ha Hb).
  - simpl. rewrite set_states_same. reflexivity.
  - intros st. apply zero_impulse_linear_sub.
  - intros st. apply zero_impulse_angular_sub.
  - intros st. apply zero_impulse_linear_add.
  - intros st. apply zero_impulse_angular_add.
Qed.


End ExactFacts.

(** ** The linear impulse acts on the two bodies with opposite signs *)

Section ExchangeFacts.

Context {F : Type} `{Scalar F} {SM : SolverMath F}.
Local Open Scope fl_scope.


End ExchangeFacts.

(** ** Solver set indices *)

(** C3. The solver set indices are fixed: the static set has index 0, the
    disabled set index 1, the awake set index 2, and the sets of sleeping
    islands have the indices from 3 on; reading the index of a set back
    gives the set. *)
Theorem solver_set_indices :
  b2_staticSet = 0%Z /\ b2_disabledSet = 1%Z /\ b2_awakeSet = 2%Z
  /\ b2_firstSleepingSet = 3%Z
  /\ setIndexOf StaticSet = 0%Z /\ setIndexOf DisabledSet = 1%Z
  /\ setIndexOf AwakeSet = 2%Z
  /\ (forall island : nat, (3 <= setIndexOf (SleepingSet island))%Z)
  /\ (forall k : SetKind, setKindOf (setIndexOf k) = Some k).
Proof.
  repeat (split; [reflexivity|]). split.
  - intros island. unfold setIndexOf, b2_firstSleepingSet. lia.
  - intros [| | |island]; try reflexivity.
    unfold setIndexOf, setKindOf, b2_staticSet, b2_disabledSet, b2_awakeSet,
      b2_firstSleepingSet.
    destruct (3 + Z.of_nat island =? 0)%Z eqn:E0; [apply Z.eqb_eq in E0; lia|].
    destruct (3 + Z.of_nat island =? 1)%Z eqn:E1; [apply Z.eqb_eq in E1; lia|].
    destruct (3 + Z.of_nat island =? 2)%Z eqn:E2; [apply Z.eqb_eq in E2; lia|].
    destruct (3 <=? 3 + Z.of_nat island)%Z eqn:E3; [|apply Z.leb_gt in E3; lia].
    do 2 f_equal. lia.
Qed.

(** ** Reported force and torque *)

Section Reaction.

Context {F : Type} `{Scalar F}.
Local Open Scope fl_scope.

(** What [b2GetWeldJointForce] and [b2GetWeldJointTorque] report: the
    accumulated linear impulse of the joint scaled, component by component,
    by the inverse substep time [inv_h] stored in the world, and the
    accumulated angular impulse scaled by [inv_h]. *)
Lemma weld_joint_reaction (world : b2World F) (base : b2JointSim F) :
  x (b2GetWeldJointForce world base) = inv_h world * x (linearImpulse (weldJoint base))
  /\ y (b2GetWeldJointForce world base) = inv_h world * y (linearImpulse (weldJoint base))
  /\ b2GetWeldJointForce world base = b2MulSV (inv_h world) (linearImpulse (weldJoint base))
  /\ b2GetWeldJointTorque world base = inv_h world * angularImpulse (weldJoint base).
Proof.
  unfold b2GetWeldJointForce, b2GetWeldJointTorque, b2MulSV. simpl.
  repeat split; reflexivity.
Qed.

End Reaction.

(** ** Non-awake bodies are out of reach of the passes *)

Section PassesFrame.

Context {F : Type} `{Scalar F} {SM : SolverMath F}.

Lemma all_slots_kept (l l' : list (b2BodyState F)) :
  length l' = length l -> (forall k : nat, l' !! k = l !! k) -> l' = l.
Proof. intros _ Hk. apply list_eq. exact Hk. Qed.

(** C10. A body that is not in the awake set has [B2_NULL_INDEX] as its
    cached solver index once [b2PrepareWeldJoint] has run, and for that
    index both passes use the local dummy state.  On a weld joint whose cached indices are null or name
    slots of [context->states], the warm start and the solve return, leave
    every field of the context other than [states] as it was, keep the
    length of [states], and change no slot other than the slots [indexA]
    and [indexB] of awake bodies; when both indices are null the whole
    context is returned unchanged. *)
Theorem weld_passes_write_awake_slots_only (asserts : bool) (base : b2JointSim F)
    (context : b2StepContext F) (useBias : bool) :
  type base = b2_weldJoint ->
  validIndex (states context) (indexA (weldJoint base)) ->
  validIndex (states context) (indexB (weldJoint base)) ->
  (forall (base0 base1 : b2JointSim F) (context0 : b2StepContext F) (bA bB : b2Body),
      b2PrepareWeldJoint asserts base0 context0 = Ok base1 ->
      bodies (world context0) !! Z.to_nat (bodyIdA base0) = Some bA ->
      bodies (world context0) !! Z.to_nat (bodyIdB base0) = Some bB ->
      (setIndex bA <> b2_awakeSet -> indexA (weldJoint base1) = B2_NULL_INDEX)
      /\ (setIndex bB <> b2_awakeSet -> indexB (weldJoint base1) = B2_NULL_INDEX))
  /\ stateRef B2_NULL_INDEX = Ok DummyState
  /\ (exists context',
        b2WarmStartWeldJoint base context = Ok context'
        /\ onlyJointSlotsWritten (weldJoint base) context context')
  /\ (exists base' context',
        b2SolveWeldJoint asserts base context useBias = Ok (base', context')
        /\ onlyJointSlotsWritten (weldJoint base) context context')
  /\ (indexA (weldJoint base) = B2_NULL_INDEX ->
      indexB (weldJoint base) = B2_NULL_INDEX ->
      b2WarmStartWeldJoint base context = Ok context
      /\ exists base', b2SolveWeldJoint asserts base context useBias = Ok (base', context)).
Proof.
  intros Hty HvA HvB.
  destruct (warmStart_frame base context HvA HvB) as (cw & Hw & Hfw).
  destruct (solve_frame asserts base context useBias Hty HvA HvB) as (bs & cs & Hs & Hfs).
  split.
  { intros base0 base1 context0 bA bB Hp HlA HlB.
    destruct (prepare_Ok _ _ _ Hp)
      as (bA' & bB' & _ & _ & _ & _ & HlA' & HlB' & _ & _ & _ & _ & _ & _ & -> & -> & _).
    rewrite HlA in HlA'. rewrite HlB in HlB'. inversion HlA'; inversion HlB'; subst bA' bB'.
    split; intros Hne.
    - destruct (setIndex bA =? b2_awakeSet)%Z eqn:He; [apply Z.eqb_eq in He; contradiction|].
      reflexivity.
    - destruct (setIndex bB =? b2_awakeSet)%Z eqn:He; [apply Z.eqb_eq in He; contradiction|].
      reflexivity. }
  split; [reflexivity|].
  split; [exists cw; split; assumption|].
  split; [exists bs, cs; split; assumption|].
  intros HnA HnB.
  assert (Hnull : forall k : nat, Z.of_nat k <> B2_NULL_INDEX)
    by (intros k; unfold B2_NULL_INDEX; lia).
  assert (Hsame : forall c' : b2StepContext F,
             onlyJointSlotsWritten (weldJoint base) context c' -> c' = context).
  { intros c' (Heq & Hlen & Hkeep). rewrite Heq.
    assert (Hst : states c' = states context).
    { apply all_slots_kept; [exact Hlen|].
      intros k. apply Hkeep; [rewrite HnA | rewrite HnB]; apply Hnull. }
    rewrite Hst. destruct context; reflexivity. }
  split.
  - rewrite Hw. f_equal. apply Hsame. exact Hfw.
  - exists bs. rewrite Hs. do 2 f_equal. apply Hsame. exact Hfs.
Qed.

End PassesFrame.

(** ** The setters and their entry assertion *)

Section Setters.

Context {F : Type} `{Scalar F} {SO : ScalarOrder F}.
Local Open Scope fl_scope.

(** The condition the four setters assert is false for NaN, for the
    infinities and for negative numbers. *)
Lemma invalid_fails_check (v : F) :
  invalidParameter v -> b2IsValidFloat v && (v >=? 0) = false.
Proof.
  unfold b2IsValidFloat. intros [Hnan | [Hinf | Hneg]].
  - rewrite Hnan. reflexivity.
  - rewrite Hinf. destruct (f_isnan v); reflexivity.
  - rewrite (f_ltb_not_leb _ _ Hneg). apply andb_false_r.
Qed.

Lemma lookup_joint_release (joints : list (b2JointSim F)) (jointId : Z)
    (ty : b2JointType) (joint : b2JointSim F) :
  (0 <= jointId)%Z -> joints !! Z.to_nat jointId = Some joint ->
  b2GetJointSimCheckType false joints jointId ty = Ok joint.
Proof.
  intros Hpos Hl. unfold b2GetJointSimCheckType.
  rewrite <- (Z2Nat.id jointId) by exact Hpos.
  rewrite (b2Array_Get_lookup false _ _ Hl). reflexivity.
Qed.

Lemma lookup_written (joints : list (b2JointSim F)) (jointId : Z)
    (ty : b2JointType) (joint : b2JointSim F) (w : b2WeldJoint F) :
  (0 <= jointId)%Z -> joints !! Z.to_nat jointId = Some joint ->
  b2GetJointSimCheckType false (writeWeld joints jointId joint w) jointId ty
  = Ok (set_weldJoint joint w).
Proof.
  intros Hpos Hl. apply lookup_joint_release; [exact Hpos|].
  unfold writeWeld. apply list_lookup_insert_eq. apply lookup_lt_Some in Hl. exact Hl.
Qed.

(** C2, as the code has it.  In a build with assertions compiled in, each
    of the four setters, given an argument that is NaN, infinite or
    negative, is stopped by its entry assertion, before the joint is looked
    up or written.  In a build with assertions compiled out the same call
    stores the argument in the joint, and the getter returns it. *)
Theorem weld_setters_reject_only_under_assertions
    (joints : list (b2JointSim F)) (jointId : Z) (v : F) :
  invalidParameter v ->
  (b2WeldJoint_SetLinearHertz true joints jointId v = AssertFailed
   /\ b2WeldJoint_SetLinearDampingRatio true joints jointId v = AssertFailed
   /\ b2WeldJoint_SetAngularHertz true joints jointId v = AssertFailed
   /\ b2WeldJoint_SetAngularDampingRatio true joints jointId v = AssertFailed)
  /\ (forall joint : b2JointSim F,
        (0 <= jointId)%Z -> joints !! Z.to_nat jointId = Some joint ->
        (js <- b2WeldJoint_SetLinearHertz false joints jointId v ;;
         b2WeldJoint_GetLinearHertz false js jointId) = Ok v
        /\ (js <- b2WeldJoint_SetLinearDampingRatio false joints jointId v ;;
            b2WeldJoint_GetLinearDampingRatio false js jointId) = Ok v
        /\ (js <- b2WeldJoint_SetAngularHertz false joints jointId v ;;
            b2WeldJoint_GetAngularHertz false js jointId) = Ok v
        /\ (js <- b2WeldJoint_SetAngularDampingRatio false joints jointId v ;;
            b2WeldJoint_GetAngularDampingRatio false js jointId) = Ok v).
Proof.
  intros Hinv. pose proof (invalid_fails_check Hinv) as Hcheck. split.
  - unfold b2WeldJoint_SetLinearHertz, b2WeldJoint_SetLinearDampingRatio,
      b2WeldJoint_SetAngularHertz, b2WeldJoint_SetAngularDampingRatio.
    rewrite (B2_ASSERT_stops Hcheck). simpl. repeat split; reflexivity.
  - intros joint Hpos Hl.
    unfold b2WeldJoint_SetLinearHertz, b2WeldJoint_SetLinearDampingRatio,
      b2WeldJoint_SetAngularHertz, b2WeldJoint_SetAngularDampingRatio,
      b2WeldJoint_GetLinearHertz, b2WeldJoint_GetLinearDampingRatio,
      b2WeldJoint_GetAngularHertz, b2WeldJoint_GetAngularDampingRatio.
    rewrite B2_ASSERT_off. simpl.
    rewrite (lookup_joint_release _ b2_weldJoint Hpos Hl). simpl.
    rewrite !(lookup_written _ b2_weldJoint _ Hpos Hl). simpl.
    repeat split; reflexivity.
Qed.

End Setters.

(** ** End-touch events *)

Section EndEventFacts.

Context {F : Type}.

Lemma bufferAt_set_eq {A : Type} (a : list A * list A) (i : Z) (l : list A) :
  bufferAt (setBufferAt a i l) i = l.
Proof. unfold bufferAt, setBufferAt. destruct (i =? 0)%Z; reflexivity. Qed.

Lemma bufferAt_set_other {A : Type} (a : list A * list A) (i : Z) (l : list A) :
  (i = 0 \/ i = 1)%Z ->
  bufferAt (setBufferAt a (1 - i) l) i = bufferAt a i.
Proof. intros [-> | ->]; reflexivity. Qed.

Lemma setBufferAt_twice {A : Type} (a : list A * list A) (i : Z) (l l' : list A) :
  setBufferAt (setBufferAt a i l) i l' = setBufferAt a i l'.
Proof. unfold setBufferAt. destruct (i =? 0)%Z; reflexivity. Qed.

(** Pushing a list of sensor end events appends it, in order, to the
    current sensor buffer, and touches nothing else. *)
Lemma push_sensor_events (es : list b2SensorEndTouchEvent) (w : b2World F) :
  fold_left b2PushSensorEndEvent es w
  = set_endEvents w
      (setBufferAt (sensorEndEvents w) (endEventArrayIndex w)
         (bufferAt (sensorEndEvents w) (endEventArrayIndex w) ++ es))
      (contactEndEvents w) (endEventArrayIndex w).
Proof.
  revert w. induction es as [|e es IH]; intros w; simpl.
  - rewrite app_nil_r. destruct w as [bs ss [s0 s1] ce i ih].
    unfold set_endEvents, setBufferAt, bufferAt; simpl.
    destruct (i =? 0)%Z; reflexivity.
  - rewrite IH. unfold b2PushSensorEndEvent, set_endEvents; simpl.
    rewrite bufferAt_set_eq, setBufferAt_twice, <- app_assoc. reflexivity.
Qed.

Lemma push_contact_events (es : list b2ContactEndTouchEvent) (w : b2World F) :
  fold_left b2PushContactEndEvent es w
  = set_endEvents w (sensorEndEvents w)
      (setBufferAt (contactEndEvents w) (endEventArrayIndex w)
         (bufferAt (contactEndEvents w) (endEventArrayIndex w) ++ es))
      (endEventArrayIndex w).
Proof.
  revert w. induction es as [|e es IH]; intros w; simpl.
  - rewrite app_nil_r. destruct w as [bs ss se [c0 c1] i ih].
    unfold set_endEvents, setBufferAt, bufferAt; simpl.
    destruct (i =? 0)%Z; reflexivity.
  - rewrite IH. unfold b2PushContactEndEvent, set_endEvents; simpl.
    rewrite bufferAt_set_eq, setBufferAt_twice, <- app_assoc. reflexivity.
Qed.

(** Recording end events fills the buffer at the current index and leaves
    the index and the exposed arrays alone. *)
Lemma record_end_events (w : b2World F)
    (sensorEnds : list b2SensorEndTouchEvent) (contactEnds : list b2ContactEndTouchEvent) :
  (endEventArrayIndex w = 0 \/ endEventArrayIndex w = 1)%Z ->
  let w' := b2RecordEndEvents w sensorEnds contactEnds in
  endEventArrayIndex w' = endEventArrayIndex w
  /\ bufferAt (sensorEndEvents w') (endEventArrayIndex w)
     = bufferAt (sensorEndEvents w) (endEventArrayIndex w) ++ sensorEnds
  /\ bufferAt (contactEndEvents w') (endEventArrayIndex w)
     = bufferAt (contactEndEvents w) (endEventArrayIndex w) ++ contactEnds
  /\ b2World_GetSensorEndEvents w' = b2World_GetSensorEndEvents w
  /\ b2World_GetContactEndEvents w' = b2World_GetContactEndEvents w.
Proof.
  intros Hidx. cbv zeta. unfold b2RecordEndEvents.
  rewrite push_contact_events, push_sensor_events.
  unfold b2World_GetSensorEndEvents, b2World_GetContactEndEvents.
  destruct w as [bs ss [s0 s1] [c0 c1] i ih]. simpl in Hidx.
  destruct Hidx as [-> | ->]; repeat split; reflexivity.
Qed.

(** Exchanging the buffers exposes the one that was being filled and
    empties the other. *)
Lemma swap_end_events (w : b2World F) :
  (endEventArrayIndex w = 0 \/ endEventArrayIndex w = 1)%Z ->
  b2World_GetSensorEndEvents (b2SwapEndEvents w)
    = bufferAt (sensorEndEvents w) (endEventArrayIndex w)
  /\ b2World_GetContactEndEvents (b2SwapEndEvents w)
     = bufferAt (contactEndEvents w) (endEventArrayIndex w)
  /\ endBuffersFresh (b2SwapEndEvents w).
Proof.
  intros Hidx.
  unfold b2World_GetSensorEndEvents, b2World_GetContactEndEvents, endBuffersFresh.
  destruct w as [bs ss [s0 s1] [c0 c1] i ih]. simpl in Hidx.
  destruct Hidx as [-> | ->]; simpl; repeat split; auto.
Qed.

(** What a step exposes, and the state of the buffers it leaves. *)
Lemma step_end_events (w : b2World F)
    (sensorEnds : list b2SensorEndTouchEvent) (contactEnds : list b2ContactEndTouchEvent) :
  (endEventArrayIndex w = 0 \/ endEventArrayIndex w = 1)%Z ->
  let w' := b2World_StepEndEvents w sensorEnds contactEnds in
  b2World_GetSensorEndEvents w'
    = bufferAt (sensorEndEvents w) (endEventArrayIndex w) ++ sensorEnds
  /\ b2World_GetContactEndEvents w'
     = bufferAt (contactEndEvents w) (endEventArrayIndex w) ++ contactEnds
  /\ endBuffersFresh w'.
Proof.
  intros Hidx. cbv zeta. unfold b2World_StepEndEvents.
  destruct (record_end_events w sensorEnds contactEnds Hidx) as (Hi & Hs & Hc & _).
  assert (Hidx' : (endEventArrayIndex (b2RecordEndEvents w sensorEnds contactEnds) = 0
                   \/ endEventArrayIndex (b2RecordEndEvents w sensorEnds contactEnds) = 1)%Z)
    by (rewrite Hi; exact Hidx).
  destruct (swap_end_events _ Hidx') as (Es & Ec & Hfresh).
  rewrite Hi in Es, Ec. rewrite Hs in Es. rewrite Hc in Ec.
  split; [exact Es|]. split; [exact Ec | exact Hfresh].
Qed.

(** Every step leaves the buffers being filled empty, and so does every
    run of steps that starts with them empty. *)
Lemma steps_leave_buffers_fresh
    (history : list (list b2SensorEndTouchEvent * list b2ContactEndTouchEvent))
    (w : b2World F) :
  endBuffersFresh w -> endBuffersFresh (b2World_StepsEndEvents w history).
Proof.
  revert w. induction history as [|[sensorEnds contactEnds] history IH]; intros w Hfresh.
  - exact Hfresh.
  - unfold b2World_StepsEndEvents. cbn [fold_left fst snd]. apply IH.
    destruct Hfresh as (Hidx & _ & _).
    destruct (step_end_events w sensorEnds contactEnds Hidx) as (_ & _ & Hfresh').
    exact Hfresh'.
Qed.

(** C4.  The end-touch event arrays are double-buffered.  After step N of
    any run of steps of a world, the exposed sensor and contact end arrays
    hold exactly the end-touch events generated during step N, in the order
    of their generation.  They stay so until the next step: while that step
    records the events it generates, the exposed arrays still hold the
    events of step N, and only the exchange of the buffers that ends it
    replaces them. *)
Theorem end_events_double_buffered (w : b2World F)
    (history : list (list b2SensorEndTouchEvent * list b2ContactEndTouchEvent))
    (sensorEnds nextSensorEnds : list b2SensorEndTouchEvent)
    (contactEnds nextContactEnds : list b2ContactEndTouchEvent) :
  endBuffersFresh w ->
  let afterStep :=
    b2World_StepEndEvents (b2World_StepsEndEvents w history) sensorEnds contactEnds in
  let nextStep := b2RecordEndEvents afterStep nextSensorEnds nextContactEnds in
  b2World_GetSensorEndEvents afterStep = sensorEnds
  /\ b2World_GetContactEndEvents afterStep = contactEnds
  /\ b2World_GetSensorEndEvents nextStep = sensorEnds
  /\ b2World_GetContactEndEvents nextStep = contactEnds
  /\ b2World_GetSensorEndEvents (b2SwapEndEvents nextStep) = nextSensorEnds
  /\ b2World_GetContactEndEvents (b2SwapEndEvents nextStep) = nextContactEnds.
Proof.
  intros Hfresh. cbv zeta.
  destruct (steps_leave_buffers_fresh history Hfresh) as (Hidx & Hs0 & Hc0).
  set (before := b2World_StepsEndEvents w history) in *.
  destruct (step_end_events before sensorEnds contactEnds Hidx) as (Es & Ec & Hfresh1).
  rewrite Hs0 in Es. rewrite Hc0 in Ec. simpl in Es, Ec.
  set (afterStep := b2World_StepEndEvents before sensorEnds contactEnds) in *.
  destruct Hfresh1 as (Hidx1 & Hs1 & Hc1).
  destruct (record_end_events afterStep nextSensorEnds nextContactEnds Hidx1)
    as (Hi & Hs & Hc & Ks & Kc).
  split; [exact Es|]. split; [exact Ec|].
  split; [rewrite Ks; exact Es|]. split; [rewrite Kc; exact Ec|].
  destruct (step_end_events afterStep nextSensorEnds nextContactEnds Hidx1)
    as (Es2 & Ec2 & _).
  unfold b2World_StepEndEvents in Es2, Ec2.
  rewrite Hs1 in Es2. rewrite Hc1 in Ec2. split; [exact Es2 | exact Ec2].
Qed.

End EndEventFacts.

(** ** Graph colouring *)

Section ColoringFacts.

Variable isDynamic : nat -> bool.

Local Close Scope Z_scope.

Local Abbreviation addConstraint := (b2AddConstraintToGraph isDynamic).

Lemma shifted_bit (i j : nat) :
  Z.testbit (Z.shiftl 1 (Z.of_nat i)) (Z.of_nat j) = Nat.eqb i j.
Proof.
  rewrite Z.shiftl_1_l, Z.pow2_bits_eqb by lia.
  destruct (Nat.eqb_spec i j) as [->|Hne].
  - apply Z.eqb_refl.
  - apply Z.eqb_neq. lia.
Qed.

(** The mask of body [b] after [body] has been recorded in colour [i]. *)
Lemma markBody_bit (m : gmap nat Z) (body i b j : nat) :
  Z.testbit (default 0%Z (markBody isDynamic m body i !! b)) (Z.of_nat j)
  = Z.testbit (default 0%Z (m !! b)) (Z.of_nat j)
    || (isDynamic body && Nat.eqb body b && Nat.eqb i j).
Proof.
  unfold markBody. destruct (isDynamic body); simpl.
  - destruct (decide (body = b)) as [->|Hne].
    + rewrite lookup_insert_eq. simpl. rewrite Z.lor_spec, shifted_bit, Nat.eqb_refl.
      reflexivity.
    + rewrite lookup_insert_ne by exact Hne.
      apply Nat.eqb_neq in Hne. rewrite Hne, orb_false_r. reflexivity.
  - rewrite orb_false_r. reflexivity.
Qed.

(** What a found colour satisfies: it is one of the scanned indices, both
    bodies are free in it, and no scanned index before it has both free. *)
Lemma findColor_Some (g : b2ConstraintGraph) (a b : nat) (n i0 i : nat) :
  findColor isDynamic g a b i0 n = Some i ->
  i0 <= i < i0 + n
  /\ colorFree isDynamic g a i = true /\ colorFree isDynamic g b i = true
  /\ forall j : nat, i0 <= j < i ->
       colorFree isDynamic g a j && colorFree isDynamic g b j = false.
Proof.
  revert i0. induction n as [|n IH]; intros i0; simpl; [discriminate|].
  destruct (colorFree isDynamic g a i0 && colorFree isDynamic g b i0) eqn:Hfree.
  - intros Hi. inversion Hi; subst i. apply andb_true_iff in Hfree as [Ha Hb].
    split; [lia|]. split; [exact Ha|]. split; [exact Hb|]. intros j Hj. lia.
  - intros Hi. destruct (IH _ Hi) as (Hr & Ha & Hb & Hlow).
    split; [lia|]. split; [exact Ha|]. split; [exact Hb|].
    intros j Hj. destruct (decide (j = i0)) as [->|Hne]; [exact Hfree|].
    apply Hlow. lia.
Qed.

Lemma concat_alter_cons (k : b2Constraint) (l : list (list b2Constraint)) (i : nat) :
  i < length l -> concat (alter (cons k) i l) ≡ₚ k :: concat l.
Proof.
  revert i. induction l as [|col l IH]; intros i Hi; simpl in Hi; [lia|].
  destruct i as [|i]; simpl.
  - reflexivity.
  - change (list_alter (cons k) i l) with (alter (cons k) i l).
    rewrite IH by lia. symmetry. apply Permutation_middle.
Qed.

(** Adding a constraint puts it in exactly one place. *)
Lemma addConstraint_distributes (g : b2ConstraintGraph) (k : b2Constraint) :
  length (colors g) = B2_GRAPH_COLOR_COUNT ->
  length (colors (addConstraint g k)) = B2_GRAPH_COLOR_COUNT
  /\ concat (colors (addConstraint g k)) ++ overflow (addConstraint g k)
     ≡ₚ k :: (concat (colors g) ++ overflow g).
Proof.
  intros Hlen. unfold b2AddConstraintToGraph.
  destruct (findColor isDynamic g (bodyA k) (bodyB k) 0 B2_GRAPH_COLOR_COUNT)
    as [i|] eqn:Hfind; simpl.
  - apply findColor_Some in Hfind as (Hr & _).
    split; [rewrite length_alter; exact Hlen|].
    rewrite concat_alter_cons by lia. reflexivity.
  - split; [exact Hlen|]. symmetry. apply Permutation_middle.
Qed.

(** A constraint that shares a dynamic body with [k2] has a dynamic body
    in common with it. *)
Lemma shareDynamicBody_true (k1 k2 : b2Constraint) :
  shareDynamicBody isDynamic k1 k2 = true ->
  exists b : nat,
    isDynamic b = true /\ (b = bodyA k1 \/ b = bodyB k1) /\ (b = bodyA k2 \/ b = bodyB k2).
Proof.
  unfold shareDynamicBody. intros Hs.
  apply orb_true_iff in Hs as [Hs | Hs];
    apply andb_true_iff in Hs as [Hd Hs];
    apply orb_true_iff in Hs as [Hs | Hs]; apply Nat.eqb_eq in Hs.
  - exists (bodyA k1). auto.
  - exists (bodyA k1). auto.
  - exists (bodyB k1). auto.
  - exists (bodyB k1). auto.
Qed.

(** A constraint whose two bodies are free in colour [i] shares no dynamic
    body with a constraint already in that colour, in either order. *)
Lemma free_bodies_independent (g : b2ConstraintGraph) (i : nat)
    (col : list b2Constraint) (k k' : b2Constraint) :
  masksCoverColors isDynamic g ->
  colors g !! i = Some col -> k' ∈ col ->
  colorFree isDynamic g (bodyA k) i = true ->
  colorFree isDynamic g (bodyB k) i = true ->
  shareDynamicBody isDynamic k k' = false /\ shareDynamicBody isDynamic k' k = false.
Proof.
  intros Hcover Hcol Hin HfA HfB.
  destruct (Hcover _ _ _ Hcol Hin) as [HcA HcB].
  assert (Hno : forall b : nat, isDynamic b = true ->
            (b = bodyA k \/ b = bodyB k) -> (b = bodyA k' \/ b = bodyB k') -> False).
  { intros b Hd Hk Hk'.
    assert (Hset : Z.testbit (bodyMask g b) (Z.of_nat i) = true).
    { destruct Hk' as [-> | ->]; [apply HcA | apply HcB]; exact Hd. }
    assert (Hclear : colorFree isDynamic g b i = true)
      by (destruct Hk as [-> | ->]; assumption).
    unfold colorFree in Hclear. rewrite Hd, Hset in Hclear. discriminate. }
  split.
  - destruct (shareDynamicBody isDynamic k k') eqn:Hs; [|reflexivity].
    apply shareDynamicBody_true in Hs as (b & Hd & Hk & Hk'). destruct (Hno b Hd Hk Hk').
  - destruct (shareDynamicBody isDynamic k' k) eqn:Hs; [|reflexivity].
    apply shareDynamicBody_true in Hs as (b & Hd & Hk' & Hk). destruct (Hno b Hd Hk Hk').
Qed.

Lemma addConstraint_mask (g : b2ConstraintGraph) (k : b2Constraint) (i b j : nat) :
  findColor isDynamic g (bodyA k) (bodyB k) 0 B2_GRAPH_COLOR_COUNT = Some i ->
  Z.testbit (bodyMask (addConstraint g k) b) (Z.of_nat j)
  = Z.testbit (bodyMask g b) (Z.of_nat j)
    || (isDynamic (bodyA k) && Nat.eqb (bodyA k) b && Nat.eqb i j)
    || (isDynamic (bodyB k) && Nat.eqb (bodyB k) b && Nat.eqb i j).
Proof.
  intros Hfind. unfold bodyMask, b2AddConstraintToGraph. rewrite Hfind. simpl.
  rewrite !markBody_bit. reflexivity.
Qed.

(** The greedy assignment keeps both invariants. *)
Lemma addConstraint_invariant (g : b2ConstraintGraph) (k : b2Constraint) :
  masksCoverColors isDynamic g -> colorsIndependent isDynamic g ->
  masksCoverColors isDynamic (addConstraint g k)
  /\ colorsIndependent isDynamic (addConstraint g k).
Proof.
  intros Hcover Hind.
  destruct (findColor isDynamic g (bodyA k) (bodyB k) 0 B2_GRAPH_COLOR_COUNT)
    as [i|] eqn:Hfind.
  2: { unfold b2AddConstraintToGraph. rewrite Hfind. split; assumption. }
  pose proof (findColor_Some _ _ _ _ _ Hfind) as (_ & HfA & HfB & _).
  assert (Hcolors : colors (addConstraint g k) = alter (cons k) i (colors g))
    by (unfold b2AddConstraintToGraph; rewrite Hfind; reflexivity).
  split.
  - intros i' col' k' Hcol' Hin'. rewrite Hcolors in Hcol'.
    rewrite !(addConstraint_mask _ _ _ _ Hfind).
    destruct (decide (i = i')) as [<-|Hne].
    + rewrite list_lookup_alter_eq in Hcol'.
      destruct (colors g !! i) as [col|] eqn:Hcol; [|discriminate].
      simpl in Hcol'. inversion Hcol'; subst col'.
      apply elem_of_cons in Hin' as [-> | Hin'].
      * rewrite !Nat.eqb_refl. split; intros ->; simpl;
          rewrite ?orb_true_r; reflexivity.
      * destruct (Hcover _ _ _ Hcol Hin') as [HA HB].
        split; intros Hd; [rewrite (HA Hd) | rewrite (HB Hd)]; reflexivity.
    + rewrite list_lookup_alter_ne in Hcol' by exact Hne.
      destruct (Hcover _ _ _ Hcol' Hin') as [HA HB].
      split; intros Hd; [rewrite (HA Hd) | rewrite (HB Hd)]; reflexivity.
  - intros i' col' j1 j2 k1 k2 Hcol' H1 H2 Hj. rewrite Hcolors in Hcol'.
    destruct (decide (i = i')) as [<-|Hne].
    + rewrite list_lookup_alter_eq in Hcol'.
      destruct (colors g !! i) as [col|] eqn:Hcol; [|discriminate].
      simpl in Hcol'. inversion Hcol'; subst col'.
      destruct j1 as [|j1], j2 as [|j2]; simpl in H1, H2.
      * congruence.
      * inversion H1; subst k1.
        pose proof (list_elem_of_lookup_2 _ _ _ H2) as Hin2.
        destruct (@free_bodies_independent g i col k k2 Hcover Hcol Hin2 HfA HfB) as [Hs _].
        exact Hs.
      * inversion H2; subst k2.
        pose proof (list_elem_of_lookup_2 _ _ _ H1) as Hin1.
        destruct (@free_bodies_independent g i col k k1 Hcover Hcol Hin1 HfA HfB) as [_ Hs].
        exact Hs.
      * apply (Hind i col j1 j2); auto.
    + rewrite list_lookup_alter_ne in Hcol' by exact Hne.
      apply (Hind i' col' j1 j2); auto.
Qed.

Lemma createGraph_invariant :
  length (colors b2CreateGraph) = B2_GRAPH_COLOR_COUNT
  /\ masksCoverColors isDynamic b2CreateGraph
  /\ colorsIndependent isDynamic b2CreateGraph.
Proof.
  split; [apply length_replicate|]. split.
  - intros i col k Hcol Hin. apply lookup_replicate in Hcol as [-> _].
    apply elem_of_nil in Hin. destruct Hin.
  - intros i col j1 j2 k1 k2 Hcol H1. apply lookup_replicate in Hcol as [-> _].
    discriminate.
Qed.

(** Every graph built by adding constraints one after the other. *)
Lemma graph_invariant (ks : list b2Constraint) (g : b2ConstraintGraph) :
  length (colors g) = B2_GRAPH_COLOR_COUNT ->
  masksCoverColors isDynamic g -> colorsIndependent isDynamic g ->
  length (colors (fold_left addConstraint ks g)) = B2_GRAPH_COLOR_COUNT
  /\ concat (colors (fold_left addConstraint ks g)) ++ overflow (fold_left addConstraint ks g)
     ≡ₚ ks ++ (concat (colors g) ++ overflow g)
  /\ colorsIndependent isDynamic (fold_left addConstraint ks g).
Proof.
  revert g. induction ks as [|k ks IH]; intros g Hlen Hcover Hind; simpl.
  - split; [exact Hlen|]. split; [reflexivity | exact Hind].
  - destruct (addConstraint_distributes g k Hlen) as [Hlen' Hperm].
    destruct (addConstraint_invariant k Hcover Hind) as [Hcover' Hind'].
    destruct (IH _ Hlen' Hcover' Hind') as (HL & HP & HI).
    split; [exact HL|]. split; [|exact HI].
    rewrite HP, Hperm. symmetry. apply Permutation_middle.
Qed.

End ColoringFacts.

(** C8. Every constraint graph built during a step, by adding the
    constraints that become active one after the other, has 24 colours and
    an overflow colour; the constraints added are exactly those stored in
    the colours and the overflow colour; and within any single colour no
    two constraints share a dynamic body. *)
Theorem graph_colors_bounded_and_independent (isDynamic : nat -> bool)
    (ks : list b2Constraint) :
  length (colors (fold_left (b2AddConstraintToGraph isDynamic) ks b2CreateGraph)) = 24%nat
  /\ concat (colors (fold_left (b2AddConstraintToGraph isDynamic) ks b2CreateGraph))
       ++ overflow (fold_left (b2AddConstraintToGraph isDynamic) ks b2CreateGraph)
     ≡ₚ ks
  /\ colorsIndependent isDynamic
       (fold_left (b2AddConstraintToGraph isDynamic) ks b2CreateGraph).
Proof.
  destruct (createGraph_invariant isDynamic) as (Hlen & Hcover & Hind).
  destruct (graph_invariant ks Hlen Hcover Hind) as (HL & HP & HI).
  split; [exact HL|]. split; [|exact HI].
  rewrite HP.
  change (concat (colors b2CreateGraph) ++ overflow b2CreateGraph) with (@nil b2Constraint).
  rewrite app_nil_r. reflexivity.
Qed.

(** ** Warm starting on binary32

    In IEEE arithmetic a product by zero is a zero of either sign when the
    other factor is finite, and adding or subtracting a zero changes at
    most the sign of a zero: with finite inverse masses and finite anchors,
    a warm start with zero stored impulses leaves every velocity the same
    number. *)

Section Binary32Facts.

Local Open Scope fl_scope.

Lemma sameValue_refl (a : binary32) : sameValue a a.
Proof. left. reflexivity. Qed.

Lemma sameValue_trans (a b c : binary32) :
  sameValue a b -> sameValue b c -> sameValue a c.
Proof.
  intros [-> | [Ha Hb]] [<- | [Hb' Hc]]; try (left; reflexivity).
  - right. split; assumption.
  - right. split; assumption.
  - right. split; assumption.
Qed.

#[local] Instance sameVelocities_refl : Reflexive sameVelocities.
Proof. intros st. repeat split; apply sameValue_refl. Qed.

#[local] Instance sameVelocities_trans : Transitive sameVelocities.
Proof.
  intros s1 s2 s3 (A1 & A2 & A3 & A4 & A5 & A6) (B1 & B2 & B3 & B4 & B5 & B6).
  repeat split; try (eapply sameValue_trans; eassumption); congruence.
Qed.












End Binary32Facts.

(** ** Laws of the order of the two carriers *)

#[export] Instance Qc_ScalarStrict : ScalarStrict Qc.
Proof.
  constructor. intros a b. simpl. intros Hlt.
  apply negb_true_iff in Hlt. apply negb_false_iff.
  apply Qle_bool_iff.
  destruct (Qlt_le_dec b a) as [Hba | Hab]; [|exact Hab].
  exfalso. apply Qlt_le_weak in Hba. apply Qle_bool_iff in Hba. congruence.
Qed.

#[export] Instance Qc_ScalarWeakOrder : ScalarWeakOrder Qc.
Proof.
  constructor.
  - intros a b _. split; reflexivity.
  - intros a b c _ _ _. simpl. intros Hab Hbc.
    apply negb_false_iff in Hab. apply negb_false_iff in Hbc. apply negb_false_iff.
    apply Qle_bool_iff in Hab. apply Qle_bool_iff in Hbc. apply Qle_bool_iff.
    eapply Qle_trans; eassumption.
Qed.

#[export] Instance binary32_ScalarStrict : ScalarStrict binary32.
Proof.
  constructor. intros a b. simpl. unfold SFltb. intros Hlt.
  destruct (SFcompare a b) as [[| |]|] eqn:Hc; try discriminate.
  rewrite (SFcompare_Lt_Gt _ _ Hc). reflexivity.
Qed.

(** [SFltb] compares ranks. *)
Lemma SFltb_rank (a b : spec_float) :
  sf_number a -> sf_number b ->
  (SFltb a b = true <-> rank_lt (sf_rank a) (sf_rank b)).
Proof.
  destruct a as [[|]|[|]| |[|] ma ea], b as [[|]|[|]| |[|] mb eb];
    simpl; try contradiction; intros _ _; unfold SFltb; simpl;
    try (split; [intros Hx; try discriminate Hx; lia | intros Hx; try reflexivity; lia]).
  - destruct (Z.compare_spec ea eb) as [He|He|He];
      [ change (PosDef.Pos.compare_cont Eq ma mb) with (Pos.compare ma mb);
        destruct (Pos.compare_spec ma mb) as [Hm|Hm|Hm]; simpl | | ];
      (split; [intros Hx; try discriminate Hx; lia | intros Hx; try reflexivity; lia]).
  - destruct (Z.compare_spec ea eb) as [He|He|He];
      [ change (PosDef.Pos.compare_cont Eq ma mb) with (Pos.compare ma mb);
        destruct (Pos.compare_spec ma mb) as [Hm|Hm|Hm]; simpl | | ];
      (split; [intros Hx; try discriminate Hx; lia | intros Hx; try reflexivity; lia]).
Qed.

Lemma SFltb_numbers (a b : spec_float) :
  SFltb a b = true -> sf_number a /\ sf_number b.
Proof.
  unfold SFltb. destruct a, b; simpl; try discriminate; intros _; split; exact I.
Qed.

Lemma SFltb_negtrans (a b c : spec_float) :
  sf_number a -> sf_number b -> sf_number c ->
  SFltb a b = false -> SFltb b c = false -> SFltb a c = false.
Proof.
  intros Na Nb Nc Hab Hbc.
  destruct (SFltb a c) eqn:Hac; [|reflexivity]. exfalso.
  apply (SFltb_rank a c Na Nc) in Hac.
  assert (Hab' : ~ rank_lt (sf_rank a) (sf_rank b))
    by (intros Hr; apply (SFltb_rank a b Na Nb) in Hr; congruence).
  assert (Hbc' : ~ rank_lt (sf_rank b) (sf_rank c))
    by (intros Hr; apply (SFltb_rank b c Nb Nc) in Hr; congruence).
  destruct (sf_rank a) as [[x1 y1] z1], (sf_rank b) as [[x2 y2] z2],
    (sf_rank c) as [[x3 y3] z3].
  unfold rank_lt in *. lia.
Qed.

Lemma sf_number_isnan (a : binary32) : f_isnan a = false -> sf_number a.
Proof. destruct a; simpl; intros Hn; try discriminate Hn; exact I. Qed.

#[export] Instance binary32_ScalarWeakOrder : ScalarWeakOrder binary32.
Proof.
  constructor.
  - intros a b Hlt. simpl in Hlt. destruct (SFltb_numbers a b Hlt) as [Na Nb].
    destruct a, b; simpl in *; try contradiction; split; reflexivity.
  - intros a b c Na Nb Nc. simpl f_ltb.
    apply SFltb_negtrans; apply sf_number_isnan; assumption.
Qed.

(** ** The setters on valid arguments *)

Section SetterFacts.

Context {F : Type} `{Scalar F}.
Local Open Scope fl_scope.

Lemma lookup_joint_checked (asserts : bool) (joints : list (b2JointSim F)) (jointId : Z)
    (joint : b2JointSim F) :
  (0 <= jointId)%Z -> joints !! Z.to_nat jointId = Some joint ->
  type joint = b2_weldJoint ->
  b2GetJointSimCheckType asserts joints jointId b2_weldJoint = Ok joint.
Proof.
  intros Hpos Hl Hty. unfold b2GetJointSimCheckType.
  rewrite <- (Z2Nat.id jointId) by exact Hpos.
  rewrite (b2Array_Get_lookup asserts _ _ Hl). simpl.
  rewrite B2_ASSERT_holds by (rewrite Hty; reflexivity). reflexivity.
Qed.

Lemma lookup_written_checked (asserts : bool) (joints : list (b2JointSim F)) (jointId : Z)
    (joint : b2JointSim F) (w : b2WeldJoint F) :
  (0 <= jointId)%Z -> joints !! Z.to_nat jointId = Some joint ->
  type joint = b2_weldJoint ->
  b2GetJointSimCheckType asserts (writeWeld joints jointId joint w) jointId b2_weldJoint
  = Ok (set_weldJoint joint w).
Proof.
  intros Hpos Hl Hty. apply lookup_joint_checked; [exact Hpos | | exact Hty].
  unfold writeWeld. apply list_lookup_insert_eq. apply lookup_lt_Some in Hl. exact Hl.
Qed.

Lemma writeWeld_frame (joints : list (b2JointSim F)) (jointId : Z)
    (joint : b2JointSim F) (w : b2WeldJoint F) :
  (0 <= jointId)%Z ->
  onlyJointWritten joints (writeWeld joints jointId joint w) jointId.
Proof.
  intros Hpos. unfold writeWeld. split; [apply length_insert|].
  intros k Hk. apply list_lookup_insert_ne. lia.
Qed.

(** X1. In either build, each of the four setters, called on a weld joint
    with a valid argument (finite and not negative), returns; afterwards the
    getter of that parameter reports the argument and the other three
    getters report what they did before; no other joint is changed, and in
    the joint itself nothing but that parameter is. *)
Theorem weld_setters_store_valid_parameter (asserts : bool)
    (joints : list (b2JointSim F)) (jointId : Z) (joint : b2JointSim F) (v : F) :
  (0 <= jointId)%Z -> joints !! Z.to_nat jointId = Some joint ->
  type joint = b2_weldJoint ->
  b2IsValidFloat v && (v >=? 0) = true ->
  let w := weldJoint joint in
  (exists joints',
      b2WeldJoint_SetLinearHertz asserts joints jointId v = Ok joints'
      /\ weldParametersAre asserts joints' jointId
           v (linearDampingRatio w) (angularHertz w) (angularDampingRatio w)
      /\ onlyJointWritten joints joints' jointId
      /\ exists joint', joints' !! Z.to_nat jointId = Some joint' /\ sameSolverData joint joint')
  /\ (exists joints',
      b2WeldJoint_SetLinearDampingRatio asserts joints jointId v = Ok joints'
      /\ weldParametersAre asserts joints' jointId
           (linearHertz w) v (angularHertz w) (angularDampingRatio w)
      /\ onlyJointWritten joints joints' jointId
      /\ exists joint', joints' !! Z.to_nat jointId = Some joint' /\ sameSolverData joint joint')
  /\ (exists joints',
      b2WeldJoint_SetAngularHertz asserts joints jointId v = Ok joints'
      /\ weldParametersAre asserts joints' jointId
           (linearHertz w) (linearDampingRatio w) v (angularDampingRatio w)
      /\ onlyJointWritten joints joints' jointId
      /\ exists joint', joints' !! Z.to_nat jointId = Some joint' /\ sameSolverData joint joint')
  /\ (exists joints',
      b2WeldJoint_SetAngularDampingRatio asserts joints jointId v = Ok joints'
      /\ weldParametersAre asserts joints' jointId
           (linearHertz w) (linearDampingRatio w) (angularHertz w) v
      /\ onlyJointWritten joints joints' jointId
      /\ exists joint', joints' !! Z.to_nat jointId = Some joint' /\ sameSolverData joint joint').
Proof.
  intros Hpos Hl Hty Hv w.
  assert (Hlen : (Z.to_nat jointId < length joints)%nat) by (apply lookup_lt_Some in Hl; exact Hl).
  unfold b2WeldJoint_SetLinearHertz, b2WeldJoint_SetLinearDampingRatio,
    b2WeldJoint_SetAngularHertz, b2WeldJoint_SetAngularDampingRatio.
  rewrite (B2_ASSERT_holds asserts Hv). cbn [outcome_bind].
  rewrite (lookup_joint_checked asserts _ Hpos Hl Hty). cbn [outcome_bind].
  repeat split;
    (eexists; split; [reflexivity|]; split;
     [ unfold weldParametersAre, b2WeldJoint_GetLinearHertz, b2WeldJoint_GetLinearDampingRatio,
         b2WeldJoint_GetAngularHertz, b2WeldJoint_GetAngularDampingRatio;
       rewrite !(lookup_written_checked asserts _ _ Hpos Hl Hty); repeat split; reflexivity
     | split; [apply writeWeld_frame; exact Hpos|];
       eexists; split;
       [ unfold writeWeld; apply list_lookup_insert_eq; exact Hlen
       | unfold sameSolverData; simpl; repeat split; reflexivity ] ]).
Qed.

End SetterFacts.

(** ** What preparing a weld joint needs and keeps *)

Section PrepareFacts.

Context {F : Type} `{Scalar F} {SM : SolverMath F}.
Local Open Scope fl_scope.

Lemma b2Array_Get_Z {A : Type} (asserts : bool) (a : list A) (i : Z) (v : A) :
  (0 <= i)%Z -> a !! Z.to_nat i = Some v -> b2Array_Get asserts a i = Ok v.
Proof.
  intros Hpos Hl. rewrite <- (Z2Nat.id i) by exact Hpos.
  apply b2Array_Get_lookup. exact Hl.
Qed.

(** X2. [b2PrepareWeldJoint] asserts that one of the two bodies is in the
    awake set.  On a weld joint whose two bodies are both outside the awake
    set, a build with assertions stops at that assertion; a build without
    them goes on, and a prepare that returns has cached [B2_NULL_INDEX] for
    both bodies. *)
Theorem prepare_needs_an_awake_body (base : b2JointSim F) (context : b2StepContext F)
    (bA bB : b2Body) :
  type base = b2_weldJoint ->
  (0 <= bodyIdA base)%Z -> bodies (world context) !! Z.to_nat (bodyIdA base) = Some bA ->
  (0 <= bodyIdB base)%Z -> bodies (world context) !! Z.to_nat (bodyIdB base) = Some bB ->
  setIndex bA <> b2_awakeSet -> setIndex bB <> b2_awakeSet ->
  b2PrepareWeldJoint true base context = AssertFailed
  /\ forall base' : b2JointSim F,
       b2PrepareWeldJoint false base context = Ok base' ->
       indexA (weldJoint base') = B2_NULL_INDEX /\ indexB (weldJoint base') = B2_NULL_INDEX.
Proof.
  intros Hty HpA HlA HpB HlB HnA HnB.
  apply Z.eqb_neq in HnA. apply Z.eqb_neq in HnB.
  split.
  - unfold b2PrepareWeldJoint.
    rewrite B2_ASSERT_holds by (rewrite Hty; reflexivity). cbn [outcome_bind].
    rewrite (b2Array_Get_Z true _ HpA HlA). cbn [outcome_bind].
    rewrite (b2Array_Get_Z true _ HpB HlB). cbn [outcome_bind].
    rewrite HnA, HnB. reflexivity.
  - intros base' Hp.
    destruct (prepare_Ok _ _ _ Hp)
      as (bA' & bB' & _ & _ & _ & _ & HlA' & HlB' & _ & _ & _ & _ & _ & _ & -> & -> & _).
    rewrite HlA in HlA'. rewrite HlB in HlB'. inversion HlA'; inversion HlB'; subst bA' bB'.
    rewrite HnA, HnB. split; reflexivity.
Qed.

(** X3. Preparing a joint that a prepare has returned, against the same
    context, returns that joint again: a second prepare changes nothing.
    A prepare keeps the type of the joint, its two body ids, its two local
    frames, its joint softness and the four spring parameters the user
    set. *)
Theorem prepare_is_idempotent (asserts : bool) (base base' : b2JointSim F)
    (context : b2StepContext F) :
  b2PrepareWeldJoint asserts base context = Ok base' ->
  b2PrepareWeldJoint asserts base' context = Ok base'
  /\ type base' = type base
  /\ bodyIdA base' = bodyIdA base /\ bodyIdB base' = bodyIdB base
  /\ localFrameA base' = localFrameA base /\ localFrameB base' = localFrameB base
  /\ constraintSoftness base' = constraintSoftness base
  /\ linearHertz (weldJoint base') = linearHertz (weldJoint base)
  /\ linearDampingRatio (weldJoint base') = linearDampingRatio (weldJoint base)
  /\ angularHertz (weldJoint base') = angularHertz (weldJoint base)
  /\ angularDampingRatio (weldJoint base') = angularDampingRatio (weldJoint base).
Proof.
  unfold b2PrepareWeldJoint. intros Hp.
  apply outcome_bind_Ok in Hp as ([] & Hty & Hp).
  apply outcome_bind_Ok in Hp as (bA & HbA & Hp).
  apply outcome_bind_Ok in Hp as (bB & HbB & Hp).
  apply outcome_bind_Ok in Hp as ([] & Hawake & Hp).
  apply outcome_bind_Ok in Hp as (setA & HsA & Hp).
  apply outcome_bind_Ok in Hp as (setB & HsB & Hp).
  apply outcome_bind_Ok in Hp as (simA & HmA & Hp).
  apply outcome_bind_Ok in Hp as (simB & HmB & Hp).
  inversion Hp as [Hb']; clear Hp.
  cbn [type bodyIdA bodyIdB localFrameA localFrameB constraintSoftness weldJoint].
  rewrite Hty. cbn [outcome_bind]. rewrite HbA. cbn [outcome_bind]. rewrite HbB.
  cbn [outcome_bind]. rewrite Hawake. cbn [outcome_bind]. rewrite HsA. cbn [outcome_bind].
  rewrite HsB. cbn [outcome_bind]. rewrite HmA. cbn [outcome_bind]. rewrite HmB.
  cbn [outcome_bind].
  destruct (enableWarmStarting context); simpl; repeat split; reflexivity.
Qed.

(** X4. In either build [b2PrepareWeldJoint] returns when the joint is a
    weld joint, its two body ids name bodies of the world, one of the two
    is in the awake set, and each body names a solver set and a slot of
    that set.  The prepared joint has the inverse masses and inertias of
    the two body simulation records, the slot of each awake body as its
    cached index and [B2_NULL_INDEX] for a body that is not awake, the
    difference of the two centres as [deltaCenter], and at least one cached
    index that is not null. *)
Theorem prepare_returns_on_a_consistent_world (asserts : bool) (base : b2JointSim F)
    (context : b2StepContext F) (bA bB : b2Body) (setA setB : b2SolverSet F)
    (simA simB : b2BodySim F) :
  type base = b2_weldJoint ->
  (0 <= bodyIdA base)%Z -> bodies (world context) !! Z.to_nat (bodyIdA base) = Some bA ->
  (0 <= bodyIdB base)%Z -> bodies (world context) !! Z.to_nat (bodyIdB base) = Some bB ->
  setIndex bA = b2_awakeSet \/ setIndex bB = b2_awakeSet ->
  (0 <= setIndex bA)%Z -> solverSets (world context) !! Z.to_nat (setIndex bA) = Some setA ->
  (0 <= setIndex bB)%Z -> solverSets (world context) !! Z.to_nat (setIndex bB) = Some setB ->
  (0 <= localIndex bA)%Z -> bodySims setA !! Z.to_nat (localIndex bA) = Some simA ->
  (0 <= localIndex bB)%Z -> bodySims setB !! Z.to_nat (localIndex bB) = Some simB ->
  exists base' : b2JointSim F,
    b2PrepareWeldJoint asserts base context = Ok base'
    /\ invMassA base' = invMass simA /\ invIA base' = invInertia simA
    /\ invMassB base' = invMass simB /\ invIB base' = invInertia simB
    /\ indexA (weldJoint base')
        = (if (setIndex bA =? b2_awakeSet)%Z then localIndex bA else B2_NULL_INDEX)
    /\ indexB (weldJoint base')
        = (if (setIndex bB =? b2_awakeSet)%Z then localIndex bB else B2_NULL_INDEX)
    /\ deltaCenter (weldJoint base') = b2Sub (center simB) (center simA)
    /\ (indexA (weldJoint base') <> B2_NULL_INDEX \/ indexB (weldJoint base') <> B2_NULL_INDEX).
Proof.
  intros Hty HpA HlA HpB HlB Hawake HsA HlsA HsB HlsB HiA HlmA HiB HlmB.
  unfold b2PrepareWeldJoint.
  rewrite B2_ASSERT_holds by (rewrite Hty; reflexivity). cbn [outcome_bind].
  rewrite (b2Array_Get_Z asserts _ HpA HlA). cbn [outcome_bind].
  rewrite (b2Array_Get_Z asserts _ HpB HlB). cbn [outcome_bind].
  rewrite B2_ASSERT_holds
    by (apply orb_true_iff; destruct Hawake as [E|E]; [left | right]; apply Z.eqb_eq; exact E).
  cbn [outcome_bind].
  rewrite (b2Array_Get_Z asserts _ HsA HlsA). cbn [outcome_bind].
  rewrite (b2Array_Get_Z asserts _ HsB HlsB). cbn [outcome_bind].
  rewrite (b2Array_Get_Z asserts _ HiA HlmA). cbn [outcome_bind].
  rewrite (b2Array_Get_Z asserts _ HiB HlmB). cbn [outcome_bind].
  eexists. split; [reflexivity|].
  assert (Hidx : forall (bX : b2Body), setIndex bX = b2_awakeSet -> (0 <= localIndex bX)%Z ->
            (if (setIndex bX =? b2_awakeSet)%Z then localIndex bX else B2_NULL_INDEX)
            <> B2_NULL_INDEX).
  { intros bX E Hpos. rewrite E, Z.eqb_refl. unfold B2_NULL_INDEX. lia. }
  destruct (enableWarmStarting context); cbn;
    (repeat (split; [reflexivity|]));
    (destruct Hawake as [E|E]; [left | right]; apply Hidx; assumption).
Qed.

End PrepareFacts.

(** ** The passes change velocities, and the solve its two impulses *)

Section PoseFacts.

Context {F : Type} `{Scalar F} {SM : SolverMath F}.
Local Open Scope fl_scope.

Lemma samePose_refl (st : b2BodyState F) : samePose st st.
Proof. repeat split. Qed.

Lemma samePose_trans (s1 s2 s3 : b2BodyState F) :
  samePose s1 s2 -> samePose s2 s3 -> samePose s1 s3.
Proof.
  intros (A1 & A2 & A3) (B1 & B2 & B3). repeat split; congruence.
Qed.

Lemma Forall2_samePose_refl (l : list (b2BodyState F)) : Forall2 samePose l l.
Proof. induction l; constructor; [apply samePose_refl | assumption]. Qed.

Lemma Forall2_samePose_trans (l1 l2 l3 : list (b2BodyState F)) :
  Forall2 samePose l1 l2 -> Forall2 samePose l2 l3 -> Forall2 samePose l1 l3.
Proof.
  intros H12. revert l3. induction H12 as [|a b l1 l2 Hab _ IH]; intros l3 H23.
  - inversion H23. constructor.
  - inversion H23 as [|b' c l2' l3' Hbc Hrest]; subst.
    constructor; [eapply samePose_trans; eassumption | apply IH; assumption].
Qed.

Lemma insert_samePose (l : list (b2BodyState F)) (i : nat) (st st' : b2BodyState F) :
  l !! i = Some st -> samePose st st' -> Forall2 samePose l (<[i := st']> l).
Proof.
  revert i. induction l as [|a l IH]; intros i Hl Hp; [discriminate|].
  destruct i as [|i]; simpl in *.
  - inversion Hl; subst a. constructor; [exact Hp | apply Forall2_samePose_refl].
  - constructor; [apply samePose_refl | apply IH; assumption].
Qed.

(** An update by a function that keeps the pose keeps the pose of every
    slot. *)
Lemma update_samePose (m m' : @SolverFrame F) (r : StateRef)
    (f : b2BodyState F -> b2BodyState F) :
  (forall st, samePose st (f st)) ->
  update m r f = Ok m' ->
  Forall2 samePose (stateArray m) (stateArray m').
Proof.
  intros Hf Hu. apply update_Ok in Hu as (st & Hl & ->).
  destruct r as [|i]; simpl.
  - apply Forall2_samePose_refl.
  - apply load_slot_Some in Hl. apply insert_samePose with (st := st); [exact Hl | apply Hf].
Qed.

Lemma updates_samePose {B : Type} (m : @SolverFrame F) (rA rB : StateRef)
    (f1 f2 f3 f4 : b2BodyState F -> b2BodyState F)
    (k : SolverFrame -> Outcome B) (res : B) :
  (forall st, samePose st (f1 st)) -> (forall st, samePose st (f2 st)) ->
  (forall st, samePose st (f3 st)) -> (forall st, samePose st (f4 st)) ->
  (m1 <- update m rA f1 ;;
   m2 <- update m1 rA f2 ;;
   m3 <- update m2 rB f3 ;;
   m4 <- update m3 rB f4 ;;
   k m4) = Ok res ->
  exists m4, k m4 = Ok res /\ Forall2 samePose (stateArray m) (stateArray m4).
Proof.
  intros H1 H2 H3 H4 Hk.
  apply outcome_bind_Ok in Hk as (m1 & U1 & Hk).
  apply outcome_bind_Ok in Hk as (m2 & U2 & Hk).
  apply outcome_bind_Ok in Hk as (m3 & U3 & Hk).
  apply outcome_bind_Ok in Hk as (m4 & U4 & Hk).
  exists m4. split; [exact Hk|].
  eapply Forall2_samePose_trans; [eapply update_samePose; [exact H1 | exact U1]|].
  eapply Forall2_samePose_trans; [eapply update_samePose; [exact H2 | exact U2]|].
  eapply Forall2_samePose_trans; [eapply update_samePose; [exact H3 | exact U3]|].
  eapply update_samePose; [exact H4 | exact U4].
Qed.

Lemma warmStart_samePose (base : b2JointSim F) (context context' : b2StepContext F) :
  b2WarmStartWeldJoint base context = Ok context' ->
  Forall2 samePose (states context) (states context').
Proof.
  intros Hw. unfold b2WarmStartWeldJoint in Hw.
  apply outcome_bind_Ok in Hw as (rA & _ & Hw).
  apply outcome_bind_Ok in Hw as (rB & _ & Hw).
  apply outcome_bind_Ok in Hw as (a & _ & Hw).
  apply outcome_bind_Ok in Hw as (b & _ & Hw).
  apply updates_samePose in Hw as (m4 & Hk & Hpose);
    try (intros st; repeat split; reflexivity).
  inversion Hk; subst context'. exact Hpose.
Qed.

Lemma solve_samePose (asserts : bool) (base base' : b2JointSim F)
    (context context' : b2StepContext F) (useBias : bool) :
  b2SolveWeldJoint asserts base context useBias = Ok (base', context') ->
  Forall2 samePose (states context) (states context')
  /\ base' = withImpulses base (linearImpulse (weldJoint base'))
               (angularImpulse (weldJoint base')).
Proof.
  intros Hs. unfold b2SolveWeldJoint in Hs.
  apply outcome_bind_Ok in Hs as (_ & _ & Hs).
  apply outcome_bind_Ok in Hs as (rA & _ & Hs).
  apply outcome_bind_Ok in Hs as (rB & _ & Hs).
  apply outcome_bind_Ok in Hs as (a & _ & Hs).
  apply outcome_bind_Ok in Hs as (b & _ & Hs).
  apply updates_samePose in Hs as (m4 & Hk & Hpose);
    try (intros st; repeat split; reflexivity).
  inversion Hk; subst base' context'. split; [exact Hpose|].
  destruct base as [ty ia ib lfa lfb ma mb ja jb cs w]; destruct w; reflexivity.
Qed.

(** X7. On a weld joint whose cached indices are null or name slots of
    [context->states], the warm start and the solve return, and in every
    body state they change nothing but the linear and the angular velocity:
    flags, [deltaPosition] and [deltaRotation] are as before.  The solve
    changes nothing in the joint but its two accumulated impulses. *)
Theorem weld_passes_change_velocities_only (asserts : bool) (base : b2JointSim F)
    (context : b2StepContext F) (useBias : bool) :
  type base = b2_weldJoint ->
  validIndex (states context) (indexA (weldJoint base)) ->
  validIndex (states context) (indexB (weldJoint base)) ->
  (exists context',
      b2WarmStartWeldJoint base context = Ok context'
      /\ Forall2 samePose (states context) (states context'))
  /\ (exists base' context',
      b2SolveWeldJoint asserts base context useBias = Ok (base', context')
      /\ Forall2 samePose (states context) (states context')
      /\ base' = withImpulses base (linearImpulse (weldJoint base'))
                   (angularImpulse (weldJoint base'))).
Proof.
  intros Hty HvA HvB. split.
  - destruct (warmStart_frame base context HvA HvB) as (cw & Hw & _).
    exists cw. split; [exact Hw | eapply warmStart_samePose; exact Hw].
  - destruct (solve_frame asserts base context useBias Hty HvA HvB) as (bs & cs & Hs & _).
    exists bs, cs. split; [exact Hs | eapply solve_samePose; exact Hs].
Qed.

End PoseFacts.

(** ** The solve as a warm start, in exact arithmetic *)

Section SolveFacts.

Context {F : Type} `{Scalar F} {EA : ExactArith F} {SM : SolverMath F}.
Local Open Scope fl_scope.

Add Ring solve_ring : exact_ring.

(** The state of body A after one solve is its state after a warm start
    with the impulses of that solve; the same for body B. *)
Lemma solved_state_A (base : b2JointSim F) (useBias : bool) (a b : b2BodyState F) :
  let A := solveAngularImpulse base useBias a b in
  let P := solveLinearImpulse base useBias a b in
  let rA := b2RotateVector (deltaRotation a) (p (frameA (weldJoint base))) in
  set_angularVelocity
    (set_linearVelocity a (b2MulSub (linearVelocity a) (invMassA base) P))
    (angularVelocity a - invIA base * A - invIA base * b2Cross rA P)
  = warmStartedA (withImpulses base P A) a.
Proof.
  intros A P rA. unfold warmStartedA, withImpulses, set_angularVelocity, set_linearVelocity.
  simpl. f_equal. fold rA. ring.
Qed.

Lemma solved_state_B (base : b2JointSim F) (useBias : bool) (a b : b2BodyState F) :
  let A := solveAngularImpulse base useBias a b in
  let P := solveLinearImpulse base useBias a b in
  let rB := b2RotateVector (deltaRotation b) (p (frameB (weldJoint base))) in
  set_angularVelocity
    (set_linearVelocity b (b2MulAdd (linearVelocity b) (invMassB base) P))
    (angularVelocity b + invIB base * A + invIB base * b2Cross rB P)
  = warmStartedB (withImpulses base P A) b.
Proof.
  intros A P rB. unfold warmStartedB, withImpulses, set_angularVelocity, set_linearVelocity.
  simpl. f_equal. fold rB. ring.
Qed.

(** One solve through two different references. *)
Lemma solve_refs (asserts : bool) (base : b2JointSim F) (context : b2StepContext F)
    (useBias : bool) (rA rB : StateRef) (a b : b2BodyState F) :
  type base = b2_weldJoint ->
  stateRef (indexA (weldJoint base)) = Ok rA ->
  stateRef (indexB (weldJoint base)) = Ok rB ->
  rA <> rB ->
  load (frameOf context) rA = Ok a -> load (frameOf context) rB = Ok b ->
  let A := solveAngularImpulse base useBias a b in
  let P := solveLinearImpulse base useBias a b in
  b2SolveWeldJoint asserts base context useBias
  = Ok (withImpulses base (b2Add (linearImpulse (weldJoint base)) P)
          (angularImpulse (weldJoint base) + A),
        set_states context
          (stateArray (store (store (frameOf context) rA (warmStartedA (withImpulses base P A) a))
                         rB (warmStartedB (withImpulses base P A) b)))).
Proof.
  intros Hty HrA HrB Hne Ha Hb A P. subst A P.
  unfold b2SolveWeldJoint. rewrite B2_ASSERT_holds by (rewrite Hty; reflexivity).
  unfold frameOf in Ha, Hb.
  cbn [outcome_bind]. rewrite HrA, HrB. cbn [outcome_bind].
  rewrite Ha, Hb. cbn [outcome_bind].
  erewrite (updates_distinct _ _ _ _ _ _ Hne Ha Hb).
  rewrite <- (solved_state_A base useBias a b), <- (solved_state_B base useBias a b).
  reflexivity.
Qed.

(** One warm start through two different references. *)
Lemma warmStart_refs (base : b2JointSim F) (context : b2StepContext F)
    (rA rB : StateRef) (a b : b2BodyState F) :
  stateRef (indexA (weldJoint base)) = Ok rA ->
  stateRef (indexB (weldJoint base)) = Ok rB ->
  rA <> rB ->
  load (frameOf context) rA = Ok a -> load (frameOf context) rB = Ok b ->
  b2WarmStartWeldJoint base context
  = Ok (set_states context
          (stateArray (store (store (frameOf context) rA (warmStartedA base a))
                         rB (warmStartedB base b)))).
Proof.
  intros HrA HrB Hne Ha Hb.
  unfold b2WarmStartWeldJoint. unfold frameOf in Ha, Hb.
  rewrite HrA, HrB. cbn [outcome_bind]. rewrite Ha, Hb. cbn [outcome_bind].
  erewrite (updates_distinct _ _ _ _ _ _ Hne Ha Hb). reflexivity.
Qed.

(** X5. In exact arithmetic, on a weld joint whose two cached indices are
    different (two awake bodies, or an awake body and one that is not), one
    solve computes a linear impulse [P] and an angular impulse [A], adds
    them to the accumulated impulses of the joint, and leaves the context
    exactly as a warm start of the joint with [P] and [A] as its stored
    impulses would: the velocity change of a solve is the application of the
    impulse it accumulates. *)
Theorem solve_is_warm_start_of_its_impulse (asserts : bool) (base : b2JointSim F)
    (context : b2StepContext F) (useBias : bool) :
  type base = b2_weldJoint ->
  validIndex (states context) (indexA (weldJoint base)) ->
  validIndex (states context) (indexB (weldJoint base)) ->
  indexA (weldJoint base) <> indexB (weldJoint base) ->
  exists (P : b2Vec2 F) (A : F) (base' : b2JointSim F) (context' : b2StepContext F),
    b2SolveWeldJoint asserts base context useBias = Ok (base', context')
    /\ base' = withImpulses base (b2Add (linearImpulse (weldJoint base)) P)
                 (angularImpulse (weldJoint base) + A)
    /\ b2WarmStartWeldJoint (withImpulses base P A) context = Ok context'.
Proof.
  intros Hty HvA HvB Hne.
  destruct (stateRef_valid HvA) as (rA & HrA & HlA).
  destruct (stateRef_valid HvB) as (rB & HrB & HlB).
  destruct (HlA b2_identityBodyState) as [a Ha].
  destruct (HlB b2_identityBodyState) as [b Hb].
  pose proof (slots_distinct_refs HrA HrB Hne) as Hrefs.
  exists (solveLinearImpulse base useBias a b), (solveAngularImpulse base useBias a b).
  do 2 eexists. split; [apply (solve_refs asserts base context useBias Hty HrA HrB Hrefs Ha Hb)|].
  split; [reflexivity|].
  rewrite (@warmStart_refs (withImpulses base _ _) context rA rB a b HrA HrB Hrefs Ha Hb).
  reflexivity.
Qed.

(** The linear impulse of a solve without bias on a weld that is rigid in
    translation: minus the solution of [K x = Cdot]. *)
Lemma rigid_linear_impulse (base : b2JointSim F) (a b : b2BodyState F) :
  (linearHertz (weldJoint base) >? 0) = false ->
  let A := solveAngularImpulse base false a b in
  let rA := b2RotateVector (deltaRotation a) (p (frameA (weldJoint base))) in
  let rB := b2RotateVector (deltaRotation b) (p (frameB (weldJoint base))) in
  let Cdot :=
    b2Sub (b2Add (linearVelocity b) (b2CrossSV (angularVelocity b + invIB base * A) rB))
          (b2Add (linearVelocity a) (b2CrossSV (angularVelocity a - invIA base * A) rA)) in
  let sol := b2Solve22 (weldLinearK base rA rB) (b2Add Cdot b2Vec2_zero) in
  solveLinearImpulse base false a b
  = {| x := f_neg 1 * x sol - 0 * x (linearImpulse (weldJoint base));
       y := f_neg 1 * y sol - 0 * y (linearImpulse (weldJoint base)) |}.
Proof.
  intros Hrigid A rA rB Cdot sol.
  unfold solveLinearImpulse, weldLinearImpulse.
  cbn [linearHertz set_impulses orb]. rewrite Hrigid. reflexivity.
Qed.

(** X6. In exact arithmetic, take a weld joint between two different awake
    bodies that is rigid in translation (its linear Hertz is not positive)
    and a [b2Solve22] that solves the linear system of the joint's matrix
    [K].  After one solve without bias the anchor of body B has no velocity
    relative to the anchor of body A: [vB + wB x rB - vA - wA x rA = 0] for
    the velocities the solve has written. *)
Theorem rigid_weld_stops_relative_anchor_velocity (asserts : bool) (base : b2JointSim F)
    (context : b2StepContext F) (iA iB : nat) (a b : b2BodyState F) :
  type base = b2_weldJoint ->
  indexA (weldJoint base) = Z.of_nat iA -> indexB (weldJoint base) = Z.of_nat iB ->
  iA <> iB ->
  states context !! iA = Some a -> states context !! iB = Some b ->
  (linearHertz (weldJoint base) >? 0) = false ->
  (forall rhs : b2Vec2 F,
      b2MulMV (weldLinearK base
                 (b2RotateVector (deltaRotation a) (p (frameA (weldJoint base))))
                 (b2RotateVector (deltaRotation b) (p (frameB (weldJoint base)))))
              (b2Solve22
                 (weldLinearK base
                    (b2RotateVector (deltaRotation a) (p (frameA (weldJoint base))))
                    (b2RotateVector (deltaRotation b) (p (frameB (weldJoint base)))))
                 rhs)
      = rhs) ->
  exists (base' : b2JointSim F) (context' : b2StepContext F) (a' b' : b2BodyState F),
    b2SolveWeldJoint asserts base context false = Ok (base', context')
    /\ states context' !! iA = Some a' /\ states context' !! iB = Some b'
    /\ anchorVelocity (weldJoint base') a' b' = b2Vec2_zero.
Proof.
  intros Hty HiA HiB Hne Hla Hlb Hrigid Hsolve.
  assert (Ha : load (frameOf context) (StateSlot iA) = Ok a) by (apply load_slot_Some; exact Hla).
  assert (Hb : load (frameOf context) (StateSlot iB) = Ok b) by (apply load_slot_Some; exact Hlb).
  assert (Hrefs : StateSlot iA <> StateSlot iB) by congruence.
  assert (HrA : stateRef (indexA (weldJoint base)) = Ok (StateSlot iA))
    by (rewrite HiA; apply stateRef_slot).
  assert (HrB : stateRef (indexB (weldJoint base)) = Ok (StateSlot iB))
    by (rewrite HiB; apply stateRef_slot).
  do 4 eexists.
  split; [apply (solve_refs asserts base context false Hty HrA HrB Hrefs Ha Hb)|].
  split.
  { simpl. rewrite list_lookup_insert_ne by congruence.
    apply list_lookup_insert_eq. apply lookup_lt_Some in Hla. exact Hla. }
  split.
  { simpl. apply list_lookup_insert_eq. rewrite length_insert.
    apply lookup_lt_Some in Hlb. exact Hlb. }
  rewrite (rigid_linear_impulse base a b Hrigid).
  set (A := solveAngularImpulse base false a b).
  set (rA := b2RotateVector (deltaRotation a) (p (frameA (weldJoint base)))) in *.
  set (rB := b2RotateVector (deltaRotation b) (p (frameB (weldJoint base)))) in *.
  set (Cdot := b2Sub (b2Add (linearVelocity b) (b2CrossSV (angularVelocity b + invIB base * A) rB))
                     (b2Add (linearVelocity a) (b2CrossSV (angularVelocity a - invIA base * A) rA))).
  pose proof (Hsolve (b2Add Cdot b2Vec2_zero)) as Hsol.
  set (sol := b2Solve22 (weldLinearK base rA rB) (b2Add Cdot b2Vec2_zero)) in *.
  apply (f_equal x) in Hsol as Hx. apply (f_equal y) in Hsol as Hy.
  unfold b2MulMV, weldLinearK in Hx, Hy. cbn [x y cx cy b2Add b2Vec2_zero] in Hx, Hy.
  unfold anchorVelocity, warmStartedA, warmStartedB, withImpulses.
  cbn [weldJoint set_weldJoint set_impulses frameA frameB linearImpulse angularImpulse
       deltaRotation linearVelocity angularVelocity invMassA invMassB invIA invIB].
  fold rA rB.
  unfold b2Sub, b2Add, b2CrossSV, b2MulSub, b2MulAdd, b2Cross, b2Vec2_zero.
  cbn [x y]. f_equal.
  - transitivity
      ((x Cdot + 0)
       - ((invMassA base + invMassB base + y rA * y rA * invIA base + y rB * y rB * invIB base)
            * x sol
          + (- y rA * x rA * invIA base - y rB * x rB * invIB base) * y sol)).
    + unfold Cdot, b2Sub, b2Add, b2CrossSV. cbn [x y]. ring.
    + rewrite Hx. ring.
  - transitivity
      ((y Cdot + 0)
       - ((- y rA * x rA * invIA base - y rB * x rB * invIB base) * x sol
          + (invMassA base + invMassB base + x rA * x rA * invIA base + x rB * x rB * invIB base)
              * y sol)).
    + unfold Cdot, b2Sub, b2Add, b2CrossSV. cbn [x y]. ring.
    + rewrite Hy. ring.
Qed.

(** Cramer's rule, as [exampleMath] has it, solves every system whose
    determinant is not zero. *)
Lemma exampleMath_solves (K : b2Mat22 F) (rhs : b2Vec2 F) :
  let det := x (cx K) * y (cy K) - x (cy K) * y (cx K) in
  (det =? 0) = false -> det <> 0 ->
  b2MulMV K (b2Solve22 (SolverMath := exampleMath) K rhs) = rhs.
Proof.
  intros det Hdet Hnz. pose proof (exact_inv Hnz) as Hinv.
  unfold b2MulMV, b2Solve22, exampleMath. cbv zeta. fold det. rewrite Hdet.
  destruct rhs as [rx ry]. cbn [x y]. f_equal.
  - transitivity ((1 / det * det) * rx); [unfold det; ring | rewrite Hinv; ring].
  - transitivity ((1 / det * det) * ry); [unfold det; ring | rewrite Hinv; ring].
Qed.

Lemma warmStartedA_add (base : b2JointSim F) (l1 l2 : b2Vec2 F) (a1 a2 : F)
    (st : b2BodyState F) :
  warmStartedA (withImpulses base l2 a2) (warmStartedA (withImpulses base l1 a1) st)
  = warmStartedA (withImpulses base (b2Add l1 l2) (a1 + a2)) st.
Proof.
  unfold warmStartedA, withImpulses, b2MulSub, b2Add, b2Cross. simpl.
  f_equal; [f_equal|]; ring.
Qed.

Lemma warmStartedB_add (base : b2JointSim F) (l1 l2 : b2Vec2 F) (a1 a2 : F)
    (st : b2BodyState F) :
  warmStartedB (withImpulses base l2 a2) (warmStartedB (withImpulses base l1 a1) st)
  = warmStartedB (withImpulses base (b2Add l1 l2) (a1 + a2)) st.
Proof.
  unfold warmStartedB, withImpulses, b2MulAdd, b2Add, b2Cross. simpl.
  f_equal; [f_equal|]; ring.
Qed.

(** The warm start on two different slots. *)
Lemma warmStart_two_slots (base : b2JointSim F) (context : b2StepContext F)
    (iA iB : nat) (a b : b2BodyState F) :
  indexA (weldJoint base) = Z.of_nat iA -> indexB (weldJoint base) = Z.of_nat iB ->
  iA <> iB ->
  states context !! iA = Some a -> states context !! iB = Some b ->
  b2WarmStartWeldJoint base context
  = Ok (set_states context
          (<[iB := warmStartedB base b]> (<[iA := warmStartedA base a]> (states context)))).
Proof.
  intros HiA HiB Hne Hla Hlb.
  assert (Ha : load (frameOf context) (StateSlot iA) = Ok a) by (apply load_slot_Some; exact Hla).
  assert (Hb : load (frameOf context) (StateSlot iB) = Ok b) by (apply load_slot_Some; exact Hlb).
  assert (Hrefs : StateSlot iA <> StateSlot iB) by congruence.
  rewrite (@warmStart_refs base context (StateSlot iA) (StateSlot iB) a b);
    [reflexivity | rewrite HiA; apply stateRef_slot | rewrite HiB; apply stateRef_slot
     | exact Hrefs | exact Ha | exact Hb].
Qed.

(** X8. In exact arithmetic, on a weld joint between two different awake
    bodies, a warm start with stored impulses [(l1, a1)] followed by a warm
    start with [(l2, a2)] leaves the context as one warm start with
    [(l1 + l2, a1 + a2)] does: applied impulses add up. *)
Theorem warm_start_is_additive_in_the_impulse (base : b2JointSim F)
    (context : b2StepContext F) (iA iB : nat) (a b : b2BodyState F)
    (l1 l2 : b2Vec2 F) (a1 a2 : F) :
  indexA (weldJoint base) = Z.of_nat iA -> indexB (weldJoint base) = Z.of_nat iB ->
  iA <> iB ->
  states context !! iA = Some a -> states context !! iB = Some b ->
  (context1 <- b2WarmStartWeldJoint (withImpulses base l1 a1) context ;;
   b2WarmStartWeldJoint (withImpulses base l2 a2) context1)
  = b2WarmStartWeldJoint (withImpulses base (b2Add l1 l2) (a1 + a2)) context.
Proof.
  intros HiA HiB Hne Hla Hlb.
  pose proof (lookup_lt_Some _ _ _ Hla) as HltA.
  pose proof (lookup_lt_Some _ _ _ Hlb) as HltB.
  rewrite (@warmStart_two_slots (withImpulses base l1 a1) context iA iB a b HiA HiB Hne Hla Hlb).
  cbn [outcome_bind].
  rewrite (@warmStart_two_slots (withImpulses base (b2Add l1 l2) (a1 + a2)) context iA iB a b
             HiA HiB Hne Hla Hlb).
  rewrite (@warmStart_two_slots (withImpulses base l2 a2) _ iA iB
             (warmStartedA (withImpulses base l1 a1) a)
             (warmStartedB (withImpulses base l1 a1) b) HiA HiB Hne).
  - f_equal. unfold set_states. cbn [world h enableWarmStarting states]. f_equal.
    rewrite warmStartedA_add, warmStartedB_add.
    rewrite (list_insert_insert_ne _ iA iB) by exact Hne.
    rewrite !list_insert_insert_eq. reflexivity.
  - cbn [states set_states]. rewrite list_lookup_insert_ne by congruence.
    apply list_lookup_insert_eq. exact HltA.
  - cbn [states set_states]. apply list_lookup_insert_eq. rewrite length_insert. exact HltB.
Qed.

(** Equal and opposite angular impulses leave the sum of the spin momenta
    to the moments of the linear impulse. *)
Lemma spin_exchange (iA iB wA wB tA tB A : F) :
  iA <> 0 -> iB <> 0 ->
  1 / iA * (wA - iA * (tA + A)) + 1 / iB * (wB + iB * (tB + A))
  = 1 / iA * wA + 1 / iB * wB + (tB - tA).
Proof.
  intros HA HB. pose proof (exact_inv HA) as EA1. pose proof (exact_inv HB) as EB1.
  transitivity (1 / iA * wA + 1 / iB * wB
                + (1 / iB * iB) * (tB + A) - (1 / iA * iA) * (tA + A)); [ring|].
  rewrite EA1, EB1. ring.
Qed.

(** X16. In exact arithmetic, on a weld joint between two different awake
    bodies that can rotate, one solve changes the angular velocity of body A
    by [- invIA * (cross(rA, P) + A)] and that of body B by
    [+ invIB * (cross(rB, P) + A)], where [P] and [A] are the linear and the
    angular impulse it computes and adds to the joint.  The angular impulse
    acts on the two bodies in equal and opposite amounts: the sum of the two
    spin angular momenta changes by the moments of the linear impulse
    alone, [cross(rB, P) - cross(rA, P)]. *)
Theorem weld_angular_impulse_is_equal_and_opposite (asserts : bool) (base : b2JointSim F)
    (context : b2StepContext F) (useBias : bool) (iA iB : nat) (a b : b2BodyState F) :
  type base = b2_weldJoint ->
  indexA (weldJoint base) = Z.of_nat iA -> indexB (weldJoint base) = Z.of_nat iB ->
  iA <> iB ->
  states context !! iA = Some a -> states context !! iB = Some b ->
  (0 <? invIA base) = true -> (0 <? invIB base) = true ->
  let rA := b2RotateVector (deltaRotation a) (p (frameA (weldJoint base))) in
  let rB := b2RotateVector (deltaRotation b) (p (frameB (weldJoint base))) in
  exists (P : b2Vec2 F) (A : F) (base' : b2JointSim F) (context' : b2StepContext F)
         (a' b' : b2BodyState F),
    b2SolveWeldJoint asserts base context useBias = Ok (base', context')
    /\ angularImpulse (weldJoint base') = angularImpulse (weldJoint base) + A
    /\ linearImpulse (weldJoint base') = b2Add (linearImpulse (weldJoint base)) P
    /\ states context' !! iA = Some a' /\ states context' !! iB = Some b'
    /\ angularVelocity a' = angularVelocity a - invIA base * (b2Cross rA P + A)
    /\ angularVelocity b' = angularVelocity b + invIB base * (b2Cross rB P + A)
    /\ spinMomentum base a' b' = spinMomentum base a b + (b2Cross rB P - b2Cross rA P).
Proof.
  intros Hty HiA HiB Hne Hla Hlb HpA HpB rA rB.
  apply positive_nonzero in HpA. apply positive_nonzero in HpB.
  assert (Ha : load (frameOf context) (StateSlot iA) = Ok a) by (apply load_slot_Some; exact Hla).
  assert (Hb : load (frameOf context) (StateSlot iB) = Ok b) by (apply load_slot_Some; exact Hlb).
  assert (Hrefs : StateSlot iA <> StateSlot iB) by congruence.
  assert (HrA : stateRef (indexA (weldJoint base)) = Ok (StateSlot iA))
    by (rewrite HiA; apply stateRef_slot).
  assert (HrB : stateRef (indexB (weldJoint base)) = Ok (StateSlot iB))
    by (rewrite HiB; apply stateRef_slot).
  exists (solveLinearImpulse base useBias a b), (solveAngularImpulse base useBias a b).
  do 4 eexists.
  split; [apply (solve_refs asserts base context useBias Hty HrA HrB Hrefs Ha Hb)|].
  split; [reflexivity|]. split; [reflexivity|].
  split.
  { simpl. rewrite list_lookup_insert_ne by congruence.
    apply list_lookup_insert_eq. apply lookup_lt_Some in Hla. exact Hla. }
  split.
  { simpl. apply list_lookup_insert_eq. rewrite length_insert.
    apply lookup_lt_Some in Hlb. exact Hlb. }
  split; [reflexivity|]. split; [reflexivity|].
  unfold spinMomentum, warmStartedA, warmStartedB, withImpulses.
  cbn [angularVelocity weldJoint set_weldJoint set_impulses frameA frameB linearImpulse
       angularImpulse invIA invIB deltaRotation].
  fold rA rB. apply spin_exchange; assumption.
Qed.

End SolveFacts.

(** ** The cast callbacks of the collision sample *)

Section CallbackFacts.

Import CollisionSample.

Context {F : Type} `{Scalar F}.
Local Open Scope fl_scope.

(** X9. Each of the four cast callbacks, given a shape whose user data is
    marked [ignore] or a hit of fraction zero (an initial overlap), returns
    -1 and leaves the context as it was, in either build and whatever the
    context holds. *)
Theorem cast_callbacks_skip_filtered_hits (asserts : bool)
    (shapeUserData : gmap Z ShapeUserData) (shapeId : Z) (point normal : b2Vec2 F)
    (fraction : F) (rayContext : CastContext F) :
  (exists u, shapeUserData !! shapeId = Some u /\ ignore u = true)
  \/ (fraction =? 0) = true ->
  RayCastClosestCallback shapeUserData shapeId point normal fraction rayContext
    = Ok (f_neg 1, rayContext)
  /\ RayCastAnyCallback shapeUserData shapeId point normal fraction rayContext
    = Ok (f_neg 1, rayContext)
  /\ RayCastMultipleCallback asserts shapeUserData shapeId point normal fraction rayContext
    = Ok (f_neg 1, rayContext)
  /\ RayCastSortedCallback asserts shapeUserData shapeId point normal fraction rayContext
    = Ok (f_neg 1, rayContext).
Proof.
  intros Hskip.
  assert (Hguard :
    match shapeUserData !! shapeId with Some u => ignore u | None => false end
    || (fraction =? 0) = true).
  { destruct Hskip as [(u & -> & ->) | ->]; [reflexivity | apply orb_true_r]. }
  unfold RayCastClosestCallback, RayCastAnyCallback, RayCastMultipleCallback,
    RayCastSortedCallback, b2Shape_GetUserData.
  cbv zeta. rewrite Hguard. repeat split; reflexivity.
Qed.

(** X10. [RayCastMultipleCallback], called for up to three hits it does
    not skip on a context whose count is zero, returns each time, stores the
    hits in the slots in the order of arrival, leaves the remaining slots
    as they were, and counts the hits; it returns 1 (go on without clipping)
    for the first and the second hit and 0 (terminate the cast) for the
    third. *)
Theorem multiple_callback_collects_in_arrival_order (asserts : bool)
    (shapeUserData : gmap Z ShapeUserData) (hits : list (Hit F))
    (rayContext : CastContext F) :
  Forall (acceptedHit shapeUserData) hits ->
  (length hits <= 3)%nat ->
  count rayContext = 0%Z ->
  exists (rets : list F) (rayContext' : CastContext F),
    callForEach (RayCastMultipleCallback asserts shapeUserData) hits rayContext
      = Ok (rets, rayContext')
    /\ count rayContext' = Z.of_nat (length hits)
    /\ take (length hits) (slots rayContext') = map slotOf hits
    /\ drop (length hits) (slots rayContext') = drop (length hits) (slots rayContext)
    /\ rets = take (length hits) [1; 1; 0].
Proof.
  intros Hacc Hlen Hc.
  destruct rayContext as [[p0 p1 p2] [n0 n1 n2] [f0 f1 f2] c]. simpl in Hc. subst c.
  destruct hits as [|h1 [|h2 [|h3 [|h4 rest]]]]; simpl in Hlen; try lia.
  - do 2 eexists. split; [reflexivity|]. repeat split; reflexivity.
  - inversion Hacc as [|? ? A1 _]; subst.
    unfold acceptedHit, skipsHit in A1.
    cbn [callForEach]. unfold RayCastMultipleCallback, b2Shape_GetUserData, c_assert.
    cbv zeta. rewrite A1.
    destruct asserts; cbn;
      do 2 eexists; (split; [reflexivity|]); repeat split; reflexivity.
  - inversion Hacc as [|? ? A1 Hacc']; subst. inversion Hacc' as [|? ? A2 _]; subst.
    unfold acceptedHit, skipsHit in A1, A2.
    cbn [callForEach]. unfold RayCastMultipleCallback, b2Shape_GetUserData, c_assert.
    cbv zeta. rewrite A1.
    destruct asserts; cbn; rewrite A2; cbn;
      do 2 eexists; (split; [reflexivity|]); repeat split; reflexivity.
  - inversion Hacc as [|? ? A1 Hacc']; subst. inversion Hacc' as [|? ? A2 Hacc'']; subst.
    inversion Hacc'' as [|? ? A3 _]; subst.
    unfold acceptedHit, skipsHit in A1, A2, A3.
    cbn [callForEach]. unfold RayCastMultipleCallback, b2Shape_GetUserData, c_assert.
    cbv zeta. rewrite A1.
    destruct asserts; cbn; rewrite A2; cbn; rewrite A3; cbn;
      do 2 eexists; (split; [reflexivity|]); repeat split; reflexivity.
Qed.

End CallbackFacts.

Section CallbackOverrun.

Import CollisionSample.

Context {F : Type} `{Scalar F}.
Local Open Scope fl_scope.

Variable shapeUserData : gmap Z ShapeUserData.

(** X11. [RayCastMultipleCallback] relies on the cast being terminated
    once the buffer is full: called with a hit it does not skip on a context
    whose count is already three or more, it stops at [assert( count < 3 )]
    in a build with assertions, and writes outside the three-element arrays
    in a build without. *)
Theorem multiple_callback_overruns_a_full_buffer (h : Hit F) (rayContext : CastContext F) :
  acceptedHit shapeUserData h ->
  (3 <= count rayContext)%Z ->
  RayCastMultipleCallback true shapeUserData
    (hitShape h) (hitPoint h) (hitNormal h) (hitFraction h) rayContext = AssertFailed
  /\ RayCastMultipleCallback false shapeUserData
    (hitShape h) (hitPoint h) (hitNormal h) (hitFraction h) rayContext = Undefined.
Proof.
  intros Hacc Hc. unfold acceptedHit, skipsHit in Hacc.
  unfold RayCastMultipleCallback, b2Shape_GetUserData, c_assert. cbv zeta.
  rewrite Hacc.
  assert (Hlt : (count rayContext <? 3)%Z = false) by (apply Z.ltb_ge; lia).
  rewrite Hlt. split; [reflexivity|]. cbn [andb outcome_bind].
  unfold array3_set.
  destruct (count rayContext =? 0)%Z eqn:E0; [apply Z.eqb_eq in E0; lia|].
  destruct (count rayContext =? 1)%Z eqn:E1; [apply Z.eqb_eq in E1; lia|].
  destruct (count rayContext =? 2)%Z eqn:E2; [apply Z.eqb_eq in E2; lia|].
  reflexivity.
Qed.

End CallbackOverrun.

(** ** The closest and the any callback *)

Section ClosestFacts.

Import CollisionSample.

Context {F : Type} `{Scalar F}.
Local Open Scope fl_scope.

Variable shapeUserData : gmap Z ShapeUserData.

Lemma closest_any_step (h : Hit F) (rayContext : CastContext F) :
  let rayContext' :=
    {| points := {| at0 := hitPoint h; at1 := at1 (points rayContext);
                    at2 := at2 (points rayContext) |};
       normals := {| at0 := hitNormal h; at1 := at1 (normals rayContext);
                     at2 := at2 (normals rayContext) |};
       fractions := {| at0 := hitFraction h; at1 := at1 (fractions rayContext);
                       at2 := at2 (fractions rayContext) |};
       count := 1 |} in
  RayCastClosestCallback shapeUserData
    (hitShape h) (hitPoint h) (hitNormal h) (hitFraction h) rayContext
  = (if skipsHit shapeUserData h then Ok (f_neg 1, rayContext)
     else Ok (hitFraction h, rayContext'))
  /\ RayCastAnyCallback shapeUserData
       (hitShape h) (hitPoint h) (hitNormal h) (hitFraction h) rayContext
     = (if skipsHit shapeUserData h then Ok (f_neg 1, rayContext) else Ok (0, rayContext')).
Proof.
  intros rayContext'. subst rayContext'.
  unfold RayCastClosestCallback, RayCastAnyCallback, b2Shape_GetUserData, skipsHit. cbv zeta.
  destruct (match shapeUserData !! hitShape h with Some u => ignore u | None => false end
            || (hitFraction h =? 0)); split; reflexivity.
Qed.

(** X15. [RayCastClosestCallback] and [RayCastAnyCallback], called in
    turn for any list of hits, return every time and leave the same
    context: unchanged when every hit was skipped, and otherwise with count
    1 and the last hit not skipped in the first slot, the other two slots as
    they were.  For a skipped hit both return -1; for any other hit the
    closest callback returns the fraction of the hit (clip the ray to it)
    and the any callback returns 0 (terminate the cast). *)
Theorem closest_and_any_callbacks_keep_the_last_hit (hits : list (Hit F))
    (rayContext : CastContext F) :
  exists rayContext' : CastContext F,
    callForEach (RayCastClosestCallback shapeUserData) hits rayContext
      = Ok (map (fun h => if skipsHit shapeUserData h then f_neg 1 else hitFraction h) hits,
            rayContext')
    /\ callForEach (RayCastAnyCallback shapeUserData) hits rayContext
      = Ok (map (fun h => if skipsHit shapeUserData h then f_neg 1 else 0) hits, rayContext')
    /\ match last (List.filter (fun h => negb (skipsHit shapeUserData h)) hits) with
       | None => rayContext' = rayContext
       | Some h =>
           count rayContext' = 1%Z
           /\ slots rayContext' = slotOf h :: drop 1 (slots rayContext)
       end.
Proof.
  revert rayContext. induction hits as [|h hits IH]; intros rayContext.
  - exists rayContext. repeat split; reflexivity.
  - destruct (closest_any_step h rayContext) as [Hc Ha].
    cbn [callForEach map List.filter]. rewrite Hc, Ha.
    destruct (skipsHit shapeUserData h) eqn:Hskip; cbn [negb outcome_bind snd fst].
    + destruct (IH rayContext) as (ctx' & Hcs & Has & Hlast).
      exists ctx'. rewrite Hcs, Has. cbn [outcome_bind snd fst].
      split; [reflexivity|]. split; [reflexivity | exact Hlast].
    + match goal with
      | |- context [callForEach _ hits ?c] => destruct (IH c) as (ctx' & Hcs & Has & Hlast)
      end.
      exists ctx'. rewrite Hcs, Has. cbn [outcome_bind snd fst].
      split; [reflexivity|]. split; [reflexivity|].
      rewrite last_cons.
      destruct (last (List.filter (fun h0 => negb (skipsHit shapeUserData h0)) hits))
        as [l|].
      * destruct Hlast as [Hcount Hslots]. split; [exact Hcount|].
        rewrite Hslots. reflexivity.
      * subst ctx'. split; reflexivity.
Qed.

End ClosestFacts.

(** ** The sorted callback *)

Section SortedFacts.

Import CollisionSample.

Context {F : Type} `{Scalar F} {SS : ScalarStrict F}.
Local Open Scope fl_scope.

Lemma f_ltb_irrefl (a : F) : (a <? a) = false.
Proof.
  destruct (a <? a) eqn:E; [|reflexivity].
  pose proof (f_ltb_asym _ _ E) as E'. congruence.
Qed.

Lemma c_assert_holds (asserts cond : bool) : cond = true -> c_assert asserts cond = Ok tt.
Proof. intros ->. unfold c_assert. rewrite andb_false_r. reflexivity. Qed.

Lemma sortedIndex_three (fraction f0 f1 f2 : F) :
  sortedIndex fraction {| at0 := f0; at1 := f1; at2 := f2 |} 3
  = Ok (if fraction <? f2
        then if fraction <? f1 then if fraction <? f0 then 0%Z else 1%Z else 2%Z
        else 3%Z).
Proof.
  cbv [sortedIndex array3_get outcome_bind Z.of_nat Pos.of_succ_nat Pos.succ Z.eqb Pos.eqb
       at0 at1 at2].
  destruct (fraction <? f2), (fraction <? f1), (fraction <? f0); reflexivity.
Qed.

(** The callback on a hit closer than the last slot: where it inserts. *)
Lemma sorted_step_cases (asserts : bool) (shapeUserData : gmap Z ShapeUserData)
    (h : Hit F) (p0 p1 p2 n0 n1 n2 : b2Vec2 F) (f0 f1 f2 : F) (c : Z) :
  acceptedHit shapeUserData h ->
  (c <= 3)%Z ->
  (hitFraction h <? f2) = true ->
  let c' := (if (c <? 3)%Z then c + 1 else 3)%Z in
  let call :=
    RayCastSortedCallback asserts shapeUserData
      (hitShape h) (hitPoint h) (hitNormal h) (hitFraction h)
      {| points := {| at0 := p0; at1 := p1; at2 := p2 |};
         normals := {| at0 := n0; at1 := n1; at2 := n2 |};
         fractions := {| at0 := f0; at1 := f1; at2 := f2 |};
         count := c |} in
  ((hitFraction h <? f1) = false
   /\ call = Ok ((if (c' =? 3)%Z then hitFraction h else 1),
                 {| points := {| at0 := p0; at1 := p1; at2 := hitPoint h |};
                    normals := {| at0 := n0; at1 := n1; at2 := hitNormal h |};
                    fractions := {| at0 := f0; at1 := f1; at2 := hitFraction h |};
                    count := c' |}))
  \/ ((hitFraction h <? f1) = true /\ (hitFraction h <? f0) = false
      /\ call = Ok ((if (c' =? 3)%Z then f1 else 1),
                    {| points := {| at0 := p0; at1 := hitPoint h; at2 := p1 |};
                       normals := {| at0 := n0; at1 := hitNormal h; at2 := n1 |};
                       fractions := {| at0 := f0; at1 := hitFraction h; at2 := f1 |};
                       count := c' |}))
  \/ ((hitFraction h <? f1) = true /\ (hitFraction h <? f0) = true
      /\ call = Ok ((if (c' =? 3)%Z then f1 else 1),
                    {| points := {| at0 := hitPoint h; at1 := p0; at2 := p1 |};
                       normals := {| at0 := hitNormal h; at1 := n0; at2 := n1 |};
                       fractions := {| at0 := hitFraction h; at1 := f0; at2 := f1 |};
                       count := c' |})).
Proof.
  intros Hacc Hc Hlt c' call. unfold acceptedHit, skipsHit in Hacc.
  subst call c'. unfold RayCastSortedCallback, b2Shape_GetUserData. cbv zeta.
  rewrite Hacc. cbn [count fractions].
  rewrite (c_assert_holds asserts) by (apply Z.leb_le; exact Hc).
  cbn [outcome_bind]. rewrite sortedIndex_three, Hlt.
  destruct (hitFraction h <? f1) eqn:E1; [destruct (hitFraction h <? f0) eqn:E0|].
  - right; right. split; [reflexivity|]. split; [reflexivity|].
    cbn. destruct (c <? 3)%Z; [destruct (c + 1 =? 3)%Z|]; reflexivity.
  - right; left. split; [reflexivity|]. split; [reflexivity|].
    cbn. destruct (c <? 3)%Z; [destruct (c + 1 =? 3)%Z|]; reflexivity.
  - left. split; [reflexivity|].
    cbn. destruct (c <? 3)%Z; [destruct (c + 1 =? 3)%Z|]; reflexivity.
Qed.

(** X12. [RayCastSortedCallback], given a hit it does not skip that is
    closer than the hit of the last slot, on a context whose fractions
    ascend and whose count is at most three, returns; the fractions of the
    new context ascend; its three slots together with the old last slot are
    the new hit and the old three slots, each point and normal with its
    fraction; the last fraction has not grown; the count has grown by one,
    up to three; and the value returned is the last fraction once the count
    is three, and 1 before.  This holds for every carrier whose [<] is
    asymmetric, IEEE comparisons included. *)
Theorem sorted_callback_inserts_in_order (asserts : bool)
    (shapeUserData : gmap Z ShapeUserData) (h : Hit F) (rayContext : CastContext F) :
  acceptedHit shapeUserData h ->
  (count rayContext <= 3)%Z ->
  ascending (fractions rayContext) ->
  (hitFraction h <? at2 (fractions rayContext)) = true ->
  exists (ret : F) (rayContext' : CastContext F),
    RayCastSortedCallback asserts shapeUserData
      (hitShape h) (hitPoint h) (hitNormal h) (hitFraction h) rayContext
      = Ok (ret, rayContext')
    /\ ascending (fractions rayContext')
    /\ slots rayContext'
         ++ [(at2 (points rayContext), at2 (normals rayContext), at2 (fractions rayContext))]
       ≡ₚ slotOf h :: slots rayContext
    /\ (at2 (fractions rayContext) <? at2 (fractions rayContext')) = false
    /\ count rayContext'
       = (if (count rayContext <? 3)%Z then count rayContext + 1 else 3)%Z
    /\ ret = (if (count rayContext' =? 3)%Z then at2 (fractions rayContext') else 1).
Proof.
  intros Hacc Hc [Ha1 Ha2] Hlt.
  destruct rayContext as [[p0 p1 p2] [n0 n1 n2] [f0 f1 f2] c].
  cbn [count fractions points normals at0 at1 at2] in *.
  destruct (@sorted_step_cases asserts shapeUserData h p0 p1 p2 n0 n1 n2 f0 f1 f2 c Hacc Hc Hlt)
    as [(E1 & Hcall) | [(E1 & E0 & Hcall) | (E1 & E0 & Hcall)]];
    rewrite Hcall; do 2 eexists; (split; [reflexivity|]);
    cbn [count fractions points normals at0 at1 at2 slots].
  - split; [split; assumption|].
    split; [symmetry; apply (Permutation_middle [_; _] [_])|].
    split; [apply f_ltb_asym; exact Hlt|]. split; reflexivity.
  - split; [split; [exact E0 | apply f_ltb_asym; exact E1]|].
    split; [symmetry; apply (Permutation_middle [_] [_; _])|].
    split; [exact Ha2|]. split; reflexivity.
  - split; [split; [apply f_ltb_asym; exact E0 | exact Ha1]|].
    split; [reflexivity|].
    split; [exact Ha2|]. split; reflexivity.
Qed.

End SortedFacts.

Section SortedSequence.

Import CollisionSample.

Context {F : Type} `{Scalar F} {SS : ScalarStrict F} {SW : ScalarWeakOrder F}.
Local Open Scope fl_scope.

Variable asserts : bool.
Variable shapeUserData : gmap Z ShapeUserData.
Variable FLT_MAX : F.

Lemma dropped_not_closer (dropped : list (b2Vec2 F * b2Vec2 F * F)) (f2 f2' : F) :
  Forall (fun d => f_isnan (snd d) = false) dropped ->
  f_isnan f2 = false -> f_isnan f2' = false ->
  Forall (fun d => (snd d <? f2) = false) dropped ->
  (f2 <? f2') = false ->
  Forall (fun d => (snd d <? f2') = false) dropped.
Proof.
  intros HN N2 N2' HD Hf. induction HD as [|d D Hd HD IH]; [constructor|].
  pose proof (List.Forall_inv HN) as Nd. pose proof (List.Forall_inv_tail HN) as ND.
  constructor; [|exact (IH ND)].
  exact (f_ltb_negtrans _ _ _ Nd N2 N2' Hd Hf).
Qed.

Lemma keepsClosest_initial : keepsClosest FLT_MAX [] (initialCastContext FLT_MAX).
Proof.
  unfold keepsClosest, initialCastContext, ascending, emptySlot. cbn.
  repeat split; try reflexivity; try (apply f_ltb_irrefl); try lia.
  exists []. split; [reflexivity | constructor].
Qed.

(** One call keeps what the sorted callback maintains. *)
Lemma keepsClosest_step (acc : list (Hit F)) (h : Hit F) (rayContext : CastContext F) :
  keepsClosest FLT_MAX acc rayContext ->
  Forall (fun a => f_isnan (hitFraction a) = false) acc ->
  acceptedHit shapeUserData h ->
  (hitFraction h <? FLT_MAX) = true ->
  (hitFraction h <=? 1) = true ->
  exists (ret : F) (rayContext' : CastContext F),
    RayCastSortedCallback asserts shapeUserData
      (hitShape h) (hitPoint h) (hitNormal h) (hitFraction h) rayContext
      = Ok (ret, rayContext')
    /\ keepsClosest FLT_MAX (acc ++ [h]) rayContext'.
Proof.
  intros Hinv Hnum Hacc HltM Hle1.
  destruct rayContext as [[p0 p1 p2] [n0 n1 n2] [f0 f1 f2] c].
  unfold keepsClosest in Hinv. cbn [count fractions points normals at0 at1 at2 slots] in Hinv.
  destruct Hinv as (Hcount & [Ha1 Ha2] & He0 & He1 & He2 & Hl0 & Hl1 & Hl2 & D & Hperm & HD).
  destruct (f_ltb_numbers _ _ HltM) as [Nh NM].
  assert (HN : Forall (fun d : b2Vec2 F * b2Vec2 F * F => f_isnan (snd d) = false)
                 ([(p0, n0, f0); (p1, n1, f1); (p2, n2, f2)] ++ D)).
  { rewrite Hperm. apply Forall_app. split.
    - apply List.Forall_map. exact Hnum.
    - repeat constructor; exact NM. }
  apply Forall_app in HN. destruct HN as [HN3 ND].
  pose proof (List.Forall_inv HN3) as N0.
  pose proof (List.Forall_inv (List.Forall_inv_tail HN3)) as N1.
  pose proof (List.Forall_inv (List.Forall_inv_tail (List.Forall_inv_tail HN3))) as N2.
  cbn [snd] in N0, N1, N2. clear HN3.
  assert (Hc3 : (c <= 3)%Z) by lia.
  assert (Hc0 : (0 <= c)%Z) by lia.
  assert (Hperm' : forall l' D',
             l' ++ D' ≡ₚ slotOf h :: [(p0, n0, f0); (p1, n1, f1); (p2, n2, f2)] ++ D ->
             l' ++ D' ≡ₚ map slotOf (acc ++ [h]) ++ replicate 3 (emptySlot FLT_MAX)).
  { intros l' D' HP. rewrite HP. rewrite Hperm. rewrite map_app. cbn [map].
    rewrite <- (assoc_L app). rewrite (Permutation_app_comm [slotOf h]).
    rewrite (assoc_L app). apply Permutation_cons_append. }
  assert (Hlen : length (acc ++ [h]) = S (length acc))
    by (rewrite length_app; simpl; lia).
  destruct (hitFraction h <? f2) eqn:Hlt.
  - (* the hit is closer than the last slot *)
    destruct (@sorted_step_cases _ _ asserts shapeUserData h p0 p1 p2 n0 n1 n2 f0 f1 f2 c
                Hacc Hc3 Hlt)
      as [(E1 & Hcall) | [(E1 & E0 & Hcall) | (E1 & E0 & Hcall)]];
      rewrite Hcall; do 2 eexists; (split; [reflexivity|]);
      unfold keepsClosest; cbn [count fractions points normals at0 at1 at2 slots].
    + (* after the second slot *)
      assert (Hc2 : (2 <= c)%Z).
      { destruct (Z_le_gt_dec c 1) as [Hle|]; [|lia].
        specialize (He1 Hle). inversion He1; subst. congruence. }
      assert (Hc' : (if (c <? 3)%Z then (c + 1)%Z else 3%Z) = 3%Z)
        by (destruct (c <? 3)%Z eqn:E; [apply Z.ltb_lt in E; lia | reflexivity]).
      rewrite Hc'. rewrite Hlen.
      split; [lia|]. split; [split; assumption|].
      split; [lia|]. split; [lia|]. split; [lia|].
      split; [intros _; apply Hl0; lia|]. split; [intros _; apply Hl1; lia|].
      split; [intros _; exact Hle1|].
      exists ((p2, n2, f2) :: D). split.
      * apply Hperm'. cbn [app]. symmetry.
        apply (Permutation_middle [_; _] (_ :: D)).
      * constructor; [simpl; apply f_ltb_asym; exact Hlt|].
        exact (@dropped_not_closer D f2 (hitFraction h) ND N2 Nh HD (f_ltb_asym _ _ Hlt)).
    + (* after the first slot *)
      assert (Hc1 : (1 <= c)%Z).
      { destruct (Z_le_gt_dec c 0) as [Hle|]; [|lia].
        specialize (He0 Hle). inversion He0; subst. congruence. }
      assert (Hc' : (if (c <? 3)%Z then (c + 1)%Z else 3%Z) = Z.min 3 (c + 1))
        by (destruct (c <? 3)%Z eqn:E; [apply Z.ltb_lt in E | apply Z.ltb_ge in E]; lia).
      rewrite Hc'. rewrite Hlen.
      split; [lia|]. split; [split; [exact E0 | apply f_ltb_asym; exact E1]|].
      split; [lia|]. split; [lia|].
      split.
      { intros Hle. assert (Hle' : (c <= 1)%Z) by lia.
        specialize (He1 Hle'). inversion He1; subst. reflexivity. }
      split; [intros _; apply Hl0; lia|]. split; [intros _; exact Hle1|].
      split; [intros Hge; apply Hl1; lia|].
      exists ((p2, n2, f2) :: D). split.
      * apply Hperm'. cbn [app]. symmetry.
        apply (Permutation_middle [_] (_ :: _ :: D)).
      * constructor; [simpl; exact Ha2|].
        exact (@dropped_not_closer D f2 f1 ND N2 N1 HD Ha2).
    + (* before the first slot *)
      assert (Hc' : (if (c <? 3)%Z then (c + 1)%Z else 3%Z) = Z.min 3 (c + 1))
        by (destruct (c <? 3)%Z eqn:E; [apply Z.ltb_lt in E | apply Z.ltb_ge in E]; lia).
      rewrite Hc'. rewrite Hlen.
      split; [lia|]. split; [split; [apply f_ltb_asym; exact E0 | exact Ha1]|].
      split; [lia|].
      split.
      { intros Hle. assert (Hle' : (c <= 0)%Z) by lia.
        specialize (He0 Hle'). inversion He0; subst. reflexivity. }
      split.
      { intros Hle. assert (Hle' : (c <= 1)%Z) by lia.
        specialize (He1 Hle'). inversion He1; subst. reflexivity. }
      split; [intros _; exact Hle1|].
      split; [intros Hge; apply Hl0; lia|].
      split; [intros Hge; apply Hl1; lia|].
      exists ((p2, n2, f2) :: D). split.
      * apply Hperm'. reflexivity.
      * constructor; [simpl; exact Ha2|].
        exact (@dropped_not_closer D f2 f1 ND N2 N1 HD Ha2).
  - (* the hit is not closer than the last slot: the buffer is full *)
    assert (Hfull : c = 3%Z).
    { destruct (Z_le_gt_dec c 2) as [Hle|]; [|lia].
      specialize (He2 Hle). inversion He2; subst. congruence. }
    rewrite Hfull in *. specialize (Hl2 ltac:(lia)).
    exists f2. eexists. split.
    + unfold acceptedHit, skipsHit in Hacc.
      unfold RayCastSortedCallback, b2Shape_GetUserData. cbv zeta.
      rewrite Hacc. cbn [count fractions].
      rewrite (c_assert_holds asserts (cond := (3 <=? 3)%Z) eq_refl).
      cbn [outcome_bind]. rewrite sortedIndex_three, Hlt.
      cbn [outcome_bind Z.eqb Pos.eqb].
      rewrite (c_assert_holds asserts (cond := true) eq_refl).
      change (array3_get {| at0 := f0; at1 := f1; at2 := f2 |} 2) with (Ok f2).
      cbn [outcome_bind].
      rewrite (c_assert_holds asserts Hl2).
      reflexivity.
    + unfold keepsClosest; cbn [count fractions points normals at0 at1 at2 slots].
      rewrite Hlen.
      split; [lia|]. split; [split; assumption|].
      split; [lia|]. split; [lia|]. split; [lia|].
      split; [intros _; apply Hl0; lia|]. split; [intros _; apply Hl1; lia|].
      split; [intros _; exact Hl2|].
      exists (slotOf h :: D). split.
      * apply Hperm'. symmetry.
        apply (Permutation_middle [_; _; _] D).
      * constructor; [exact Hlt | exact HD].
Qed.

Lemma keepsClosest_sequence (hits acc : list (Hit F)) (rayContext : CastContext F) :
  keepsClosest FLT_MAX acc rayContext ->
  Forall (fun a => f_isnan (hitFraction a) = false) acc ->
  Forall (fun h => acceptedHit shapeUserData h
                   /\ (hitFraction h <? FLT_MAX) = true
                   /\ (hitFraction h <=? 1) = true) hits ->
  exists (rets : list F) (rayContext' : CastContext F),
    callForEach (RayCastSortedCallback asserts shapeUserData) hits rayContext
      = Ok (rets, rayContext')
    /\ keepsClosest FLT_MAX (acc ++ hits) rayContext'.
Proof.
  revert acc rayContext.
  induction hits as [|h hits IH]; intros acc rayContext Hinv Hnum Hall.
  - exists [], rayContext. split; [reflexivity|]. rewrite app_nil_r. exact Hinv.
  - inversion Hall as [|? ? (Hacc & HltM & Hle1) Hall']; subst.
    destruct (keepsClosest_step Hinv Hnum Hacc HltM Hle1) as (ret & ctx1 & Hcall & Hinv1).
    assert (Hnum1 : Forall (fun a => f_isnan (hitFraction a) = false) (acc ++ [h])).
    { apply Forall_app. split; [exact Hnum|].
      constructor; [exact (proj1 (f_ltb_numbers _ _ HltM)) | constructor]. }
    destruct (IH (acc ++ [h]) ctx1 Hinv1 Hnum1 Hall') as (rets & ctx' & Hrest & Hinv').
    exists (ret :: rets), ctx'. split.
    + cbn [callForEach]. rewrite Hcall. cbn [outcome_bind snd fst]. rewrite Hrest. reflexivity.
    + rewrite <- (assoc_L app) in Hinv'. exact Hinv'.
Qed.

End SortedSequence.

Section SortedTheorem.

Import CollisionSample.

Context {F : Type} `{Scalar F} {SS : ScalarStrict F} {SW : ScalarWeakOrder F}.
Local Open Scope fl_scope.

(** X13. [RayCastSortedCallback], called in turn for any list of hits it
    does not skip, with fractions of at most 1 and less than [FLT_MAX], on
    the context [CastWorld::Step] prepares, returns every time in either
    build.  Afterwards the count is the number of hits, up to three; the
    fractions ascend; and the three slots are the closest of the hits: with
    some dropped hits, none of them closer than the last slot, they make up
    the hits presented and the three empty slots of the start.  The carrier
    is one whose [<] is asymmetric and whose "not less than" is transitive
    among the values that are not NaN: IEEE binary32 and the exact
    rationals both. *)
Theorem sorted_callback_keeps_the_three_closest (asserts : bool)
    (shapeUserData : gmap Z ShapeUserData) (FLT_MAX : F) (hits : list (Hit F)) :
  Forall (fun h => acceptedHit shapeUserData h
                   /\ (hitFraction h <? FLT_MAX) = true
                   /\ (hitFraction h <=? 1) = true) hits ->
  exists (rets : list F) (rayContext' : CastContext F),
    callForEach (RayCastSortedCallback asserts shapeUserData) hits
      (initialCastContext FLT_MAX) = Ok (rets, rayContext')
    /\ count rayContext' = Z.min 3 (Z.of_nat (length hits))
    /\ ascending (fractions rayContext')
    /\ exists dropped : list (b2Vec2 F * b2Vec2 F * F),
         slots rayContext' ++ dropped
           ≡ₚ map slotOf hits ++ replicate 3 (emptySlot FLT_MAX)
         /\ Forall (fun d => (snd d <? at2 (fractions rayContext')) = false) dropped.
Proof.
  intros Hall.
  destruct (keepsClosest_sequence asserts (keepsClosest_initial FLT_MAX)
              (List.Forall_nil _) Hall)
    as (rets & ctx' & Hcall & Hinv).
  exists rets, ctx'. split; [exact Hcall|].
  destruct Hinv as (Hcount & Hasc & _ & _ & _ & _ & _ & _ & D & Hperm & HD).
  split; [exact Hcount|]. split; [exact Hasc|].
  exists D. split; assumption.
Qed.

End SortedTheorem.

(** ** The overlap callback *)

Section OverlapFacts.

Import CollisionSample.

Variable shapeUserData : gmap Z ShapeUserData.

Local Abbreviation kept := (List.filter (notIgnored shapeUserData)).

Lemma overlap_step (acc : list Z) (shapeId : Z) (sample : OverlapWorld) :
  length (m_doomIds sample) = Z.to_nat e_maxDoomed ->
  m_doomCount sample = Z.min e_maxDoomed (Z.of_nat (length (kept acc))) ->
  doomed sample = take (Z.to_nat e_maxDoomed) (kept acc) ->
  exists sample' : OverlapWorld,
    OverlapResultFcn shapeUserData shapeId sample = Ok (true, sample')
    /\ length (m_doomIds sample') = Z.to_nat e_maxDoomed
    /\ m_doomCount sample' = Z.min e_maxDoomed (Z.of_nat (length (kept (acc ++ [shapeId]))))
    /\ doomed sample' = take (Z.to_nat e_maxDoomed) (kept (acc ++ [shapeId])).
Proof.
  intros Hlen Hcount Hdoom. destruct sample as [ids c]. unfold doomed in *.
  cbn [m_doomIds m_doomCount] in *.
  rewrite List.filter_app. cbn [List.filter].
  unfold OverlapResultFcn, b2Shape_GetUserData. cbv zeta. unfold notIgnored at 2 4.
  change (Z.to_nat e_maxDoomed) with 16%nat in *. unfold e_maxDoomed in *.
  destruct (match shapeUserData !! shapeId with Some u => ignore u | None => false end).
  - (* skipped *)
    cbn [negb]. rewrite app_nil_r.
    eexists. split; [reflexivity|]. cbn [m_doomIds m_doomCount].
    repeat split; assumption.
  - cbn [negb m_doomCount m_doomIds].
    destruct (c <? 16)%Z eqn:Hlt.
    + apply Z.ltb_lt in Hlt.
      assert (Hc : c = Z.of_nat (length (kept acc))) by lia.
      assert (Hsmall : (length (kept acc) < 16)%nat) by lia.
      unfold array_set.
      assert (Hin : ((0 <=? c)%Z && (c <? Z.of_nat (length ids))%Z) = true).
      { apply andb_true_iff. split; [apply Z.leb_le | apply Z.ltb_lt]; lia. }
      rewrite Hin. cbn [outcome_bind].
      eexists. split; [reflexivity|]. cbn [m_doomIds m_doomCount].
      split; [rewrite length_insert; exact Hlen|].
      split; [rewrite length_app; simpl; lia|].
      rewrite Hc, Nat2Z.id in Hdoom. rewrite (take_ge (kept acc)) in Hdoom by lia.
      rewrite (take_ge (kept acc ++ [shapeId])) by (rewrite length_app; simpl; lia).
      replace (Z.to_nat (c + 1)) with (S (length (kept acc))) by lia.
      rewrite Hc, Nat2Z.id.
      erewrite take_S_r by (apply list_lookup_insert_eq; lia).
      rewrite take_insert_ge by lia. rewrite Hdoom. reflexivity.
    + apply Z.ltb_ge in Hlt.
      assert (Hbig : (16 <= length (kept acc))%nat) by lia.
      cbn [outcome_bind].
      eexists. split; [reflexivity|]. cbn [m_doomIds m_doomCount].
      split; [exact Hlen|].
      split; [rewrite length_app; simpl; lia|].
      rewrite take_app_le by lia. exact Hdoom.
Qed.

Lemma overlap_sequence (shapes acc : list Z) (sample : OverlapWorld) :
  length (m_doomIds sample) = Z.to_nat e_maxDoomed ->
  m_doomCount sample = Z.min e_maxDoomed (Z.of_nat (length (kept acc))) ->
  doomed sample = take (Z.to_nat e_maxDoomed) (kept acc) ->
  exists (rets : list bool) (sample' : OverlapWorld),
    overlapForEach shapeUserData shapes sample = Ok (rets, sample')
    /\ rets = replicate (length shapes) true
    /\ length (m_doomIds sample') = Z.to_nat e_maxDoomed
    /\ m_doomCount sample' = Z.min e_maxDoomed (Z.of_nat (length (kept (acc ++ shapes))))
    /\ doomed sample' = take (Z.to_nat e_maxDoomed) (kept (acc ++ shapes)).
Proof.
  revert acc sample. induction shapes as [|s shapes IH]; intros acc sample Hlen Hcount Hdoom.
  - exists [], sample. rewrite app_nil_r. repeat split; assumption.
  - destruct (overlap_step acc s sample Hlen Hcount Hdoom) as (s1 & Hcall & Hlen1 & Hc1 & Hd1).
    destruct (IH (acc ++ [s]) s1 Hlen1 Hc1 Hd1) as (rets & s' & Hrest & Hrets & Hlen' & Hc' & Hd').
    exists (true :: rets), s'. rewrite <- (assoc_L app) in Hc', Hd'.
    split.
    + cbn [overlapForEach]. rewrite Hcall. cbn [outcome_bind snd fst]. rewrite Hrest. reflexivity.
    + split; [rewrite Hrets; reflexivity|]. repeat split; assumption.
Qed.

(** X14. [OverlapWorld::OverlapResultFcn], called in turn for any list of
    shapes on a sample whose doom count is zero, returns [true] (continue
    the query) every time; afterwards the sample holds the first sixteen
    shapes of the list that are not marked [ignore], in the order of the
    list, and its doom count is their number: the callback never writes past
    [m_doomIds[e_maxDoomed]]. *)
Theorem overlap_callback_collects_the_first_sixteen (shapes : list Z)
    (sample : OverlapWorld) :
  length (m_doomIds sample) = Z.to_nat e_maxDoomed ->
  m_doomCount sample = 0%Z ->
  exists (rets : list bool) (sample' : OverlapWorld),
    overlapForEach shapeUserData shapes sample = Ok (rets, sample')
    /\ rets = replicate (length shapes) true
    /\ m_doomCount sample' = Z.min e_maxDoomed (Z.of_nat (length (kept shapes)))
    /\ doomed sample' = take (Z.to_nat e_maxDoomed) (kept shapes).
Proof.
  intros Hlen Hc.
  destruct (overlap_sequence shapes [] sample Hlen) as (rets & s' & Hcall & Hrets & _ & Hc' & Hd').
  - rewrite Hc. reflexivity.
  - unfold doomed. rewrite Hc. reflexivity.
  - exists rets, s'. repeat split; assumption.
Qed.

End OverlapFacts.

(** ** The statements at concrete inputs *)






(** The joint between the awake body in slot 0 and a static body: both
    passes return and write slot 0 only. *)
Lemma weld_passes_write_awake_slots_only_witness :
  (exists context' : b2StepContext Qc,
      b2WarmStartWeldJoint (exampleJoint 0 2 0 (-1)) (exampleContext true) = Ok context'
      /\ onlyJointSlotsWritten (exampleWeld 0 (-1)) (exampleContext true) context')
  /\ (exists (base' : b2JointSim Qc) (context' : b2StepContext Qc),
      b2SolveWeldJoint (SM:=exampleMath) true (exampleJoint 0 2 0 (-1)) (exampleContext true)
        false = Ok (base', context')
      /\ onlyJointSlotsWritten (exampleWeld 0 (-1)) (exampleContext true) context').
Proof.
  destruct (@weld_passes_write_awake_slots_only Qc Qc_Scalar exampleMath true
              (exampleJoint 0 2 0 (-1)) (exampleContext true) false eq_refl
              (or_intror (conj (Z.le_refl 0) eq_refl)) (or_introl eq_refl))
    as (_ & _ & Hw & Hs & _).
  split; [exact Hw | exact Hs].
Defined.

(** On binary32, with assertions compiled in, a NaN, an infinity and a
    negative number are stopped at the entry of the setter. *)
Lemma weld_setters_reject_only_under_assertions_witness :
  b2WeldJoint_SetLinearHertz true [exampleJoint (F:=binary32) 0 1 0 1] 0 S754_nan
  = AssertFailed
  /\ b2WeldJoint_SetLinearDampingRatio true [exampleJoint (F:=binary32) 0 1 0 1] 0
       (S754_infinity false) = AssertFailed
  /\ b2WeldJoint_SetAngularHertz true [exampleJoint (F:=binary32) 0 1 0 1] 0
       (f_neg f_one) = AssertFailed.
Proof.
  split; [|split].
  - apply (weld_setters_reject_only_under_assertions
             [exampleJoint (F:=binary32) 0 1 0 1] 0 (v:=S754_nan)).
    left. reflexivity.
  - apply (weld_setters_reject_only_under_assertions
             [exampleJoint (F:=binary32) 0 1 0 1] 0 (v:=S754_infinity false)).
    right. left. reflexivity.
  - apply (weld_setters_reject_only_under_assertions
             [exampleJoint (F:=binary32) 0 1 0 1] 0 (v:=f_neg f_one)).
    right. right. reflexivity.
Defined.

(** C2 as stated fails in a build without assertions: the linear Hertz of
    the joint is 0, the setter is called with NaN (and with -1), it is not
    stopped, and the stored parameter is NaN (or -1) afterwards. *)
Lemma weld_setter_stores_invalid_argument :
  invalidParameter (S754_nan : binary32)
  /\ invalidParameter (f_neg f_one : binary32)
  /\ b2WeldJoint_GetLinearHertz false [exampleJoint (F:=binary32) 0 1 0 1] 0
     = Ok (S754_zero false)
  /\ (js <- b2WeldJoint_SetLinearHertz false [exampleJoint (F:=binary32) 0 1 0 1] 0 S754_nan ;;
      b2WeldJoint_GetLinearHertz false js 0) = Ok S754_nan
  /\ (js <- b2WeldJoint_SetLinearHertz false [exampleJoint (F:=binary32) 0 1 0 1] 0
             (f_neg f_one) ;;
      b2WeldJoint_GetLinearHertz false js 0) = Ok (S754_finite true 8388608 (-23))
  /\ S754_nan <> S754_zero false
  /\ S754_finite true 8388608 (-23) <> S754_zero false.
Proof.
  split; [left; reflexivity|].
  split; [right; right; reflexivity|].
  split; [reflexivity|]. split; [reflexivity|]. split; [reflexivity|].
  split; discriminate.
Qed.

(** Three steps of the example world.  The first ends a sensor touch and a
    contact, the second ends nothing, the third ends one sensor touch: the
    arrays exposed after the third hold that event and nothing else, and
    still do while a fourth step records an event of its own. *)
Lemma end_events_double_buffered_witness :
  b2World_GetSensorEndEvents
    (b2World_StepEndEvents
       (b2World_StepsEndEvents (exampleWorld (F:=Qc))
          [ ([ {| sensorShapeId := 1; visitorShapeId := 2 |} ],
             [ {| shapeIdA := 2; shapeIdB := 5; contactId := 9 |} ]);
            ([], []) ])
       [ {| sensorShapeId := 1; visitorShapeId := 3 |} ] [])
  = [ {| sensorShapeId := 1; visitorShapeId := 3 |} ]
  /\ b2World_GetContactEndEvents
       (b2World_StepEndEvents
          (b2World_StepsEndEvents (exampleWorld (F:=Qc))
             [ ([ {| sensorShapeId := 1; visitorShapeId := 2 |} ],
                [ {| shapeIdA := 2; shapeIdB := 5; contactId := 9 |} ]);
               ([], []) ])
          [ {| sensorShapeId := 1; visitorShapeId := 3 |} ] [])
     = []
  /\ b2World_GetSensorEndEvents
       (b2RecordEndEvents
          (b2World_StepEndEvents
             (b2World_StepsEndEvents (exampleWorld (F:=Qc))
                [ ([ {| sensorShapeId := 1; visitorShapeId := 2 |} ],
                   [ {| shapeIdA := 2; shapeIdB := 5; contactId := 9 |} ]);
                  ([], []) ])
             [ {| sensorShapeId := 1; visitorShapeId := 3 |} ] [])
          [ {| sensorShapeId := 4; visitorShapeId := 3 |} ] [])
     = [ {| sensorShapeId := 1; visitorShapeId := 3 |} ].
Proof.
  destruct (end_events_double_buffered (w := exampleWorld (F:=Qc))
              [ ([ {| sensorShapeId := 1; visitorShapeId := 2 |} ],
                 [ {| shapeIdA := 2; shapeIdB := 5; contactId := 9 |} ]);
                ([], []) ]
              [ {| sensorShapeId := 1; visitorShapeId := 3 |} ]
              [ {| sensorShapeId := 4; visitorShapeId := 3 |} ] [] []
              (conj (or_introl eq_refl) (conj eq_refl eq_refl)))
    as (Hs & Hc & Hs' & _).
  split; [exact Hs|]. split; [exact Hc | exact Hs'].
Defined.

(** Three constraints over bodies 1..4, all dynamic: the first two share
    no body and go to colour 0, the third shares a body with each and goes
    to colour 1. *)
Lemma graph_colors_bounded_and_independent_witness :
  colors (fold_left (b2AddConstraintToGraph (fun _ => true))
            [ {| constraintId := 0; bodyA := 1; bodyB := 2 |};
              {| constraintId := 1; bodyA := 3; bodyB := 4 |};
              {| constraintId := 2; bodyA := 2; bodyB := 3 |} ] b2CreateGraph) !! 0%nat
  = Some [ {| constraintId := 1; bodyA := 3; bodyB := 4 |};
           {| constraintId := 0; bodyA := 1; bodyB := 2 |} ]
  /\ shareDynamicBody (fun _ => true)
       {| constraintId := 1; bodyA := 3; bodyB := 4 |}
       {| constraintId := 0; bodyA := 1; bodyB := 2 |} = false.
Proof.
  split; [reflexivity|].
  destruct (graph_colors_bounded_and_independent (fun _ => true)
              [ {| constraintId := 0; bodyA := 1; bodyB := 2 |};
                {| constraintId := 1; bodyA := 3; bodyB := 4 |};
                {| constraintId := 2; bodyA := 2; bodyB := 3 |} ]) as (_ & _ & Hind).
  apply (Hind 0%nat
           [ {| constraintId := 1; bodyA := 3; bodyB := 4 |};
             {| constraintId := 0; bodyA := 1; bodyB := 2 |} ] 0%nat 1%nat);
    [reflexivity | reflexivity | reflexivity | exact (O_S 0)].
Defined.

(** ** The further statements at concrete inputs *)

(** Setting the angular Hertz of the example joint to 2: the getters report
    0, 0, 2 and 0 afterwards. *)
Lemma weld_setters_store_valid_parameter_witness :
  exists joints' : list (b2JointSim Qc),
    b2WeldJoint_SetAngularHertz true [exampleJoint 0 1 0 1] 0 two = Ok joints'
    /\ weldParametersAre true joints' 0 f_zero f_zero two f_zero
    /\ onlyJointWritten [exampleJoint 0 1 0 1] joints' 0.
Proof.
  assert (Hv : b2IsValidFloat (two : Qc) && f_leb f_zero (two : Qc) = true) by reflexivity.
  destruct (@weld_setters_store_valid_parameter Qc Qc_Scalar true
              [exampleJoint 0 1 0 1] 0 (exampleJoint 0 1 0 1) two
              (Z.le_refl 0) eq_refl eq_refl Hv)
    as (_ & _ & (js & Hset & Hpar & Hframe & _) & _).
  exists js. split; [exact Hset|]. split; [exact Hpar | exact Hframe].
Defined.

(** A weld joint of the static body 2 with itself: the debug build stops,
    the release build prepares it with both indices null. *)
Lemma prepare_needs_an_awake_body_witness :
  b2PrepareWeldJoint (SM:=exampleMath) true (exampleJoint (F:=Qc) 2 2 0 0) (exampleContext true)
  = AssertFailed
  /\ exists base' : b2JointSim Qc,
       b2PrepareWeldJoint (SM:=exampleMath) false (exampleJoint 2 2 0 0) (exampleContext true)
       = Ok base'
       /\ indexA (weldJoint base') = B2_NULL_INDEX
       /\ indexB (weldJoint base') = B2_NULL_INDEX.
Proof.
  assert (Hstatic : (0 <> b2_awakeSet)%Z) by discriminate.
  assert (Hid : (0 <= 2)%Z) by discriminate.
  destruct (@prepare_needs_an_awake_body Qc Qc_Scalar exampleMath
              (exampleJoint 2 2 0 0) (exampleContext true)
              {| setIndex := 0; localIndex := 0 |} {| setIndex := 0; localIndex := 0 |}
              eq_refl Hid eq_refl Hid eq_refl Hstatic Hstatic)
    as [Hdebug Hrelease].
  split; [exact Hdebug|].
  eexists. split; [reflexivity|]. apply Hrelease. reflexivity.
Defined.

(** Preparing the joint of the two awake bodies twice. *)
Lemma prepare_is_idempotent_witness :
  exists base' : b2JointSim Qc,
    b2PrepareWeldJoint (SM:=exampleMath) true (exampleJoint 0 1 7 7) (exampleContext true)
    = Ok base'
    /\ b2PrepareWeldJoint (SM:=exampleMath) true base' (exampleContext true) = Ok base'.
Proof.
  eexists. split; [reflexivity|].
  destruct (@prepare_is_idempotent Qc Qc_Scalar exampleMath true
              (exampleJoint 0 1 7 7) _ (exampleContext true) eq_refl) as [Hagain _].
  exact Hagain.
Defined.

(** Preparing the joint of the awake body 0 and the static body 2: slot 0
    and the null index are cached. *)
Lemma prepare_returns_on_a_consistent_world_witness :
  exists base' : b2JointSim Qc,
    b2PrepareWeldJoint (SM:=exampleMath) true (exampleJoint 0 2 7 7) (exampleContext true)
    = Ok base'
    /\ indexA (weldJoint base') = 0%Z /\ indexB (weldJoint base') = B2_NULL_INDEX
    /\ invMassA base' = f_one /\ invMassB base' = f_zero.
Proof.
  assert (Hid : (0 <= 2)%Z) by discriminate.
  destruct (@prepare_returns_on_a_consistent_world Qc Qc_Scalar exampleMath true
              (exampleJoint 0 2 7 7) (exampleContext true)
              {| setIndex := 2; localIndex := 0 |} {| setIndex := 0; localIndex := 0 |}
              {| bodySims := [exampleBodySim f_one f_zero; exampleBodySim half two] |}
              {| bodySims := [exampleBodySim f_zero (f_add two two)] |}
              (exampleBodySim f_one f_zero) (exampleBodySim f_zero (f_add two two))
              eq_refl (Z.le_refl 0) eq_refl Hid eq_refl
              (or_introl eq_refl)
              Hid eq_refl (Z.le_refl 0) eq_refl
              (Z.le_refl 0) eq_refl (Z.le_refl 0) eq_refl)
    as (base' & Hp & HmA & _ & HmB & _ & HiA & HiB & _).
  exists base'. split; [exact Hp|].
  split; [exact HiA|]. split; [exact HiB|]. split; [exact HmA | exact HmB].
Defined.

(** One solve of the joint of the two awake bodies, and the warm start of
    the impulses it computed. *)
Lemma solve_is_warm_start_of_its_impulse_witness :
  exists (P : b2Vec2 Qc) (A : Qc) (base' : b2JointSim Qc) (context' : b2StepContext Qc),
    b2SolveWeldJoint (SM:=exampleMath) true (exampleJoint 0 1 0 1) (exampleContext true) true
    = Ok (base', context')
    /\ b2WarmStartWeldJoint (withImpulses (exampleJoint 0 1 0 1) P A) (exampleContext true)
       = Ok context'.
Proof.
  assert (HvA : validIndex (states (exampleContext (F:=Qc) true))
                  (indexA (weldJoint (exampleJoint (F:=Qc) 0 1 0 1))))
    by (right; simpl; lia).
  assert (HvB : validIndex (states (exampleContext (F:=Qc) true))
                  (indexB (weldJoint (exampleJoint (F:=Qc) 0 1 0 1))))
    by (right; simpl; lia).
  assert (Hne : indexA (weldJoint (exampleJoint (F:=Qc) 0 1 0 1))
                <> indexB (weldJoint (exampleJoint (F:=Qc) 0 1 0 1)))
    by discriminate.
  destruct (@solve_is_warm_start_of_its_impulse Qc Qc_Scalar Qc_ExactArith exampleMath true
              (exampleJoint 0 1 0 1) (exampleContext true) true eq_refl HvA HvB Hne)
    as (P & A & base' & context' & Hs & _ & Hw).
  exists P, A, base', context'. split; [exact Hs | exact Hw].
Defined.

(** The example joint has linear Hertz 0, and Cramer's rule solves its
    matrix: after one solve without bias the two anchors move together. *)
Lemma rigid_weld_stops_relative_anchor_velocity_witness :
  exists (base' : b2JointSim Qc) (context' : b2StepContext Qc) (a' b' : b2BodyState Qc),
    b2SolveWeldJoint (SM:=exampleMath) true (exampleJoint 0 1 0 1) (exampleContext true) false
    = Ok (base', context')
    /\ states context' !! 0%nat = Some a' /\ states context' !! 1%nat = Some b'
    /\ anchorVelocity (weldJoint base') a' b' = b2Vec2_zero.
Proof.
  assert (Hrigid : f_ltb f_zero (linearHertz (weldJoint (exampleJoint (F:=Qc) 0 1 0 1))) = false)
    by reflexivity.
  apply (@rigid_weld_stops_relative_anchor_velocity Qc Qc_Scalar Qc_ExactArith exampleMath true
           (exampleJoint 0 1 0 1) (exampleContext true) 0%nat 1%nat
           (exampleState f_one two (f_add two f_one))
           (exampleState (f_neg f_one) f_zero f_one)
           eq_refl eq_refl eq_refl (O_S 0) eq_refl eq_refl Hrigid).
  intros rhs. apply exampleMath_solves; [reflexivity|].
  apply positive_nonzero. reflexivity.
Defined.

(** The joint of the awake body in slot 0 and a static body: both passes
    return and keep flags, displacement and rotation of every state. *)
Lemma weld_passes_change_velocities_only_witness :
  (exists context' : b2StepContext Qc,
      b2WarmStartWeldJoint (exampleJoint 0 2 0 (-1)) (exampleContext true) = Ok context'
      /\ Forall2 samePose (states (exampleContext true)) (states context'))
  /\ (exists (base' : b2JointSim Qc) (context' : b2StepContext Qc),
      b2SolveWeldJoint (SM:=exampleMath) true (exampleJoint 0 2 0 (-1)) (exampleContext true)
        false = Ok (base', context')
      /\ Forall2 samePose (states (exampleContext true)) (states context')).
Proof.
  destruct (@weld_passes_change_velocities_only Qc Qc_Scalar exampleMath true
              (exampleJoint 0 2 0 (-1)) (exampleContext true) false eq_refl
              (or_intror (conj (Z.le_refl 0) eq_refl)) (or_introl eq_refl))
    as [Hw (bs & cs & Hs & Hpose & _)].
  split; [exact Hw|]. exists bs, cs. split; [exact Hs | exact Hpose].
Defined.

(** Two warm starts of the joint of the two awake bodies, with the
    impulses ((1, 0), 1) and ((0, 1), 2), and one with their sum. *)
Lemma warm_start_is_additive_in_the_impulse_witness :
  (context1 <- b2WarmStartWeldJoint
                 (withImpulses (exampleJoint (F:=Qc) 0 1 0 1) (exampleVec f_one f_zero) f_one)
                 (exampleContext true) ;;
   b2WarmStartWeldJoint
     (withImpulses (exampleJoint 0 1 0 1) (exampleVec f_zero f_one) two) context1)
  = b2WarmStartWeldJoint
      (withImpulses (exampleJoint 0 1 0 1)
         (b2Add (exampleVec f_one f_zero) (exampleVec f_zero f_one)) (f_add f_one two))
      (exampleContext true).
Proof.
  apply (@warm_start_is_additive_in_the_impulse Qc Qc_Scalar Qc_ExactArith
           (exampleJoint 0 1 0 1) (exampleContext true) 0%nat 1%nat
           (exampleState f_one two (f_add two f_one))
           (exampleState (f_neg f_one) f_zero f_one)
           (exampleVec f_one f_zero) (exampleVec f_zero f_one) f_one two
           eq_refl eq_refl (O_S 0) eq_refl eq_refl).
Defined.

(** One solve of the joint of the two awake bodies, of inverse inertia 1
    and 1/2. *)
Lemma weld_angular_impulse_is_equal_and_opposite_witness :
  exists (P : b2Vec2 Qc) (A : Qc) (base' : b2JointSim Qc) (context' : b2StepContext Qc)
         (a' b' : b2BodyState Qc),
    b2SolveWeldJoint (SM:=exampleMath) true (exampleJoint 0 1 0 1) (exampleContext true) true
    = Ok (base', context')
    /\ states context' !! 0%nat = Some a' /\ states context' !! 1%nat = Some b'
    /\ spinMomentum (exampleJoint 0 1 0 1) a' b'
       = f_add (spinMomentum (exampleJoint 0 1 0 1)
                  (exampleState f_one two (f_add two f_one))
                  (exampleState (f_neg f_one) f_zero f_one))
               (f_sub (b2Cross (exampleVec (f_neg f_one) f_zero) P)
                      (b2Cross (exampleVec f_one f_zero) P)).
Proof.
  assert (HiA : f_ltb f_zero (invIA (exampleJoint (F:=Qc) 0 1 0 1)) = true) by reflexivity.
  assert (HiB : f_ltb f_zero (invIB (exampleJoint (F:=Qc) 0 1 0 1)) = true) by reflexivity.
  destruct (@weld_angular_impulse_is_equal_and_opposite Qc Qc_Scalar Qc_ExactArith exampleMath
              true (exampleJoint 0 1 0 1) (exampleContext true) true 0%nat 1%nat
              (exampleState f_one two (f_add two f_one))
              (exampleState (f_neg f_one) f_zero f_one)
              eq_refl eq_refl eq_refl (O_S 0) eq_refl eq_refl HiA HiB)
    as (P & A & base' & context' & a' & b' & Hs & _ & _ & Ha' & Hb' & _ & _ & Hspin).
  exists P, A, base', context', a', b'.
  split; [exact Hs|]. split; [exact Ha'|]. split; [exact Hb'|].
  rewrite Hspin. reflexivity.
Defined.

Section CallbackWitnesses.

Import CollisionSample.

(** Shape 7 is marked [ignore]: the sorted callback returns -1 on binary32,
    and so does the closest callback for a hit of fraction zero on another
    shape. *)
Lemma cast_callbacks_skip_filtered_hits_witness :
  RayCastSortedCallback true exampleUserData 7 (exampleVec half f_zero)
    (exampleVec (f_neg f_one) f_zero) half (initialCastContext b32_FLT_MAX)
  = Ok (f_neg f_one, initialCastContext b32_FLT_MAX)
  /\ RayCastClosestCallback exampleUserData 3 (exampleVec f_zero f_zero)
       (exampleVec f_zero f_zero) f_zero (initialCastContext b32_FLT_MAX)
     = Ok (f_neg f_one, initialCastContext b32_FLT_MAX).
Proof.
  split.
  - apply (@cast_callbacks_skip_filtered_hits binary32 binary32_Scalar true exampleUserData 7
             (exampleVec half f_zero) (exampleVec (f_neg f_one) f_zero) half
             (initialCastContext b32_FLT_MAX)).
    left. exists {| index := 7; ignore := true |}. split; reflexivity.
  - apply (@cast_callbacks_skip_filtered_hits binary32 binary32_Scalar true exampleUserData 3
             (exampleVec f_zero f_zero) (exampleVec f_zero f_zero) f_zero
             (initialCastContext b32_FLT_MAX)).
    right. reflexivity.
Defined.

(** Two hits, at fractions 1/2 and 1/4: they are stored as they come. *)
Lemma multiple_callback_collects_in_arrival_order_witness :
  exists (rets : list binary32) (rayContext' : CastContext binary32),
    callForEach (RayCastMultipleCallback true exampleUserData)
      [exampleHit 1 half; exampleHit 8 quarter] (initialCastContext b32_FLT_MAX)
    = Ok (rets, rayContext')
    /\ count rayContext' = 2%Z
    /\ take 2 (slots rayContext') = [slotOf (exampleHit 1 half); slotOf (exampleHit 8 quarter)]
    /\ rets = [f_one; f_one].
Proof.
  assert (Hacc : Forall (acceptedHit exampleUserData)
                   [exampleHit (F:=binary32) 1 half; exampleHit 8 quarter])
    by (repeat constructor).
  destruct (@multiple_callback_collects_in_arrival_order binary32 binary32_Scalar true
              exampleUserData [exampleHit 1 half; exampleHit 8 quarter]
              (initialCastContext b32_FLT_MAX) Hacc (le_S _ _ (le_n 2)) eq_refl)
    as (rets & ctx' & Hcall & Hcount & Htake & _ & Hrets).
  exists rets, ctx'. split; [exact Hcall|]. split; [exact Hcount|].
  split; [exact Htake | exact Hrets].
Defined.

(** A context whose count is three, and one more hit. *)
Lemma multiple_callback_overruns_a_full_buffer_witness :
  RayCastMultipleCallback true exampleUserData 1 (exampleVec half f_zero)
    (exampleVec (f_neg f_one) f_zero) half
    {| points := points (initialCastContext b32_FLT_MAX);
       normals := normals (initialCastContext b32_FLT_MAX);
       fractions := fractions (initialCastContext b32_FLT_MAX);
       count := 3 |}
  = AssertFailed
  /\ RayCastMultipleCallback false exampleUserData 1 (exampleVec half f_zero)
       (exampleVec (f_neg f_one) f_zero) half
       {| points := points (initialCastContext b32_FLT_MAX);
          normals := normals (initialCastContext b32_FLT_MAX);
          fractions := fractions (initialCastContext b32_FLT_MAX);
          count := 3 |}
     = Undefined.
Proof.
  apply (@multiple_callback_overruns_a_full_buffer binary32 binary32_Scalar exampleUserData
           (exampleHit 1 half)
           {| points := points (initialCastContext b32_FLT_MAX);
              normals := normals (initialCastContext b32_FLT_MAX);
              fractions := fractions (initialCastContext b32_FLT_MAX);
              count := 3 |}).
  - reflexivity.
  - apply Z.le_refl.
Defined.

(** On binary32, a context holding one hit at 1/2 and a hit at 1/4: the
    new hit goes to the first slot, the old one to the second. *)
Lemma sorted_callback_inserts_in_order_witness :
  exists (ret : binary32) (rayContext' : CastContext binary32),
    RayCastSortedCallback true exampleUserData 1 (exampleVec quarter f_zero)
      (exampleVec (f_neg f_one) f_zero) quarter (exampleCastContext b32_FLT_MAX)
    = Ok (ret, rayContext')
    /\ ascending (fractions rayContext')
    /\ count rayContext' = 2%Z
    /\ ret = f_one.
Proof.
  assert (Hasc : ascending (fractions (exampleCastContext b32_FLT_MAX)))
    by (split; reflexivity).
  assert (Hacc : acceptedHit exampleUserData (exampleHit (F:=binary32) 1 quarter))
    by reflexivity.
  assert (Hc3 : (count (exampleCastContext b32_FLT_MAX) <= 3)%Z) by discriminate.
  assert (Hlt : f_ltb (hitFraction (exampleHit (F:=binary32) 1 quarter))
                  (at2 (fractions (exampleCastContext b32_FLT_MAX))) = true)
    by reflexivity.
  destruct (@sorted_callback_inserts_in_order binary32 binary32_Scalar binary32_ScalarStrict
              true exampleUserData (exampleHit 1 quarter) (exampleCastContext b32_FLT_MAX)
              Hacc Hc3 Hasc Hlt)
    as (ret & ctx' & Hcall & Hasc' & _ & _ & Hcount & Hret).
  exists ret, ctx'. split; [exact Hcall|]. split; [exact Hasc'|].
  split; [exact Hcount|]. rewrite Hret, Hcount. reflexivity.
Defined.

(** On binary32, four hits at 3/4, 1/4, 1 and 1/2: the callback returns
    four times and keeps three hits in ascending order. *)
Lemma sorted_callback_keeps_the_three_closest_witness :
  exists (rets : list binary32) (rayContext' : CastContext binary32),
    callForEach (RayCastSortedCallback true exampleUserData)
      [exampleHit 1 threeQuarters; exampleHit 2 quarter; exampleHit 3 f_one; exampleHit 8 half]
      (initialCastContext b32_FLT_MAX)
    = Ok (rets, rayContext')
    /\ count rayContext' = 3%Z
    /\ ascending (fractions rayContext').
Proof.
  assert (Hall : Forall (fun h : Hit binary32 =>
                           acceptedHit exampleUserData h
                           /\ f_ltb (hitFraction h) b32_FLT_MAX = true
                           /\ f_leb (hitFraction h) f_one = true)
                   [exampleHit 1 threeQuarters; exampleHit 2 quarter; exampleHit 3 f_one;
                    exampleHit 8 half])
    by (repeat constructor).
  destruct (@sorted_callback_keeps_the_three_closest binary32 binary32_Scalar
              binary32_ScalarStrict binary32_ScalarWeakOrder true exampleUserData b32_FLT_MAX
              [exampleHit 1 threeQuarters; exampleHit 2 quarter; exampleHit 3 f_one;
               exampleHit 8 half] Hall)
    as (rets & ctx' & Hcall & Hcount & Hasc & _).
  exists rets, ctx'. split; [exact Hcall|]. split; [exact Hcount | exact Hasc].
Defined.

(** Shapes 1, 7, 8 and 2 overlap the query shape; 7 is marked [ignore]. *)
Lemma overlap_callback_collects_the_first_sixteen_witness :
  exists (rets : list bool) (sample' : OverlapWorld),
    overlapForEach exampleUserData [1; 7; 8; 2]%Z exampleOverlapWorld = Ok (rets, sample')
    /\ rets = [true; true; true; true]
    /\ m_doomCount sample' = 3%Z
    /\ doomed sample' = [1; 8; 2]%Z.
Proof.
  destruct (@overlap_callback_collects_the_first_sixteen exampleUserData [1; 7; 8; 2]%Z
              exampleOverlapWorld eq_refl eq_refl)
    as (rets & sample' & Hcall & Hrets & Hcount & Hdoomed).
  exists rets, sample'. split; [exact Hcall|]. split; [exact Hrets|].
  split; [exact Hcount | exact Hdoomed].
Defined.

End CallbackWitnesses.
